(** * dsntnn: differentiable spatial to numerical transform

    A shallow embedding of [dsntnn/__init__.py] and the properties its
    specification states about it.

    Conventions of the embedding:
    - tensor entries and Python floats are real numbers ([R]); rounding is
      not modelled, so every equation below is one of exact arithmetic;
    - a tensor is a shape together with its entries in row-major order, the
      layout [view] relies on;
    - Python exceptions are the [Raise] side of [result]; every function of
      the module that can raise returns a [result];
    - Python integers are [Z]; sizes of existing tensors are [nat]. *)

From Stdlib Require Import Reals Lra Lia List ZArith Arith Bool.
Import ListNotations.

(** ** Python: exceptions, sequences, division *)

Module Py.

Inductive exn : Type :=
| ZeroDivisionError
| IndexError
| TypeError
| RuntimeError.

Inductive result (A : Type) : Type :=
| Ok (a : A)
| Raise (e : exn).

Arguments Ok {A} a.
Arguments Raise {A} e.

Definition bind {A B : Type} (c : result A) (k : A -> result B) : result B :=
  match c with
  | Ok a => k a
  | Raise e => Raise e
  end.

Notation "x <- c ;; k" := (bind c (fun x => k))
  (at level 61, c at next level, right associativity).

(** A list comprehension whose body can raise. *)
Fixpoint mapM {A B : Type} (f : A -> result B) (l : list A) : result (list B) :=
  match l with
  | [] => Ok []
  | x :: xs => y <- f x ;; ys <- mapM f xs ;; Ok (y :: ys)
  end.

(** [functools.reduce(f, l, init)], also the shape of a [for] loop that
    rebinds one variable. *)
Fixpoint reduce_init {A B : Type} (f : B -> A -> result B) (l : list A) (init : B)
  : result B :=
  match l with
  | [] => Ok init
  | x :: xs => b <- f init x ;; reduce_init f xs b
  end.

(** [functools.reduce(f, l)]: a [TypeError] on the empty sequence. *)
Definition reduce {A : Type} (f : A -> A -> result A) (l : list A) : result A :=
  match l with
  | [] => Raise TypeError
  | x :: xs => reduce_init f xs x
  end.

(** [range(start, stop)] and [range(start, stop, -1)]. *)
Definition range (start stop : Z) : list Z :=
  map (fun k => (start + Z.of_nat k)%Z) (seq 0 (Z.to_nat (stop - start))).

Definition range_down (start stop : Z) : list Z :=
  map (fun k => (start - Z.of_nat k)%Z) (seq 0 (Z.to_nat (start - stop))).

(** Indexing with a possibly negative index into a sequence of length [n]. *)
Definition norm_index (n : nat) (i : Z) : result nat :=
  if ((0 <=? i) && (i <? Z.of_nat n))%Z then Ok (Z.to_nat i)
  else if ((- Z.of_nat n <=? i) && (i <? 0))%Z then Ok (Z.to_nat (i + Z.of_nat n))
  else Raise IndexError.

Definition getitem (l : list nat) (i : Z) : result nat :=
  k <- norm_index (length l) i ;; Ok (nth k l 0%nat).

(** The slices [l[:-n]] and [l[-n:]] for a count [n >= 0]; since [-0 = 0]
    they are [l[:0]] and [l[0:]] when [n = 0]. *)
Definition slice_to_neg {A : Type} (n : nat) (l : list A) : list A :=
  match n with
  | O => []
  | _ => firstn (length l - n) l
  end.

Definition slice_from_neg {A : Type} (n : nat) (l : list A) : list A :=
  match n with
  | O => l
  | _ => skipn (length l - n) l
  end.

(** True division [a / b]: by a float, and by an int. *)
Definition truediv (a b : R) : result R :=
  if Req_dec_T b 0 then Raise ZeroDivisionError else Ok (a / b)%R.

Definition truediv_int (a : R) (b : Z) : result R :=
  if (b =? 0)%Z then Raise ZeroDivisionError else Ok (a / IZR b)%R.

End Py.

Import Py.

(** ** Tensors *)

Module Torch.

Record tensor : Type := mkT { shape : list nat; data : list R }.

Definition prod (s : list nat) : nat := fold_right Nat.mul 1%nat s.

Definition numel (t : tensor) : nat := prod (shape t).

(** A tensor holds as many entries as its shape says. *)
Definition wf (t : tensor) : Prop := length (data t) = prod (shape t).

(** [idx] is an index into a tensor of shape [s]. *)
Definition in_range (s idx : list nat) : Prop := Forall2 lt idx s.

(** Row-major offset of a multi-index, and its inverse. *)
Fixpoint ravel (s idx : list nat) : nat :=
  match s, idx with
  | _ :: s', i :: idx' => i * prod s' + ravel s' idx'
  | _, _ => 0
  end.

Fixpoint unravel (s : list nat) (n : nat) : list nat :=
  match s with
  | [] => []
  | _ :: s' => n / prod s' :: unravel s' (n mod prod s')
  end.

(** [t[idx]] *)
Definition item (t : tensor) (idx : list nat) : R :=
  nth (ravel (shape t) idx) (data t) 0%R.

Definition tabulate (s : list nat) (f : list nat -> R) : tensor :=
  mkT s (map (fun n => f (unravel s n)) (seq 0 (prod s))).

(** Sum of [f 0 .. f (n-1)], and the sum of [f] over all multi-indices of a
    shape. *)
Fixpoint rsum (n : nat) (f : nat -> R) : R :=
  match n with
  | O => 0%R
  | S k => (rsum k f + f k)%R
  end.

Fixpoint msum (s : list nat) (f : list nat -> R) : R :=
  match s with
  | [] => f []
  | n :: s' => rsum n (fun k => msum s' (fun idx => f (k :: idx)))
  end.

Definition set_nth {A : Type} (k : nat) (v : A) (l : list A) : list A :=
  firstn k l ++ v :: skipn (S k) l.

Definition insert_nth {A : Type} (k : nat) (v : A) (l : list A) : list A :=
  firstn k l ++ v :: skipn k l.

Definition remove_nth {A : Type} (k : nat) (l : list A) : list A :=
  firstn k l ++ skipn (S k) l.

(** *** Broadcasting: shapes are aligned at their last axis; an axis of
    extent 1 is stretched. *)
Definition bdim (x y : nat) : result nat :=
  if x =? y then Ok x
  else if x =? 1 then Ok y
  else if y =? 1 then Ok x
  else Raise RuntimeError.

Definition pad (n : nat) (s : list nat) : list nat :=
  repeat 1%nat (n - length s) ++ s.

Fixpoint zip_bdim (a b : list nat) : result (list nat) :=
  match a, b with
  | x :: a', y :: b' => d <- bdim x y ;; r <- zip_bdim a' b' ;; Ok (d :: r)
  | _, _ => Ok []
  end.

Definition broadcast_shape (a b : list nat) : result (list nat) :=
  let n := Nat.max (length a) (length b) in
  zip_bdim (pad n a) (pad n b).

(** The index an operand of shape [s] is read at for index [idx] of the
    broadcast result. *)
Definition bproj (s idx : list nat) : list nat :=
  map (fun ni => if fst ni =? 1 then 0%nat else snd ni)
      (combine s (skipn (length idx - length s) idx)).

Definition map2b (f : R -> R -> R) (a b : tensor) : result tensor :=
  s <- broadcast_shape (shape a) (shape b) ;;
  Ok (tabulate s (fun idx =>
        f (item a (bproj (shape a) idx)) (item b (bproj (shape b) idx)))).

Definition mul : tensor -> tensor -> result tensor := map2b Rmult.
Definition sub : tensor -> tensor -> result tensor := map2b Rminus.
Definition add : tensor -> tensor -> result tensor := map2b Rplus.
Definition div : tensor -> tensor -> result tensor := map2b Rdiv.

(** Entrywise functions and operations with a Python number. *)
Definition tmap (f : R -> R) (t : tensor) : tensor :=
  mkT (shape t) (map f (data t)).

Definition pow2 : tensor -> tensor := tmap (fun x => (x ^ 2)%R).
Definition texp : tensor -> tensor := tmap exp.
Definition tlog : tensor -> tensor := tmap ln.
Definition mul_scalar (t : tensor) (k : R) : tensor := tmap (fun x => (x * k)%R) t.
Definition add_scalar (t : tensor) (k : R) : tensor := tmap (fun x => (x + k)%R) t.

(** [t.sum()] *)
Definition sum_all (t : tensor) : R := fold_right Rplus 0%R (data t).

(** [t.sum(d, keepdim)] *)
Definition sum_dim (t : tensor) (d : Z) (keepdim : bool) : result tensor :=
  k <- norm_index (length (shape t)) d ;;
  let n := nth k (shape t) 0%nat in
  Ok (if keepdim
      then tabulate (set_nth k 1%nat (shape t))
             (fun idx => rsum n (fun j => item t (set_nth k j idx)))
      else tabulate (remove_nth k (shape t))
             (fun idx => rsum n (fun j => item t (insert_nth k j idx)))).

(** [t.view(spec...)]: at most one entry of [spec] is [-1] and is inferred;
    the entries stay in place. *)
Definition view_shape (n : nat) (spec : list Z) : result (list nat) :=
  if existsb (fun z => (z <? -1)%Z) spec then Raise RuntimeError
  else
    let known := prod (map Z.to_nat (filter (fun z => negb (z =? -1)%Z) spec)) in
    match count_occ Z.eq_dec spec (-1)%Z with
    | O => if known =? n then Ok (map Z.to_nat spec) else Raise RuntimeError
    | S O =>
        if (known =? 0) || negb (n mod known =? 0) then Raise RuntimeError
        else Ok (map (fun z => if (z =? -1)%Z then n / known else Z.to_nat z) spec)
    | _ => Raise RuntimeError
    end.

Definition view (t : tensor) (spec : list Z) : result tensor :=
  s <- view_shape (numel t) spec ;; Ok (mkT s (data t)).

(** [t.unsqueeze(d)] *)
Definition unsqueeze (t : tensor) (d : Z) : result tensor :=
  k <- norm_index (S (length (shape t))) d ;;
  Ok (mkT (insert_nth k 1%nat (shape t)) (data t)).

Definition shape_eqb (a b : list nat) : bool :=
  if list_eq_dec Nat.eq_dec a b then true else false.

(** [torch.stack(ts, d)] *)
Definition stack (ts : list tensor) (d : Z) : result tensor :=
  match ts with
  | [] => Raise RuntimeError
  | t0 :: _ =>
      if forallb (fun t => shape_eqb (shape t) (shape t0)) ts then
        k <- norm_index (S (length (shape t0))) d ;;
        Ok (tabulate (insert_nth k (length ts) (shape t0))
              (fun idx => item (nth (nth k idx 0%nat) ts t0) (remove_nth k idx)))
      else Raise RuntimeError
  end.

(** [t.split(1, d)]: one slice of extent 1 per index along axis [d]. *)
Definition split1 (t : tensor) (d : Z) : result (list tensor) :=
  k <- norm_index (length (shape t)) d ;;
  Ok (map (fun j => tabulate (set_nth k 1%nat (shape t))
                      (fun idx => item t (set_nth k j idx)))
          (seq 0 (nth k (shape t) 0%nat))).

(** [torch.linspace(a, b, steps)]: [steps] points from [a] to [b], both
    included; a single point is [a]; a negative number of points is
    rejected. *)
Definition linspace (a b : R) (steps : Z) : result tensor :=
  if (steps <? 0)%Z then Raise RuntimeError
  else
    let n := Z.to_nat steps in
    Ok (mkT [n] (map (fun i => if n =? 1 then a
                               else (a + INR i * ((b - a) / INR (n - 1)))%R)
                     (seq 0 n))).

(** [torch.nn.functional.softmax] on a matrix, which is normalised along
    its rows; the row maximum is subtracted before exponentiating.  Only
    the 2-D case is modelled: [flat_softmax] calls it on nothing else. *)
Definition rmax_list (l : list R) : R :=
  match l with
  | [] => 0%R
  | x :: xs => fold_left Rmax xs x
  end.

Definition softmax (t : tensor) : result tensor :=
  match shape t with
  | [n; m] =>
      Ok (tabulate [n; m] (fun idx =>
            let r := nth 0 idx 0%nat in
            let row := map (fun j => item t [r; j]) (seq 0 m) in
            let mx := rmax_list row in
            (exp (item t idx - mx)
             / fold_right Rplus 0 (map (fun x => exp (x - mx)) row))%R))
  | _ => Raise RuntimeError
  end.

End Torch.

Import Torch.

(** ** The module [dsntnn] *)

(** [_type_as] changes the numeric type and device of a tensor, not its
    entries. *)
Definition _type_as (t : tensor) (other : tensor) : tensor := t.

Definition _normalized_linspace (length : Z) (type_as : tensor) : result tensor :=
  first <- truediv_int (IZR (- (length - 1))) length ;;
  last <- truediv_int (IZR (length - 1)) length ;;
  vec <- linspace first last length ;;
  Ok (_type_as vec type_as).

Definition _coord_expectation (heatmaps : tensor) (dim : Z) (ndims : nat)
  (transform : option (tensor -> result tensor)) : result tensor :=
  dim_size <- getitem (shape heatmaps) dim ;;
  own_coords <- _normalized_linspace (Z.of_nat dim_size) heatmaps ;;
  own_coords <- match transform with
                | Some f => f own_coords
                | None => Ok own_coords
                end ;;
  let first_dims := slice_to_neg ndims (shape heatmaps) in
  let hm_dims := slice_from_neg ndims (shape heatmaps) in
  summed <- view heatmaps ((-1)%Z :: map Z.of_nat hm_dims) ;;
  summed <- reduce_init
              (fun summed i => if (i =? dim)%Z then Ok summed
                               else sum_dim summed i true)
              (range (- Z.of_nat ndims) 0) summed ;;
  size0 <- getitem (shape summed) 0 ;;
  summed <- view summed [Z.of_nat size0; (-1)%Z] ;;
  last <- getitem (shape own_coords) (-1) ;;
  coords <- view own_coords [(-1)%Z; Z.of_nat last] ;;
  weighted <- mul summed coords ;;
  expectations <- sum_dim weighted (-1) false ;;
  if 0 <? length first_dims
  then view expectations (map Z.of_nat first_dims)
  else Ok expectations.

Definition _coord_variance (heatmaps : tensor) (dim : Z) (ndims : nat)
  : result tensor :=
  mu_x <- _coord_expectation heatmaps dim ndims None ;;
  _coord_expectation heatmaps dim ndims
    (Some (fun x => d <- sub x mu_x ;; Ok (pow2 d))).

Definition dsnt (heatmaps : tensor) (ndims : nat) : result tensor :=
  let dim_range := range_down (-1) (- (Z.of_nat ndims + 1)) in
  mus <- mapM (fun dim => _coord_expectation heatmaps dim ndims None) dim_range ;;
  stack mus (-1).

(** The result is a number: [losses.sum()] over a clamped denominator,
    [max(denom, 1)] for the integer [losses.numel()] and [denom.clamp(1)]
    for the tensor [mask.sum()]. *)
Definition average_loss (losses : tensor) (mask : option tensor) : result R :=
  match mask with
  | Some m =>
      losses <- mul losses m ;;
      let denom := Rmax (sum_all m) 1 in
      Ok (sum_all losses / denom)%R
  | None =>
      let denom := Z.max (Z.of_nat (numel losses)) 1 in
      Ok (sum_all losses / IZR denom)%R
  end.

Definition flat_softmax (inp : tensor) (ndims : nat) : result tensor :=
  let orig_size := shape inp in
  k <- reduce (fun a b => Ok (a * b)%nat) (slice_from_neg ndims orig_size) ;;
  flat <- view inp [(-1)%Z; Z.of_nat k] ;;
  flat <- softmax flat ;;
  view flat (map Z.of_nat orig_size).

(** [flat_softmax] once more, with tensors as objects that share storage,
    to state what the call writes: a tensor object is a storage and a
    shape, [view] returns an object on the storage of its argument, and
    [softmax] writes its result to a new storage. *)
Record tref : Type := mkRef { storage : nat; ref_shape : list nat }.

Definition heap : Type := list (list R).

Definition deref (m : heap) (r : tref) : tensor :=
  mkT (ref_shape r) (nth (storage r) m []).

Definition view_ref (r : tref) (spec : list Z) : result tref :=
  s <- view_shape (prod (ref_shape r)) spec ;; Ok (mkRef (storage r) s).

Definition softmax_ref (m : heap) (r : tref) : result (tref * heap) :=
  out <- softmax (deref m r) ;;
  Ok (mkRef (length m) (shape out), m ++ [data out]).

Definition flat_softmax_ref (m : heap) (inp : tref) (ndims : nat)
  : result (tref * heap) :=
  let orig_size := ref_shape inp in
  k <- reduce (fun a b => Ok (a * b)%nat) (slice_from_neg ndims orig_size) ;;
  flat <- view_ref inp [(-1)%Z; Z.of_nat k] ;;
  fm <- softmax_ref m flat ;;
  out <- view_ref (fst fm) (map Z.of_nat orig_size) ;;
  Ok (out, snd fm).

Definition eps24 : R := 1e-24.

Definition make_gauss (means : tensor) (size : list Z) (sigma : R) (normalize : bool)
  : result tensor :=
  let dim_range := range_down (-1) (- (Z.of_nat (length size) + 1)) in
  coords_list <- mapM (fun s => _normalized_linspace s means) (rev size) ;;
  mean_list <- split1 means (-1) ;;
  dists <- mapM (fun xm => d <- sub (fst xm) (snd xm) ;; Ok (pow2 d))
             (combine coords_list mean_list) ;;
  stddevs <- mapM (fun s => truediv_int (2 * sigma) s) (rev size) ;;
  ks <- mapM (fun stddev => q <- truediv 1 stddev ;; Ok (- 0.5 * q ^ 2)%R) stddevs ;;
  let exps := map (fun kd => texp (mul_scalar (snd kd) (fst kd))) (combine ks dists) in
  factors <- mapM (fun dd =>
                     reduce_init unsqueeze
                       (filter (fun d => negb (d =? fst dd)%Z) dim_range) (snd dd))
               (combine dim_range exps) ;;
  gauss <- reduce mul factors ;;
  if negb normalize then Ok gauss
  else
    s <- reduce_init (fun t dim => sum_dim t dim true) dim_range gauss ;;
    let val_sum := add_scalar s eps24 in
    div gauss val_sum.

Definition _kl (p q : tensor) (ndims : nat) (eps : R) : result tensor :=
  d <- sub (tlog (add_scalar p eps)) (tlog (add_scalar q eps)) ;;
  unsummed_kl <- mul p d ;;
  reduce_init (fun t _ => sum_dim t (-1) false) (range 0 (Z.of_nat ndims)) unsummed_kl.

Definition _js (p q : tensor) (ndims : nat) (eps : R) : result tensor :=
  pq <- add p q ;;
  let m := mul_scalar pq 0.5 in
  a <- _kl p m ndims eps ;;
  b <- _kl q m ndims eps ;;
  add (mul_scalar a 0.5) (mul_scalar b 0.5).

Definition kl_reg_losses (heatmaps mu_t : tensor) (sigma_t : R) : result tensor :=
  ndims <- getitem (shape mu_t) (-1) ;;
  gauss <- make_gauss mu_t
             (map Z.of_nat (slice_from_neg ndims (shape heatmaps))) sigma_t true ;;
  _kl heatmaps gauss ndims eps24.

Definition js_reg_losses (heatmaps mu_t : tensor) (sigma_t : R) : result tensor :=
  ndims <- getitem (shape mu_t) (-1) ;;
  gauss <- make_gauss mu_t
             (map Z.of_nat (slice_from_neg ndims (shape heatmaps))) sigma_t true ;;
  _js heatmaps gauss ndims eps24.

(** [t.sqrt()], a tensor divided by and lessened by a Python number, and
    [torch.Tensor(l)] for a list of numbers, a vector.  The module takes
    the square root of sums of squares only, where [sqrt] is the square
    root. *)
Definition tsqrt : tensor -> tensor := tmap sqrt.
Definition div_scalar (t : tensor) (k : R) : tensor := tmap (fun x => (x / k)%R) t.
Definition sub_scalar (t : tensor) (k : R) : tensor := tmap (fun x => (x - k)%R) t.
Definition tensor_of_list (l : list R) : tensor := mkT [length l] l.

Definition euclidean_losses (actual target : tensor) : result tensor :=
  diff <- sub actual target ;;
  dist_sq <- sum_dim (pow2 diff) (-1) false ;;
  let dist := tsqrt dist_sq in
  Ok dist.

Definition variance_reg_losses (heatmaps : tensor) (sigma_t : R) (ndims : nat)
  : result tensor :=
  vs <- mapM (fun d => _coord_variance heatmaps d ndims) (range (- Z.of_nat ndims) 0) ;;
  variance <- stack vs (-1) ;;
  let heatmap_size :=
    _type_as (tensor_of_list (map INR (slice_from_neg ndims (shape heatmaps)))) variance in
  actual_variance <- mul variance (pow2 (div_scalar heatmap_size 2)) ;;
  let target_variance := (sigma_t ^ 2)%R in
  let diff := sub_scalar actual_variance target_variance in
  let sq_error := pow2 diff in
  sum_dim sq_error (-1) false.

(** ** Vocabulary of the properties *)

(** The entrywise product [losses * mask] of two tensors of one shape. *)
Definition entrywise_product (a b : tensor) : tensor :=
  mkT (shape a) (map (fun xy => fst xy * snd xy)%R (combine (data a) (data b))).

(** Partial sums over a grid [gs]: the axes flagged in [red] are summed
    over, the others are read at [idx]. *)
Fixpoint psum (red : list bool) (gs idx : list nat) (f : list nat -> R) : R :=
  match red, gs, idx with
  | r :: red', n :: gs', i :: idx' =>
      if r then rsum n (fun k => psum red' gs' idx' (fun tl => f (k :: tl)))
      else psum red' gs' idx' (fun tl => f (i :: tl))
  | _, _, _ => f []
  end.

(** The shape left when the flagged axes are summed with [keepdim]. *)
Fixpoint rshape (red : list bool) (gs : list nat) : list nat :=
  match red, gs with
  | r :: red', n :: gs' => (if r then 1%nat else n) :: rshape red' gs'
  | _, _ => []
  end.

(** The invariant of a loop that sums axes of a tensor of shape
    [pre ++ gs] one at a time with [keepdim]: the axes flagged in [red]
    are summed already, [F p] is the grid under the leading index [p]. *)
Definition marg (pre : list nat) (red : list bool) (gs : list nat)
  (F : list nat -> list nat -> R) (t : tensor) : Prop :=
  shape t = pre ++ rshape red gs /\
  forall p idx, in_range pre p -> in_range (rshape red gs) idx ->
    item t (p ++ idx) = psum red gs idx (F p).

(** Flags of the axes [0 .. n-1] given by a predicate. *)
Definition flags (P : nat -> bool) (n : nat) : list bool := map P (seq 0 n).

(** Every axis but axis [d] of [n] flagged. *)
Definition all_but (d n : nat) : list bool :=
  repeat true d ++ false :: repeat true (n - S d).

(** The unit index with [j] at axis [d] of [n]. *)
Definition unit_idx (d n j : nat) : list nat :=
  repeat 0%nat d ++ j :: repeat 0%nat (n - S d).

(** The marginal of a grid [f] of shape [gs] along axis [d], at [j]: the
    sum of [f] over the cells whose coordinate on axis [d] is [j]. *)
Definition marginal (gs : list nat) (d : nat) (f : list nat -> R) (j : nat) : R :=
  msum (firstn d gs)
    (fun x1 => msum (skipn (S d) gs) (fun x2 => f (x1 ++ j :: x2))).

Fixpoint eqb_idx (a b : list nat) : bool :=
  match a, b with
  | [], [] => true
  | x :: a', y :: b' => (x =? y) && eqb_idx a' b'
  | _, _ => false
  end.

(** A per-sample result of heatmaps with batch shape [bs] has shape [bs],
    or [[1]] when there are no batch axes; [out_idx] is the index of
    sample [p] in it. *)
Definition out_shape (bs : list nat) : list nat :=
  match bs with
  | [] => [1%nat]
  | _ => bs
  end.

Definition out_idx (bs p : list nat) : list nat :=
  match bs with
  | [] => [0%nat]
  | _ => p
  end.

(** Heatmaps of shape [bs ++ gs] whose sample [p] has all its mass, 1, on
    the grid cell [cell p]. *)
Definition one_hot (bs gs : list nat) (h : tensor) (cell : list nat -> list nat) : Prop :=
  forall p, in_range bs p ->
    in_range gs (cell p) /\
    forall g, in_range gs g -> item h (p ++ g) = if eqb_idx g (cell p) then 1%R else 0%R.

(** Heatmaps of shape [bs ++ gs] whose samples are probability
    distributions over the grid. *)
Definition is_heatmap (bs gs : list nat) (h : tensor) : Prop :=
  forall p, in_range bs p ->
    (forall g, in_range gs g -> (0 <= item h (p ++ g))%R) /\
    msum gs (fun g => item h (p ++ g)) = 1%R.

(** Two one-hot heatmaps over a 1-D grid of two cells: the first has its
    mass on cell 1, the second on cell 0. *)
Definition swapped_pair : tensor := mkT [2%nat; 2%nat] [0; 1; 1; 0]%R.

Definition swapped_pair_cell (p : list nat) : list nat :=
  match p with
  | [O] => [1%nat]
  | _ => [0%nat]
  end.

(** [make_gauss] in two parts: the factors [ks], the only place where
    [sigma] enters, and what follows them ([make_gauss_parts] below). *)
Definition gauss_ks (sigma : R) (size : list Z) : result (list R) :=
  stddevs <- mapM (fun s => truediv_int (2 * sigma) s) (rev size) ;;
  mapM (fun stddev => q <- truediv 1 stddev ;; Ok (- 0.5 * q ^ 2)%R) stddevs.

Definition gauss_tail (dim_range : list Z) (dists : list tensor) (ks : list R)
  (normalize : bool) : result tensor :=
  let exps := map (fun kd => texp (mul_scalar (snd kd) (fst kd))) (combine ks dists) in
  factors <- mapM (fun dd =>
                     reduce_init unsqueeze
                       (filter (fun d => negb (d =? fst dd)%Z) dim_range) (snd dd))
               (combine dim_range exps) ;;
  gauss <- reduce mul factors ;;
  if negb normalize then Ok gauss
  else
    s <- reduce_init (fun t dim => sum_dim t dim true) dim_range gauss ;;
    let val_sum := add_scalar s eps24 in
    div gauss val_sum.

(** An index into the grid with the flagged axes set to 0: where a tensor
    of shape [rshape red gs] is read when it is broadcast to [gs]. *)
Fixpoint mask (red : list bool) (g : list nat) : list nat :=
  match red, g with
  | r :: red', i :: g' => (if r then 0%nat else i) :: mask red' g'
  | _, _ => []
  end.

(** Product of [f 0 .. f (n-1)]. *)
Fixpoint rprod (n : nat) (f : nat -> R) : R :=
  match n with
  | O => 1%R
  | S k => (rprod k f * f k)%R
  end.

(** A factor of the product of [make_gauss]: of extent 1 on every grid
    axis but [d], where its entries are those of [e]. *)
Definition gauss_factor (bs gs : list nat) (e : list nat -> nat -> R) (d : nat)
  (F : tensor) : Prop :=
  shape F = bs ++ rshape (all_but d (length gs)) gs /\
  forall p j, in_range bs p -> (j < nth d gs 0)%nat ->
    item F (p ++ unit_idx d (length gs) j) = e p j.

(** The product of the factors [0 .. k], which fills the last [k + 1]
    grid axes. *)
Definition gauss_partial (bs gs : list nat) (e : nat -> list nat -> nat -> R)
  (k : nat) (P : tensor) : Prop :=
  shape P = bs ++ rshape (flags (fun a => a <? length gs - 1 - k) (length gs)) gs /\
  forall p g, in_range bs p -> in_range gs g ->
    item P (p ++ mask (flags (fun a => a <? length gs - 1 - k) (length gs)) g)
    = rprod (S k) (fun i => e i p (nth (length gs - 1 - i) g 0%nat)).

(** The coordinate of cell [j] on an axis of [L] cells, the factor of the
    exponent on such an axis, and the unnormalized Gaussian density of
    sample [p] at grid cell [g]: component [k] of the mean belongs to grid
    axis [ndims - 1 - k]. *)
Definition cell_coord (L j : nat) : R :=
  (- (INR L - 1) / INR L + INR j * 2 / INR L)%R.

Definition gauss_k (sigma : R) (L : nat) : R :=
  (- 0.5 * (1 / (2 * sigma / INR L)) ^ 2)%R.

Definition gauss_term (means : tensor) (sigma : R) (gs p g : list nat) (k : nat) : R :=
  let d := (length gs - 1 - k)%nat in
  exp ((cell_coord (nth d gs 0%nat) (nth d g 0%nat) - item means (p ++ [k])) ^ 2
       * gauss_k sigma (nth d gs 0%nat)).

Definition gauss_density (means : tensor) (sigma : R) (gs p g : list nat) : R :=
  rprod (length gs) (gauss_term means sigma gs p g).

(** The normalized Gaussian of sample [p] at grid cell [g]: the density
    over its sum over the grid plus [1e-24]. *)
Definition gauss_normalized (means : tensor) (sigma : R) (gs p g : list nat) : R :=
  (gauss_density means sigma gs p g
   / (msum gs (gauss_density means sigma gs p) + eps24))%R.

(** The expectation of a function [c] of the position on grid axis [d]
    under the weights [f] of a grid of shape [gs]; the expectation and the
    variance of the normalized coordinate of that axis. *)
Definition expect (gs : list nat) (d : nat) (f : list nat -> R) (c : nat -> R) : R :=
  msum gs (fun g => f g * c (nth d g 0%nat))%R.

(** [t[..., :n]] for a tensor of shape [bs ++ [m]]: its first [n] entries
    along the last axis. *)
Definition narrow_last (bs : list nat) (n : nat) (t : tensor) : tensor :=
  tabulate (bs ++ [n]) (fun idx => item t idx).

(** The grid index mirrored on every axis. *)
Fixpoint flip (gs g : list nat) : list nat :=
  match gs, g with
  | n :: gs', i :: g' => (n - 1 - i)%nat :: flip gs' g'
  | _, _ => []
  end.

(** The normalized axis of [L] cells as a tensor. *)
Definition normalized_axis (L : nat) : tensor := mkT [L] (map (cell_coord L) (seq 0 L)).

Definition coord_mean (gs : list nat) (d : nat) (f : list nat -> R) : R :=
  expect gs d f (cell_coord (nth d gs 0%nat)).

Definition coord_var (gs : list nat) (d : nat) (f : list nat -> R) : R :=
  expect gs d f (fun j => (cell_coord (nth d gs 0%nat) j - coord_mean gs d f) ^ 2)%R.

(** * Properties *)

Local Open Scope R_scope.

(** ** Indices and offsets *)

Lemma prod_app (a b : list nat) : prod (a ++ b) = (prod a * prod b)%nat.
Proof.
  induction a as [|x a IH]; simpl.
  - lia.
  - rewrite IH. lia.
Qed.

Lemma in_range_length (s idx : list nat) :
  in_range s idx -> length idx = length s.
Proof. intros H. induction H; simpl; congruence. Qed.

Lemma in_range_nil : in_range [] [].
Proof. constructor. Qed.

Lemma in_range_cons (n : nat) (s : list nat) (i : nat) (idx : list nat) :
  in_range (n :: s) (i :: idx) <-> (i < n)%nat /\ in_range s idx.
Proof.
  split.
  - intros H. inversion H; subst. auto.
  - intros [H1 H2]. constructor; assumption.
Qed.

Lemma in_range_app (s1 s2 i1 i2 : list nat) :
  in_range s1 i1 -> in_range s2 i2 -> in_range (s1 ++ s2) (i1 ++ i2).
Proof. intros H1 H2. apply Forall2_app; assumption. Qed.

Lemma in_range_app_inv (s1 s2 i1 i2 : list nat) :
  length i1 = length s1 ->
  in_range (s1 ++ s2) (i1 ++ i2) -> in_range s1 i1 /\ in_range s2 i2.
Proof.
  revert i1. induction s1 as [|n s1 IH]; intros [|i i1] Hl H; simpl in *; try discriminate.
  - split; [constructor | assumption].
  - apply in_range_cons in H. destruct H as [Hi H].
    destruct (IH i1) as [A B]; [lia | assumption |].
    split; [constructor; assumption | assumption].
Qed.

Lemma in_range_prod_pos (s idx : list nat) :
  in_range s idx -> (0 < prod s)%nat.
Proof.
  intros H. induction H; simpl.
  - lia.
  - nia.
Qed.

Lemma ravel_lt (s idx : list nat) :
  in_range s idx -> (ravel s idx < prod s)%nat.
Proof.
  intros H. induction H as [|i n idx s Hi H IH]; simpl.
  - lia.
  - nia.
Qed.

Lemma unravel_ravel (s idx : list nat) :
  in_range s idx -> unravel s (ravel s idx) = idx.
Proof.
  intros H. induction H as [|i n idx s Hi H IH]; simpl.
  - reflexivity.
  - pose proof (ravel_lt s idx H) as Hlt.
    assert (Hp : prod s <> 0%nat) by lia.
    rewrite Nat.div_add_l by assumption.
    rewrite (Nat.div_small (ravel s idx)) by assumption.
    rewrite Nat.add_0_r. f_equal.
    rewrite Nat.add_comm, Nat.Div0.mod_add.
    rewrite Nat.mod_small by assumption. exact IH.
Qed.

Lemma ravel_unravel (s : list nat) (n : nat) :
  (n < prod s)%nat -> ravel s (unravel s n) = n.
Proof.
  revert n. induction s as [|a s IH]; intros n Hn; simpl in *.
  - lia.
  - assert (Hp : prod s <> 0%nat) by nia.
    rewrite IH by (apply Nat.mod_upper_bound; assumption).
    pose proof (Nat.div_mod_eq n (prod s)). lia.
Qed.

Lemma unravel_in_range (s : list nat) (n : nat) :
  (n < prod s)%nat -> in_range s (unravel s n).
Proof.
  revert n. induction s as [|a s IH]; intros n Hn; simpl in *.
  - constructor.
  - assert (Hp : prod s <> 0%nat) by nia.
    constructor.
    + apply Nat.Div0.div_lt_upper_bound. lia.
    + apply IH. apply Nat.mod_upper_bound. assumption.
Qed.

Lemma ravel_app (s1 s2 i1 i2 : list nat) :
  length i1 = length s1 ->
  ravel (s1 ++ s2) (i1 ++ i2) = (ravel s1 i1 * prod s2 + ravel s2 i2)%nat.
Proof.
  revert i1. induction s1 as [|n s1 IH]; intros [|i i1] Hl; simpl in *; try discriminate.
  - reflexivity.
  - rewrite IH by lia. rewrite prod_app. lia.
Qed.

(** ** Reading a tabulated tensor *)

Lemma wf_tabulate (s : list nat) (f : list nat -> R) : wf (tabulate s f).
Proof. unfold wf, tabulate; simpl. rewrite length_map, length_seq. reflexivity. Qed.

Lemma shape_tabulate (s : list nat) (f : list nat -> R) : shape (tabulate s f) = s.
Proof. reflexivity. Qed.

Lemma nth_map_seq (n k : nat) (g : nat -> R) :
  (k < n)%nat -> nth k (map g (seq 0 n)) 0 = g k.
Proof.
  intros Hk.
  rewrite (nth_indep _ 0 (g 0%nat)) by (rewrite length_map, length_seq; assumption).
  rewrite map_nth, seq_nth by assumption. reflexivity.
Qed.

Lemma item_tabulate (s idx : list nat) (f : list nat -> R) :
  in_range s idx -> item (tabulate s f) idx = f idx.
Proof.
  intros H. unfold item, tabulate; simpl.
  rewrite nth_map_seq by (apply ravel_lt; assumption).
  rewrite unravel_ravel by assumption. reflexivity.
Qed.

Lemma nth_ext_R (l1 l2 : list R) :
  length l1 = length l2 ->
  (forall n, (n < length l1)%nat -> nth n l1 0 = nth n l2 0) -> l1 = l2.
Proof.
  revert l2. induction l1 as [|x l1 IH]; intros [|y l2] Hl H; simpl in *; try discriminate.
  - reflexivity.
  - f_equal.
    + apply (H 0%nat). lia.
    + apply IH; [lia |]. intros n Hn. apply (H (S n)). lia.
Qed.

Lemma tensor_ext (a b : tensor) :
  wf a -> wf b -> shape a = shape b ->
  (forall idx, in_range (shape a) idx -> item a idx = item b idx) -> a = b.
Proof.
  destruct a as [sa da], b as [sb db]. unfold wf, item; simpl.
  intros Ha Hb Hs H. subst sb. f_equal.
  apply nth_ext_R; [congruence |].
  intros n Hn. rewrite Ha in Hn.
  specialize (H (unravel sa n) (unravel_in_range sa n Hn)).
  rewrite ravel_unravel in H by assumption. exact H.
Qed.

(** ** The normalized coordinate axis *)

Lemma truediv_int_ok (a : R) (b : Z) :
  b <> 0%Z -> truediv_int a b = Ok (a / IZR b).
Proof.
  intros Hb. unfold truediv_int.
  destruct (Z.eqb_spec b 0); [contradiction | reflexivity].
Qed.

Lemma truediv_int_zero (a : R) : truediv_int a 0 = Raise ZeroDivisionError.
Proof. reflexivity. Qed.

(** The entries of the axis of a given length, as the source computes them. *)
Lemma normalized_linspace_ok (length : Z) (type_as : tensor) :
  (1 <= length)%Z ->
  _normalized_linspace length type_as =
  Ok (mkT [Z.to_nat length]
        (map (fun i => if Z.to_nat length =? 1 then IZR (- (length - 1)) / IZR length
                       else IZR (- (length - 1)) / IZR length
                            + INR i * ((IZR (length - 1) / IZR length
                                        - IZR (- (length - 1)) / IZR length)
                                       / INR (Z.to_nat length - 1)))
             (seq 0 (Z.to_nat length)))).
Proof.
  intros H. unfold _normalized_linspace, _type_as.
  rewrite !truediv_int_ok by lia. simpl. unfold linspace.
  destruct (Z.ltb_spec length 0); [lia | reflexivity].
Qed.

Lemma normalized_linspace_item (length : Z) (type_as vec : tensor) (i : nat) :
  (1 <= length)%Z -> _normalized_linspace length type_as = Ok vec ->
  (i < Z.to_nat length)%nat ->
  item vec [i] = - (IZR length - 1) / IZR length + INR i * 2 / IZR length.
Proof.
  intros H Hv Hi. rewrite normalized_linspace_ok in Hv by assumption.
  injection Hv as <-. unfold item; simpl.
  rewrite Nat.mul_1_r, Nat.add_0_r.
  rewrite nth_map_seq by assumption.
  assert (Hl : 0 < IZR length) by (apply IZR_lt; lia).
  rewrite opp_IZR, minus_IZR.
  destruct (Nat.eqb_spec (Z.to_nat length) 1) as [E|E].
  - assert (length = 1%Z) by lia. subst length.
    assert (i = 0%nat) by (simpl in Hi; lia). subst i. simpl. field.
  - assert (Hn : INR (Z.to_nat length - 1) = IZR length - 1).
    { rewrite minus_INR by lia. rewrite INR_IZR_INZ, Z2Nat.id by lia. simpl. reflexivity. }
    rewrite Hn.
    assert (IZR length - 1 <> 0).
    { intros C. assert (IZR length = 1) by lra.
      apply eq_IZR in H0. lia. }
    field. split; lra.
Qed.

(** The axis exists for every length of at least 1. *)
Lemma normalized_linspace_shape (length : Z) (type_as : tensor) :
  (1 <= length)%Z ->
  exists vec, _normalized_linspace length type_as = Ok vec /\
    shape vec = [Z.to_nat length].
Proof.
  intros H. eexists. split; [apply normalized_linspace_ok; assumption | reflexivity].
Qed.

(** C5: for every [length >= 1] the axis has [length] entries, entry [i] is
    [-(length-1)/length + i*2/length]; the axis is symmetric about 0,
    strictly increasing, starts at [-(length-1)/length], ends at
    [(length-1)/length], and every entry is strictly between -1 and 1. *)
Theorem normalized_linspace_axis (length : Z) (type_as : tensor) :
  (1 <= length)%Z ->
  exists vec,
    _normalized_linspace length type_as = Ok vec /\
    shape vec = [Z.to_nat length] /\ wf vec /\
    (forall i, (i < Z.to_nat length)%nat ->
       item vec [i] = - (IZR length - 1) / IZR length + INR i * 2 / IZR length) /\
    (forall i, (i < Z.to_nat length)%nat ->
       item vec [i] = - item vec [(Z.to_nat length - 1 - i)%nat]) /\
    (forall i j, (i < j)%nat -> (j < Z.to_nat length)%nat ->
       item vec [i] < item vec [j]) /\
    item vec [0%nat] = - (IZR length - 1) / IZR length /\
    item vec [(Z.to_nat length - 1)%nat] = (IZR length - 1) / IZR length /\
    (forall i, (i < Z.to_nat length)%nat -> -1 < item vec [i] < 1).
Proof.
  intros H.
  pose proof (normalized_linspace_ok length type_as H) as Hv.
  eexists. split; [exact Hv |].
  set (vec := mkT _ _) in *.
  assert (Hitem := fun i => normalized_linspace_item length type_as vec i H Hv).
  assert (Hl : 1 <= IZR length) by (apply IZR_le; lia).
  assert (Hn : INR (Z.to_nat length) = IZR length).
  { rewrite INR_IZR_INZ, Z2Nat.id by lia. reflexivity. }
  split; [reflexivity |].
  split; [unfold wf, vec; simpl; rewrite length_map, length_seq; lia |].
  split; [exact Hitem |].
  split.
  { intros i Hi. rewrite !Hitem by lia.
    rewrite !minus_INR by lia. rewrite Hn. simpl. field. lra. }
  split.
  { intros i j Hij Hj. rewrite !Hitem by lia.
    apply lt_INR in Hij.
    unfold Rdiv. apply Rplus_lt_compat_l.
    apply Rmult_lt_compat_r; [apply Rinv_0_lt_compat; lra | lra]. }
  split.
  { rewrite Hitem by lia. simpl. field. lra. }
  split.
  { rewrite Hitem by lia. rewrite minus_INR by lia. rewrite Hn. simpl. field. lra. }
  intros i Hi. rewrite Hitem by assumption.
  assert (Hi0 : 0 <= INR i) by apply pos_INR.
  assert (Hi1 : INR i <= IZR length - 1).
  { rewrite <- Hn. replace (INR (Z.to_nat length) - 1) with (INR (Z.to_nat length - 1)).
    - apply le_INR. lia.
    - rewrite minus_INR by lia. reflexivity. }
  assert (Hinv : 0 < / IZR length) by (apply Rinv_0_lt_compat; lra).
  assert (E : - (IZR length - 1) / IZR length + INR i * 2 / IZR length
              = (2 * INR i + 1 - IZR length) * / IZR length) by (field; lra).
  rewrite E.
  assert (E1 : 1 = IZR length * / IZR length) by (field; lra).
  split.
  - replace (-1) with (- IZR length * / IZR length) by (field; lra).
    apply Rmult_lt_compat_r; [assumption | lra].
  - apply Rlt_le_trans with (IZR length * / IZR length).
    + apply Rmult_lt_compat_r; [assumption | lra].
    + rewrite <- E1. lra.
Qed.

Lemma normalized_linspace_axis_witness :
  (1 <= 4)%Z /\
  exists vec,
    _normalized_linspace 4 (mkT [] [0]) = Ok vec /\
    shape vec = [Z.to_nat 4] /\ wf vec /\
    (forall i, (i < Z.to_nat 4)%nat ->
       item vec [i] = - (IZR 4 - 1) / IZR 4 + INR i * 2 / IZR 4) /\
    (forall i, (i < Z.to_nat 4)%nat ->
       item vec [i] = - item vec [(Z.to_nat 4 - 1 - i)%nat]) /\
    (forall i j, (i < j)%nat -> (j < Z.to_nat 4)%nat ->
       item vec [i] < item vec [j]) /\
    item vec [0%nat] = - (IZR 4 - 1) / IZR 4 /\
    item vec [(Z.to_nat 4 - 1)%nat] = (IZR 4 - 1) / IZR 4 /\
    (forall i, (i < Z.to_nat 4)%nat -> -1 < item vec [i] < 1).
Proof.
  split; [lia | apply (normalized_linspace_axis 4 (mkT [] [0])); lia].
Defined.

(** ** Broadcasting two tensors of one shape *)

Lemma pad_self (s : list nat) : pad (length s) s = s.
Proof. unfold pad. rewrite Nat.sub_diag. reflexivity. Qed.

Lemma bdim_same (x : nat) : bdim x x = Ok x.
Proof. unfold bdim. rewrite Nat.eqb_refl. reflexivity. Qed.

Lemma zip_bdim_same (s : list nat) : zip_bdim s s = Ok s.
Proof.
  induction s as [|x s IH]; simpl.
  - reflexivity.
  - rewrite bdim_same. simpl. rewrite IH. reflexivity.
Qed.

Lemma broadcast_shape_same (s : list nat) : broadcast_shape s s = Ok s.
Proof.
  unfold broadcast_shape. rewrite Nat.max_id, pad_self. apply zip_bdim_same.
Qed.

Lemma bproj_same (s idx : list nat) : in_range s idx -> bproj s idx = idx.
Proof.
  intros H. unfold bproj. rewrite (in_range_length _ _ H), Nat.sub_diag. simpl.
  induction H as [|i n idx s Hi H IH]; simpl.
  - reflexivity.
  - rewrite IH. destruct (Nat.eqb_spec n 1); [f_equal; lia | reflexivity].
Qed.

Lemma map2b_same_shape (f : R -> R -> R) (a b : tensor) :
  shape b = shape a ->
  exists c, map2b f a b = Ok c /\ shape c = shape a /\ wf c /\
    forall idx, in_range (shape a) idx -> item c idx = f (item a idx) (item b idx).
Proof.
  intros Hs. unfold map2b. rewrite Hs, broadcast_shape_same. simpl.
  eexists. split; [reflexivity |].
  split; [reflexivity |]. split; [apply wf_tabulate |].
  intros idx Hi. rewrite item_tabulate by assumption.
  rewrite bproj_same by assumption. reflexivity.
Qed.

(** ** Sums of all entries *)

Lemma sum_all_repeat (x : R) (n : nat) (s : list nat) :
  sum_all (mkT s (repeat x n)) = INR n * x.
Proof.
  unfold sum_all; simpl. induction n as [|n IH].
  - simpl. lra.
  - rewrite S_INR. simpl. rewrite IH. lra.
Qed.

Lemma data_ext (a b : tensor) :
  wf a -> wf b -> shape a = shape b ->
  (forall idx, in_range (shape a) idx -> item a idx = item b idx) ->
  data a = data b.
Proof. intros Ha Hb Hs H. rewrite (tensor_ext a b Ha Hb Hs H). reflexivity. Qed.

Lemma item_repeat (s idx : list nat) (x : R) :
  in_range s idx -> item (mkT s (repeat x (prod s))) idx = x.
Proof.
  intros H. unfold item; simpl.
  apply nth_repeat_lt. apply ravel_lt. assumption.
Qed.

Lemma nth_combine_mult (l1 l2 : list R) (n : nat) :
  length l1 = length l2 -> (n < length l1)%nat ->
  nth n (map (fun xy => fst xy * snd xy) (combine l1 l2)) 0 = nth n l1 0 * nth n l2 0.
Proof.
  revert l2 n. induction l1 as [|x l1 IH]; intros [|y l2] n Hl Hn; simpl in *;
    try discriminate; try lia.
  destruct n as [|n]; [reflexivity |]. apply IH; lia.
Qed.

Lemma mul_same_shape (a b : tensor) :
  wf a -> wf b -> shape b = shape a -> mul a b = Ok (entrywise_product a b).
Proof.
  intros Ha Hb Hs.
  destruct (map2b_same_shape Rmult a b Hs) as (c & Hc & Hsc & Hwc & Hitem).
  unfold mul. rewrite Hc. f_equal.
  apply tensor_ext; try assumption.
  - unfold wf, entrywise_product; simpl.
    rewrite length_map, length_combine. unfold wf in Ha, Hb. rewrite Hs in Hb. lia.
  - intros idx Hi. rewrite Hsc in Hi. rewrite Hitem by assumption.
    unfold item, entrywise_product; simpl. rewrite Hs.
    symmetry. apply nth_combine_mult.
    + unfold wf in Ha, Hb. rewrite Hs in Hb. lia.
    + rewrite Ha. apply ravel_lt. assumption.
Qed.

Lemma sum_product_ones (l : list R) :
  fold_right Rplus 0 (map (fun xy => fst xy * snd xy) (combine l (repeat 1 (length l))))
  = fold_right Rplus 0 l.
Proof. induction l as [|x l IH]; simpl; [reflexivity | rewrite IH; lra]. Qed.

Lemma sum_product_zeros (l : list R) :
  fold_right Rplus 0 (map (fun xy => fst xy * snd xy) (combine l (repeat 0 (length l))))
  = 0.
Proof. induction l as [|x l IH]; simpl; [reflexivity | rewrite IH; lra]. Qed.

(** C7: with a mask of the shape of the losses, [average_loss] is the sum of
    the entrywise product over [max(sum(mask), 1)]; without a mask it is the
    sum over the number of entries (over 1 for a tensor without entries,
    whose sum is 0); a mask of ones gives the unmasked mean and a mask of
    zeros gives 0. *)
Theorem average_loss_spec (losses : tensor) :
  wf losses ->
  (forall mask, wf mask -> shape mask = shape losses ->
     average_loss losses (Some mask)
     = Ok (sum_all (entrywise_product losses mask) / Rmax (sum_all mask) 1)) /\
  ((1 <= numel losses)%nat ->
     average_loss losses None = Ok (sum_all losses / INR (numel losses))) /\
  (numel losses = 0%nat -> average_loss losses None = Ok 0) /\
  (forall mask, shape mask = shape losses ->
     data mask = repeat 1 (numel losses) ->
     average_loss losses (Some mask) = average_loss losses None) /\
  (forall mask, shape mask = shape losses ->
     data mask = repeat 0 (numel losses) ->
     average_loss losses (Some mask) = Ok 0).
Proof.
  intros Hw.
  assert (Hmask : forall mask, wf mask -> shape mask = shape losses ->
     average_loss losses (Some mask)
     = Ok (sum_all (entrywise_product losses mask) / Rmax (sum_all mask) 1)).
  { intros mask Hm Hs. unfold average_loss.
    rewrite mul_same_shape by assumption. reflexivity. }
  split; [exact Hmask |].
  split.
  { intros Hn. unfold average_loss. rewrite Z.max_l by lia.
    rewrite <- INR_IZR_INZ. reflexivity. }
  split.
  { intros Hn. unfold average_loss. rewrite Hn. simpl.
    unfold wf in Hw. fold (numel losses) in Hw. rewrite Hn in Hw.
    unfold sum_all. destruct (data losses); [simpl; f_equal; lra | discriminate]. }
  split.
  - intros mask Hs Hd.
    assert (Hm : wf mask).
    { unfold wf. rewrite Hd, repeat_length, Hs. reflexivity. }
    rewrite Hmask by assumption.
    unfold average_loss. f_equal.
    unfold sum_all at 1, entrywise_product; simpl. rewrite Hd.
    unfold numel. rewrite <- Hw, sum_product_ones. fold (sum_all losses).
    destruct mask as [sm dm]; simpl in *. subst dm.
    rewrite sum_all_repeat, Rmult_1_r. unfold numel. rewrite Hw.
    f_equal.
    destruct (prod (shape losses)) as [|n].
    + simpl. rewrite Rmax_right by lra. reflexivity.
    + rewrite Z.max_l by lia. rewrite <- INR_IZR_INZ.
      rewrite Rmax_left; [reflexivity |].
      rewrite S_INR. pose proof (pos_INR n). lra.
  - intros mask Hs Hd.
    assert (Hm : wf mask).
    { unfold wf. rewrite Hd, repeat_length, Hs. reflexivity. }
    rewrite Hmask by assumption. f_equal.
    unfold sum_all at 1, entrywise_product; simpl. rewrite Hd.
    unfold numel. rewrite <- Hw, sum_product_zeros. lra.
Qed.

Lemma average_loss_spec_witness :
  wf (mkT [2%nat] [3; 5]) /\
  average_loss (mkT [2%nat] [3; 5]) None
  = Ok (sum_all (mkT [2%nat] [3; 5]) / INR (numel (mkT [2%nat] [3; 5]))).
Proof.
  split; [reflexivity |].
  destruct (average_loss_spec (mkT [2%nat] [3; 5])) as (_ & H & _);
    [reflexivity | apply H; unfold numel; simpl; lia].
Defined.

(** ** Finite sums *)

Lemma rsum_ext (n : nat) (f g : nat -> R) :
  (forall k, (k < n)%nat -> f k = g k) -> rsum n f = rsum n g.
Proof.
  induction n as [|n IH]; intros H; simpl.
  - reflexivity.
  - rewrite IH by (intros k Hk; apply H; lia). rewrite (H n) by lia. reflexivity.
Qed.

Lemma rsum_zero (n : nat) : rsum n (fun _ => 0) = 0.
Proof. induction n as [|n IH]; simpl; [reflexivity | rewrite IH; lra]. Qed.

Lemma rsum_plus (n : nat) (f g : nat -> R) :
  rsum n (fun k => f k + g k) = rsum n f + rsum n g.
Proof. induction n as [|n IH]; simpl; [lra | rewrite IH; lra]. Qed.

Lemma rsum_scale_r (n : nat) (f : nat -> R) (c : R) :
  rsum n (fun k => f k * c) = rsum n f * c.
Proof. induction n as [|n IH]; simpl; [lra | rewrite IH; lra]. Qed.

Lemma rsum_swap (n m : nat) (f : nat -> nat -> R) :
  rsum n (fun i => rsum m (fun j => f i j)) = rsum m (fun j => rsum n (fun i => f i j)).
Proof.
  induction n as [|n IH]; simpl.
  - rewrite rsum_zero. reflexivity.
  - rewrite rsum_plus, IH. reflexivity.
Qed.

Lemma rsum_delta (n c : nat) (x : nat -> R) :
  (c < n)%nat -> rsum n (fun k => if k =? c then x k else 0) = x c.
Proof.
  induction n as [|n IH]; intros Hc; simpl.
  - lia.
  - destruct (Nat.eqb_spec n c) as [E|E].
    + subst c. rewrite (rsum_ext n _ (fun _ => 0)).
      * rewrite rsum_zero. lra.
      * intros k Hk. destruct (Nat.eqb_spec k n); [lia | reflexivity].
    + rewrite IH by lia. lra.
Qed.

Lemma rsum_nonneg (n : nat) (f : nat -> R) :
  (forall k, (k < n)%nat -> 0 <= f k) -> 0 <= rsum n f.
Proof.
  induction n as [|n IH]; intros H; simpl.
  - lra.
  - assert (0 <= rsum n f) by (apply IH; intros k Hk; apply H; lia).
    assert (0 <= f n) by (apply H; lia). lra.
Qed.

Lemma rsum_le (n : nat) (f g : nat -> R) :
  (forall k, (k < n)%nat -> f k <= g k) -> rsum n f <= rsum n g.
Proof.
  induction n as [|n IH]; intros H; simpl.
  - lra.
  - assert (rsum n f <= rsum n g) by (apply IH; intros k Hk; apply H; lia).
    assert (f n <= g n) by (apply H; lia). lra.
Qed.

Lemma rsum_pos (n : nat) (f : nat -> R) :
  (0 < n)%nat -> (forall k, (k < n)%nat -> 0 < f k) -> 0 < rsum n f.
Proof.
  intros Hn H. destruct n as [|n]; [lia |]. simpl.
  assert (0 <= rsum n f).
  { apply rsum_nonneg. intros k Hk. apply Rlt_le, H. lia. }
  assert (0 < f n) by (apply H; lia). lra.
Qed.

Lemma msum_ext (s : list nat) (f g : list nat -> R) :
  (forall idx, in_range s idx -> f idx = g idx) -> msum s f = msum s g.
Proof.
  revert f g. induction s as [|n s IH]; intros f g H; simpl.
  - apply H. constructor.
  - apply rsum_ext. intros k Hk. apply IH.
    intros idx Hi. apply H. constructor; assumption.
Qed.

(** ** Updating a list at a position *)

Lemma set_nth_0 {A : Type} (v x : A) (l : list A) : set_nth 0 v (x :: l) = v :: l.
Proof. reflexivity. Qed.

Lemma set_nth_S {A : Type} (a : nat) (v x : A) (l : list A) :
  set_nth (S a) v (x :: l) = x :: set_nth a v l.
Proof. reflexivity. Qed.

Lemma set_nth_length {A : Type} (a : nat) (v : A) (l : list A) :
  (a < length l)%nat -> length (set_nth a v l) = length l.
Proof.
  revert a. induction l as [|x l IH]; intros a Ha; simpl in *; [lia |].
  destruct a as [|a]; [reflexivity |]. rewrite set_nth_S. simpl. rewrite IH by lia. reflexivity.
Qed.

Lemma set_nth_app_r {A : Type} (a : nat) (v : A) (l1 l2 : list A) :
  set_nth (length l1 + a) v (l1 ++ l2) = l1 ++ set_nth a v l2.
Proof.
  induction l1 as [|x l1 IH]; simpl.
  - reflexivity.
  - rewrite set_nth_S, IH. reflexivity.
Qed.

Lemma nth_set_nth_same {A : Type} (a : nat) (v d : A) (l : list A) :
  (a < length l)%nat -> nth a (set_nth a v l) d = v.
Proof.
  revert a. induction l as [|x l IH]; intros a Ha; simpl in *; [lia |].
  destruct a as [|a]; [reflexivity |]. rewrite set_nth_S. simpl. apply IH. lia.
Qed.

Lemma nth_set_nth_other {A : Type} (a b : nat) (v d : A) (l : list A) :
  a <> b -> (a < length l)%nat -> nth b (set_nth a v l) d = nth b l d.
Proof.
  revert a b. induction l as [|x l IH]; intros a b Hab Ha; simpl in *; [lia |].
  destruct a as [|a].
  - destruct b as [|b]; [contradiction | reflexivity].
  - rewrite set_nth_S. destruct b as [|b]; [reflexivity |]. simpl. apply IH; lia.
Qed.

Lemma in_range_set_nth (s idx : list nat) (a n j : nat) :
  in_range (set_nth a n s) idx -> (a < length s)%nat -> (j < nth a s 0)%nat ->
  in_range s (set_nth a j idx).
Proof.
  revert idx a. induction s as [|m s IH]; intros idx a H Ha Hj; simpl in *; [lia |].
  destruct a as [|a].
  - rewrite set_nth_0 in H. inversion H; subst. rewrite set_nth_0.
    constructor; assumption.
  - rewrite set_nth_S in H. inversion H; subst. rewrite set_nth_S.
    constructor; [assumption |]. apply IH; [assumption | lia | assumption].
Qed.

Lemma in_range_set_nth_to (s idx : list nat) (a n j : nat) :
  in_range s idx -> (j < n)%nat -> in_range (set_nth a n s) (set_nth a j idx).
Proof.
  intros H. revert a. induction H as [|i m idx s Hi H IH]; intros a Hj.
  - unfold set_nth. rewrite !firstn_nil, !skipn_nil. simpl.
    constructor; [assumption | constructor].
  - destruct a as [|a].
    + rewrite !set_nth_0. constructor; assumption.
    + rewrite !set_nth_S. constructor; [assumption | apply IH; assumption].
Qed.

(** ** Partial sums over a grid *)

Lemma rshape_length (red : list bool) (gs : list nat) :
  length red = length gs -> length (rshape red gs) = length gs.
Proof.
  revert gs. induction red as [|r red IH]; intros [|n gs] H; simpl in *; try discriminate.
  - reflexivity.
  - rewrite IH by lia. reflexivity.
Qed.

Lemma rshape_set (red : list bool) (gs : list nat) (a : nat) :
  length red = length gs -> (a < length gs)%nat ->
  rshape (set_nth a true red) gs = set_nth a 1%nat (rshape red gs).
Proof.
  revert gs a. induction red as [|r red IH]; intros [|n gs] a H Ha; simpl in *;
    try discriminate; try lia.
  destruct a as [|a].
  - reflexivity.
  - rewrite !set_nth_S. simpl. rewrite IH by lia. reflexivity.
Qed.

Lemma rshape_nth_unflagged (red : list bool) (gs : list nat) (a : nat) :
  length red = length gs -> nth a red true = false ->
  nth a (rshape red gs) 0%nat = nth a gs 0%nat.
Proof.
  revert gs a. induction red as [|r red IH]; intros [|n gs] a H Ha; simpl in *;
    try discriminate.
  - destruct a; discriminate.
  - destruct a as [|a].
    + subst r. reflexivity.
    + apply IH; [lia | assumption].
Qed.

Lemma rshape_all_false (gs : list nat) : rshape (repeat false (length gs)) gs = gs.
Proof. induction gs as [|n gs IH]; simpl; [reflexivity | rewrite IH; reflexivity]. Qed.

Lemma rshape_all_true (gs : list nat) :
  rshape (repeat true (length gs)) gs = repeat 1%nat (length gs).
Proof. induction gs as [|n gs IH]; simpl; [reflexivity | rewrite IH; reflexivity]. Qed.

Lemma psum_all_false (gs idx : list nat) (f : list nat -> R) :
  length idx = length gs -> psum (repeat false (length gs)) gs idx f = f idx.
Proof.
  revert idx f. induction gs as [|n gs IH]; intros [|i idx] f H; simpl in *;
    try discriminate.
  - reflexivity.
  - rewrite IH by lia. reflexivity.
Qed.

Lemma psum_all_true (gs idx : list nat) (f : list nat -> R) :
  length idx = length gs -> psum (repeat true (length gs)) gs idx f = msum gs f.
Proof.
  revert idx f. induction gs as [|n gs IH]; intros [|i idx] f H; simpl in *;
    try discriminate.
  - reflexivity.
  - apply rsum_ext. intros k Hk. apply IH. lia.
Qed.

Lemma psum_ext (red : list bool) (gs idx : list nat) (f g : list nat -> R) :
  length red = length gs -> in_range (rshape red gs) idx ->
  (forall full, in_range gs full -> f full = g full) ->
  psum red gs idx f = psum red gs idx g.
Proof.
  revert gs idx f g. induction red as [|r red IH]; intros [|n gs] idx f g Hl Hi H;
    simpl in *; try discriminate.
  - apply H. constructor.
  - destruct idx as [|i idx]; [inversion Hi |].
    apply in_range_cons in Hi. destruct Hi as [Hi1 Hi2].
    destruct r.
    + apply rsum_ext. intros k Hk. apply IH; [lia | assumption |].
      intros full Hf. apply H. constructor; assumption.
    + apply IH; [lia | assumption |].
      intros full Hf. apply H. constructor; assumption.
Qed.

(** Summing one more axis. *)
Lemma psum_set (red : list bool) (gs idx : list nat) (a : nat) (f : list nat -> R) :
  length red = length gs -> length idx = length gs ->
  nth a red true = false ->
  psum (set_nth a true red) gs idx f
  = rsum (nth a gs 0%nat) (fun j => psum red gs (set_nth a j idx) f).
Proof.
  revert gs idx a f. induction red as [|r red IH]; intros [|n gs] [|i idx] a f Hl Hi Ha;
    simpl in *; try discriminate.
  - destruct a; discriminate.
  - destruct a as [|a].
    + subst r. rewrite set_nth_0. simpl. reflexivity.
    + rewrite set_nth_S. simpl. destruct r.
      * rewrite (rsum_ext n _
          (fun k => rsum (nth a gs 0%nat)
                      (fun j => psum red gs (set_nth a j idx) (fun tl => f (k :: tl))))).
        -- rewrite rsum_swap. apply rsum_ext. intros j Hj. reflexivity.
        -- intros k Hk. apply IH; [lia | lia | assumption].
      * rewrite IH by (try lia; assumption). reflexivity.
Qed.

(** ** Negative indices, views *)

Lemma norm_index_neg (n : nat) (z : Z) :
  (- Z.of_nat n <= z < 0)%Z -> norm_index n z = Ok (Z.to_nat (z + Z.of_nat n)).
Proof.
  intros H. unfold norm_index.
  destruct (Z.leb_spec 0 z); [lia |]. simpl.
  destruct (Z.leb_spec (- Z.of_nat n) z); [| lia].
  destruct (Z.ltb_spec z 0); [| lia]. reflexivity.
Qed.

Lemma norm_index_nonneg (n k : nat) :
  (k < n)%nat -> norm_index n (Z.of_nat k) = Ok k.
Proof.
  intros H. unfold norm_index.
  destruct (Z.leb_spec 0 (Z.of_nat k)); [| lia].
  destruct (Z.ltb_spec (Z.of_nat k) (Z.of_nat n)); [| lia].
  simpl. rewrite Nat2Z.id. reflexivity.
Qed.

Lemma existsb_of_nat (s : list nat) :
  existsb (fun z => (z <? -1)%Z) (map Z.of_nat s) = false.
Proof.
  induction s as [|n s IH]; simpl; [reflexivity |].
  rewrite IH. destruct (Z.ltb_spec (Z.of_nat n) (-1)); [lia | reflexivity].
Qed.

Lemma filter_of_nat (s : list nat) :
  filter (fun z => negb (z =? -1)%Z) (map Z.of_nat s) = map Z.of_nat s.
Proof.
  induction s as [|n s IH]; simpl; [reflexivity |].
  destruct (Z.eqb_spec (Z.of_nat n) (-1)); [lia |]. simpl. rewrite IH. reflexivity.
Qed.

Lemma count_of_nat (s : list nat) :
  count_occ Z.eq_dec (map Z.of_nat s) (-1)%Z = 0%nat.
Proof.
  induction s as [|n s IH]; simpl; [reflexivity |].
  destruct (Z.eq_dec (Z.of_nat n) (-1)); [lia | assumption].
Qed.

Lemma to_nat_of_nat (s : list nat) : map Z.to_nat (map Z.of_nat s) = s.
Proof.
  induction s as [|n s IH]; simpl; [reflexivity |].
  rewrite Nat2Z.id, IH. reflexivity.
Qed.

Lemma infer_of_nat (s : list nat) (x : nat) :
  map (fun z => if (z =? -1)%Z then x else Z.to_nat z) (map Z.of_nat s) = s.
Proof.
  induction s as [|n s IH]; simpl; [reflexivity |].
  destruct (Z.eqb_spec (Z.of_nat n) (-1)); [lia |]. rewrite Nat2Z.id, IH. reflexivity.
Qed.

Lemma view_shape_exact (s : list nat) (n : nat) :
  prod s = n -> view_shape n (map Z.of_nat s) = Ok s.
Proof.
  intros H. unfold view_shape.
  rewrite existsb_of_nat, filter_of_nat, count_of_nat, to_nat_of_nat.
  rewrite H, Nat.eqb_refl. reflexivity.
Qed.

Lemma view_shape_infer_head (n : nat) (gs : list nat) :
  prod gs <> 0%nat -> (n mod prod gs = 0)%nat ->
  view_shape n ((-1)%Z :: map Z.of_nat gs) = Ok ((n / prod gs)%nat :: gs).
Proof.
  intros Hg Hm. unfold view_shape.
  cbn [existsb filter map count_occ].
  rewrite existsb_of_nat, filter_of_nat, to_nat_of_nat.
  change ((-1 <? -1)%Z) with false. change ((-1 =? -1)%Z) with true.
  cbn [orb negb].
  destruct (Z.eq_dec (-1) (-1)) as [_|C]; [| contradiction].
  rewrite ?filter_of_nat, ?to_nat_of_nat, count_of_nat, infer_of_nat.
  destruct (Nat.eqb_spec (prod gs) 0); [contradiction |].
  rewrite Hm. reflexivity.
Qed.

Lemma view_shape_infer_last (n B : nat) :
  B <> 0%nat -> (n mod B = 0)%nat ->
  view_shape n [Z.of_nat B; (-1)%Z] = Ok [B; (n / B)%nat].
Proof.
  intros HB Hm. unfold view_shape.
  cbn [existsb filter map count_occ].
  change ((-1 <? -1)%Z) with false. change ((-1 =? -1)%Z) with true.
  destruct (Z.ltb_spec (Z.of_nat B) (-1)); [lia |].
  destruct (Z.eqb_spec (Z.of_nat B) (-1)); [lia |].
  cbn [orb negb filter map].
  destruct (Z.eq_dec (Z.of_nat B) (-1)); [lia |].
  destruct (Z.eq_dec (-1) (-1)) as [_|C]; [| contradiction].
  rewrite Nat2Z.id. simpl prod. rewrite Nat.mul_1_r.
  destruct (Nat.eqb_spec B 0); [contradiction |].
  rewrite Hm. reflexivity.
Qed.

(** ** One step of a summing loop *)

Lemma marg_step (pre : list nat) (red : list bool) (gs : list nat)
  (F : list nat -> list nat -> R) (t : tensor) (a : nat) :
  marg pre red gs F t -> length red = length gs -> (a < length gs)%nat ->
  nth a red true = false ->
  exists t',
    sum_dim t (Z.of_nat a - Z.of_nat (length gs)) true = Ok t' /\
    wf t' /\ marg pre (set_nth a true red) gs F t'.
Proof.
  intros [Hs Hitem] Hl Ha Hr.
  pose proof (rshape_length red gs Hl) as Hrl.
  unfold sum_dim. rewrite Hs, length_app, Hrl.
  rewrite norm_index_neg by lia. simpl.
  replace (Z.to_nat (Z.of_nat a - Z.of_nat (length gs)
                     + Z.of_nat (length pre + length gs)))
    with (length pre + a)%nat by lia.
  eexists. split; [reflexivity |]. split; [apply wf_tabulate |].
  rewrite set_nth_app_r, app_nth2_plus.
  rewrite rshape_nth_unflagged by assumption.
  rewrite <- rshape_set by assumption.
  split; [reflexivity |].
  intros p idx Hp Hi.
  rewrite item_tabulate by (apply in_range_app; assumption).
  pose proof (in_range_length _ _ Hi) as Hil.
  rewrite rshape_length in Hil
    by (rewrite set_nth_length by lia; assumption).
  rewrite psum_set by assumption.
  apply rsum_ext. intros j Hj.
  rewrite <- (in_range_length _ _ Hp), set_nth_app_r.
  apply Hitem; [assumption |].
  rewrite rshape_set in Hi by assumption.
  apply in_range_set_nth with (n := 1%nat); [assumption | lia |].
  rewrite rshape_nth_unflagged by assumption. assumption.
Qed.

(** ** Flags of summed axes *)

Lemma flags_length (P : nat -> bool) (n : nat) : length (flags P n) = n.
Proof. unfold flags. rewrite length_map, length_seq. reflexivity. Qed.

Lemma nth_flags (P : nat -> bool) (n a : nat) :
  (a < n)%nat -> nth a (flags P n) true = P a.
Proof.
  intros H. unfold flags.
  rewrite (nth_indep _ true (P 0%nat)) by (rewrite length_map, length_seq; assumption).
  rewrite map_nth, seq_nth by assumption. reflexivity.
Qed.

Lemma flags_ext (P Q : nat -> bool) (n : nat) :
  (forall a, (a < n)%nat -> P a = Q a) -> flags P n = flags Q n.
Proof.
  intros H. unfold flags. apply map_ext_in.
  intros a Ha. apply in_seq in Ha. apply H. lia.
Qed.

Lemma set_nth_map_seq (P : nat -> bool) (s n a : nat) :
  (a < n)%nat ->
  set_nth a true (map P (seq s n)) = map (fun x => (x =? s + a) || P x) (seq s n).
Proof.
  revert s a. induction n as [|n IH]; intros s a Ha; [lia |].
  simpl. destruct a as [|a].
  - rewrite set_nth_0, Nat.add_0_r, Nat.eqb_refl. simpl. f_equal.
    apply map_ext_in. intros x Hx. apply in_seq in Hx.
    destruct (Nat.eqb_spec x s); [lia | reflexivity].
  - rewrite set_nth_S, IH by lia.
    destruct (Nat.eqb_spec s (s + S a)); [lia |]. simpl. f_equal.
    apply map_ext. intros x. replace (s + S a)%nat with (S s + a)%nat by lia. reflexivity.
Qed.

Lemma set_nth_flags (P : nat -> bool) (n a : nat) :
  (a < n)%nat -> set_nth a true (flags P n) = flags (fun x => (x =? a) || P x) n.
Proof. intros H. unfold flags. rewrite set_nth_map_seq by assumption. reflexivity. Qed.

Lemma map_seq_const (P : nat -> bool) (b : bool) (s n : nat) :
  (forall a, (s <= a < s + n)%nat -> P a = b) -> map P (seq s n) = repeat b n.
Proof.
  revert s. induction n as [|n IH]; intros s H; simpl; [reflexivity |].
  rewrite (H s) by lia. f_equal. apply IH. intros a Ha. apply H. lia.
Qed.

Lemma flags_false (n : nat) : flags (fun _ => false) n = repeat false n.
Proof. apply map_seq_const. reflexivity. Qed.

Lemma flags_all_but (d n : nat) :
  (d < n)%nat -> flags (fun a => negb (a =? d)) n = all_but d n.
Proof.
  intros H. unfold flags, all_but.
  replace n with (d + S (n - S d))%nat at 1 by lia.
  rewrite seq_app, map_app. simpl.
  rewrite Nat.eqb_refl. simpl.
  rewrite (map_seq_const _ true 0 d), (map_seq_const _ true (S d)).
  - reflexivity.
  - intros a Ha. destruct (Nat.eqb_spec a d); [lia | reflexivity].
  - intros a Ha. destruct (Nat.eqb_spec a d); [lia | reflexivity].
Qed.

Lemma all_but_length (d n : nat) : (d < n)%nat -> length (all_but d n) = n.
Proof.
  intros H. unfold all_but. rewrite length_app; simpl. rewrite !repeat_length. lia.
Qed.

Lemma set_nth_all_but (d n : nat) :
  (d < n)%nat -> set_nth d true (all_but d n) = repeat true n.
Proof.
  intros H. unfold all_but.
  rewrite <- (repeat_length true d) at 1.
  replace (length (repeat true d)) with (length (repeat true d) + 0)%nat by lia.
  rewrite set_nth_app_r, set_nth_0.
  replace n with (d + S (n - S d))%nat at 2 by lia.
  rewrite repeat_app. reflexivity.
Qed.

Lemma nth_all_but (d n : nat) : nth d (all_but d n) true = false.
Proof.
  unfold all_but. rewrite app_nth2 by (rewrite repeat_length; lia).
  rewrite repeat_length, Nat.sub_diag. reflexivity.
Qed.

(** ** Splitting a grid at an axis *)

Lemma rshape_app (r1 r2 : list bool) (g1 g2 : list nat) :
  length r1 = length g1 ->
  rshape (r1 ++ r2) (g1 ++ g2) = rshape r1 g1 ++ rshape r2 g2.
Proof.
  revert g1. induction r1 as [|r r1 IH]; intros [|n g1] H; simpl in *; try discriminate.
  - reflexivity.
  - rewrite IH by lia. reflexivity.
Qed.

Lemma psum_app (r1 r2 : list bool) (g1 g2 i1 i2 : list nat) (f : list nat -> R) :
  length r1 = length g1 -> length i1 = length g1 ->
  psum (r1 ++ r2) (g1 ++ g2) (i1 ++ i2) f
  = psum r1 g1 i1 (fun x1 => psum r2 g2 i2 (fun x2 => f (x1 ++ x2))).
Proof.
  revert g1 i1 f. induction r1 as [|r r1 IH]; intros [|n g1] [|i i1] f H1 H2;
    simpl in *; try discriminate.
  - reflexivity.
  - destruct r.
    + apply rsum_ext. intros k Hk. rewrite IH by lia. reflexivity.
    + rewrite IH by lia. reflexivity.
Qed.

Lemma split_at (gs : list nat) (d : nat) :
  (d < length gs)%nat ->
  gs = firstn d gs ++ nth d gs 0%nat :: skipn (S d) gs /\
  length (firstn d gs) = d /\ length (skipn (S d) gs) = (length gs - S d)%nat.
Proof.
  intros H. split; [| split].
  - rewrite <- (firstn_skipn d gs) at 1. f_equal.
    revert d H. induction gs as [|n gs IH]; intros d H; simpl in *; [lia |].
    destruct d as [|d]; [reflexivity |]. apply IH. lia.
  - rewrite length_firstn. lia.
  - rewrite length_skipn. reflexivity.
Qed.

Lemma prod_ones (n : nat) : prod (repeat 1%nat n) = 1%nat.
Proof. induction n as [|n IH]; simpl; [reflexivity | rewrite IH; reflexivity]. Qed.

Lemma ravel_ones (n : nat) : ravel (repeat 1%nat n) (repeat 0%nat n) = 0%nat.
Proof. induction n as [|n IH]; simpl; [reflexivity | rewrite IH; reflexivity]. Qed.

Lemma in_range_ones (n : nat) : in_range (repeat 1%nat n) (repeat 0%nat n).
Proof. induction n as [|n IH]; simpl; constructor; [lia | assumption]. Qed.

Lemma rshape_all_but (gs : list nat) (d : nat) :
  (d < length gs)%nat ->
  rshape (all_but d (length gs)) gs
  = repeat 1%nat d ++ nth d gs 0%nat :: repeat 1%nat (length gs - S d).
Proof.
  intros H. unfold all_but.
  rewrite (proj1 (split_at gs d H)) at 2 3.
  destruct (split_at gs d H) as (_ & L1 & L2).
  rewrite rshape_app by (rewrite repeat_length; lia). simpl.
  rewrite <- L2. rewrite rshape_all_true.
  f_equal.
  - rewrite <- L1 at 1 3. apply rshape_all_true.
  - f_equal.
    rewrite app_nth2 by lia. rewrite L1, Nat.sub_diag. reflexivity.
Qed.

Lemma prod_rshape_all_but (gs : list nat) (d : nat) :
  (d < length gs)%nat -> prod (rshape (all_but d (length gs)) gs) = nth d gs 0%nat.
Proof.
  intros H. rewrite rshape_all_but by assumption.
  rewrite prod_app. simpl. rewrite !prod_ones. lia.
Qed.

Lemma ravel_unit_idx (gs : list nat) (d j : nat) :
  (d < length gs)%nat ->
  ravel (rshape (all_but d (length gs)) gs) (unit_idx d (length gs) j) = j.
Proof.
  intros H. rewrite rshape_all_but by assumption. unfold unit_idx.
  rewrite ravel_app by (rewrite !repeat_length; reflexivity).
  simpl. rewrite !ravel_ones. rewrite !prod_ones. lia.
Qed.

Lemma in_range_unit_idx (gs : list nat) (d j : nat) :
  (d < length gs)%nat -> (j < nth d gs 0)%nat ->
  in_range (rshape (all_but d (length gs)) gs) (unit_idx d (length gs) j).
Proof.
  intros H Hj. rewrite rshape_all_but by assumption. unfold unit_idx.
  apply in_range_app; [apply in_range_ones |].
  constructor; [assumption | apply in_range_ones].
Qed.

Lemma unit_idx_length (d n j : nat) : (d < n)%nat -> length (unit_idx d n j) = n.
Proof.
  intros H. unfold unit_idx. rewrite length_app; simpl. rewrite !repeat_length. lia.
Qed.

Lemma set_nth_unit_idx (d n i j : nat) :
  set_nth d j (unit_idx d n i) = unit_idx d n j.
Proof.
  unfold unit_idx.
  rewrite <- (repeat_length 0%nat d) at 1.
  replace (length (repeat 0%nat d)) with (length (repeat 0%nat d) + 0)%nat by lia.
  rewrite set_nth_app_r, set_nth_0. reflexivity.
Qed.

(** With every axis but [d] summed, what is left is the marginal. *)
Lemma psum_all_but (gs : list nat) (d j : nat) (f : list nat -> R) :
  (d < length gs)%nat ->
  psum (all_but d (length gs)) gs (unit_idx d (length gs) j) f = marginal gs d f j.
Proof.
  intros H. unfold all_but, unit_idx, marginal.
  rewrite (proj1 (split_at gs d H)) at 2.
  destruct (split_at gs d H) as (_ & L1 & L2).
  rewrite psum_app by (rewrite repeat_length; lia).
  rewrite <- L2.
  remember (firstn d gs) as g1. remember (skipn (S d) gs) as g2.
  rewrite <- L1. rewrite psum_all_true by (rewrite repeat_length; reflexivity).
  apply msum_ext. intros x1 Hx1. simpl.
  rewrite psum_all_true by (rewrite repeat_length; reflexivity).
  reflexivity.
Qed.

(** The marginal sums to the total mass. *)
Lemma rsum_marginal (gs : list nat) (d : nat) (f : list nat -> R) :
  (d < length gs)%nat ->
  rsum (nth d gs 0%nat) (marginal gs d f) = msum gs f.
Proof.
  intros H.
  rewrite <- (psum_all_true gs (unit_idx d (length gs) 0) f)
    by (apply unit_idx_length; assumption).
  rewrite <- (set_nth_all_but d (length gs)) by assumption.
  rewrite psum_set.
  - apply rsum_ext. intros j Hj. rewrite set_nth_unit_idx.
    symmetry. apply psum_all_but. assumption.
  - apply all_but_length. assumption.
  - apply unit_idx_length. assumption.
  - apply nth_all_but.
Qed.

(** ** The coordinate expectation along one axis *)

Lemma range_neg (n : nat) :
  range (- Z.of_nat n) 0 = map (fun k => (- Z.of_nat n + Z.of_nat k)%Z) (seq 0 n).
Proof.
  unfold range. replace (Z.to_nat (0 - - Z.of_nat n)) with n by lia. reflexivity.
Qed.

Lemma coord_loop (pre gs : list nat) (F : list nat -> list nat -> R) (d : nat) :
  (d < length gs)%nat ->
  forall m j t, (j + m = length gs)%nat ->
    marg pre (flags (fun a => (a <? j) && negb (a =? d)) (length gs)) gs F t ->
    exists t',
      reduce_init
        (fun summed i => if (i =? Z.of_nat d - Z.of_nat (length gs))%Z then Ok summed
                         else sum_dim summed i true)
        (map (fun k => (- Z.of_nat (length gs) + Z.of_nat k)%Z) (seq j m)) t = Ok t' /\
      marg pre (all_but d (length gs)) gs F t'.
Proof.
  intros Hd. induction m as [|m IH]; intros j t Hj Hm.
  - simpl. exists t. split; [reflexivity |].
    rewrite <- flags_all_but by assumption.
    erewrite flags_ext; [exact Hm |].
    intros a Ha. simpl. destruct (Nat.ltb_spec a j); [reflexivity | lia].
  - simpl.
    destruct (Z.eqb_spec (- Z.of_nat (length gs) + Z.of_nat j)
                (Z.of_nat d - Z.of_nat (length gs))) as [E|E].
    + simpl. apply IH; [lia |].
      erewrite flags_ext; [exact Hm |].
      intros a Ha. simpl.
      destruct (Nat.ltb_spec a (S j)), (Nat.ltb_spec a j), (Nat.eqb_spec a d);
        try reflexivity; lia.
    + destruct (marg_step pre _ gs F t j Hm) as (t' & Hs & _ & Hm').
      * apply flags_length.
      * lia.
      * rewrite nth_flags by lia. rewrite Nat.ltb_irrefl. reflexivity.
      * replace (- Z.of_nat (length gs) + Z.of_nat j)%Z
          with (Z.of_nat j - Z.of_nat (length gs))%Z by lia.
        rewrite Hs. simpl. apply IH; [lia |].
        rewrite set_nth_flags in Hm' by lia.
        erewrite flags_ext; [exact Hm' |].
        intros a Ha. simpl.
        destruct (Nat.ltb_spec a (S j)), (Nat.ltb_spec a j), (Nat.eqb_spec a d),
          (Nat.eqb_spec a j); try reflexivity; lia.
Qed.

Lemma getitem_app_r (bs gs : list nat) (d : nat) :
  (d < length gs)%nat ->
  getitem (bs ++ gs) (Z.of_nat d - Z.of_nat (length gs)) = Ok (nth d gs 0%nat).
Proof.
  intros H. unfold getitem. rewrite length_app.
  rewrite norm_index_neg by lia. simpl.
  replace (Z.to_nat (Z.of_nat d - Z.of_nat (length gs) + Z.of_nat (length bs + length gs)))
    with (length bs + d)%nat by lia.
  rewrite app_nth2_plus. reflexivity.
Qed.

Lemma slice_to_neg_app {A : Type} (bs gs : list A) :
  (0 < length gs)%nat -> slice_to_neg (length gs) (bs ++ gs) = bs.
Proof.
  intros H. unfold slice_to_neg. destruct (length gs) as [|n] eqn:E; [lia |].
  rewrite length_app, E.
  replace (length bs + S n - S n)%nat with (length bs + 0)%nat by lia.
  rewrite firstn_app_2. simpl. apply app_nil_r.
Qed.

Lemma slice_from_neg_app {A : Type} (bs gs : list A) :
  (0 < length gs)%nat -> slice_from_neg (length gs) (bs ++ gs) = gs.
Proof.
  intros H. unfold slice_from_neg. destruct (length gs) as [|n] eqn:E; [lia |].
  rewrite length_app, E.
  replace (length bs + S n - S n)%nat with (length bs) by lia.
  rewrite skipn_app, skipn_all, Nat.sub_diag. reflexivity.
Qed.

Lemma view_head (h : tensor) (bs gs : list nat) :
  shape h = bs ++ gs -> (0 < prod gs)%nat ->
  view h ((-1)%Z :: map Z.of_nat gs) = Ok (mkT (prod bs :: gs) (data h)).
Proof.
  intros Hs Hg. unfold view, numel. rewrite Hs, prod_app.
  rewrite view_shape_infer_head.
  - simpl. rewrite Nat.div_mul by lia. reflexivity.
  - lia.
  - apply Nat.Div0.mod_mul.
Qed.

Lemma norm_index_0 (n : nat) : norm_index (S n) 0 = Ok 0%nat.
Proof. apply (norm_index_nonneg (S n) 0). lia. Qed.

Lemma view_last (t : tensor) (B : nat) :
  B <> 0%nat -> (numel t mod B = 0)%nat ->
  view t [Z.of_nat B; (-1)%Z] = Ok (mkT [B; (numel t / B)%nat] (data t)).
Proof.
  intros HB Hm. unfold view. rewrite view_shape_infer_last by assumption. reflexivity.
Qed.

Lemma view_row (t : tensor) (L : nat) :
  shape t = [L] -> L <> 0%nat ->
  view t [(-1)%Z; Z.of_nat L] = Ok (mkT [1%nat; L] (data t)).
Proof.
  intros Hs HL. unfold view, numel. rewrite Hs.
  change [(-1)%Z; Z.of_nat L] with ((-1)%Z :: map Z.of_nat [L]).
  rewrite view_shape_infer_head.
  - simpl. rewrite Nat.mul_1_r, Nat.div_same by assumption. reflexivity.
  - simpl. lia.
  - apply Nat.Div0.mod_same.
Qed.

Lemma view_exact (t : tensor) (s : list nat) :
  prod s = numel t -> view t (map Z.of_nat s) = Ok (mkT s (data t)).
Proof.
  intros H. unfold view. rewrite view_shape_exact by assumption. reflexivity.
Qed.

Lemma bdim_one_r (x : nat) : bdim x 1 = Ok x.
Proof.
  unfold bdim. destruct (Nat.eqb_spec x 1) as [E|E]; [reflexivity |].
  reflexivity.
Qed.

Lemma marginal_ext (gs : list nat) (d : nat) (f g : list nat -> R) (j : nat) :
  (forall x, f x = g x) -> marginal gs d f j = marginal gs d g j.
Proof.
  intros H. unfold marginal. apply msum_ext. intros x1 _.
  apply msum_ext. intros x2 _. apply H.
Qed.

Lemma coord_expectation_spec (bs gs : list nat) (h : tensor) (d : nat)
  (transform : option (tensor -> result tensor)) (oc : tensor) :
  shape h = bs ++ gs -> (0 < prod bs)%nat -> (0 < prod gs)%nat ->
  (d < length gs)%nat ->
  (forall axis, _normalized_linspace (Z.of_nat (nth d gs 0%nat)) h = Ok axis ->
     match transform with Some f => f axis | None => Ok axis end = Ok oc) ->
  shape oc = [nth d gs 0%nat] ->
  exists r,
    _coord_expectation h (Z.of_nat d - Z.of_nat (length gs)) (length gs) transform = Ok r /\
    shape r = match bs with [] => [1%nat] | _ => bs end /\
    length (data r) = prod bs /\
    forall p, in_range bs p ->
      nth (ravel bs p) (data r) 0 =
      rsum (nth d gs 0%nat)
        (fun j => marginal gs d (fun g => item h (p ++ g)) j * item oc [j]).
Proof.
  intros Hs Hb Hg Hd Htr Hoc.
  set (n := length gs). set (L := nth d gs 0%nat) in *. set (B := prod bs).
  assert (Hn : (0 < n)%nat) by (unfold n; lia).
  assert (HL : (0 < L)%nat).
  { unfold L. destruct (split_at gs d Hd) as (E & _ & _).
    rewrite E, prod_app in Hg. simpl in Hg. nia. }
  unfold _coord_expectation.
  rewrite Hs, getitem_app_r by assumption. cbn [bind]. fold L.
  destruct (normalized_linspace_shape (Z.of_nat L) h) as (axis & Hax & _); [lia |].
  rewrite Hax. cbn [bind]. rewrite (Htr axis Hax). cbn [bind].
  unfold n. rewrite slice_to_neg_app, slice_from_neg_app by assumption.
  rewrite (view_head h bs gs Hs Hg). cbn [bind]. fold B. fold n.
  set (t0 := mkT (B :: gs) (data h)).
  rewrite range_neg.
  destruct (coord_loop [B] gs (fun p g => item t0 (p ++ g)) d Hd n 0%nat t0)
    as (t1 & Hloop & Hs1 & Hit1).
  { reflexivity. }
  { rewrite (flags_ext _ (fun _ => false)) by reflexivity.
    rewrite flags_false. split.
    - rewrite rshape_all_false. reflexivity.
    - intros p idx Hp Hi. rewrite rshape_all_false in Hi.
      rewrite psum_all_false by (apply in_range_length; assumption). reflexivity. }
  fold n in Hloop. rewrite Hloop. cbn [bind].
  fold n in Hs1, Hit1.
  rewrite Hs1. simpl app.
  unfold getitem. cbn [length]. rewrite norm_index_0. cbn [bind nth].
  assert (Hnum : numel t1 = (L * B)%nat).
  { unfold numel. rewrite Hs1. simpl. unfold n. rewrite prod_rshape_all_but by assumption.
    fold L. lia. }
  rewrite view_last; [| unfold B; lia | rewrite Hnum; apply Nat.Div0.mod_mul].
  cbn [bind]. rewrite Hnum, Nat.div_mul by (unfold B; lia).
  rewrite Hoc.
  replace (norm_index (length [L]) (-1)) with (@Ok nat 0%nat) by reflexivity.
  cbn [bind nth].
  rewrite (view_row oc L Hoc) by lia. cbn [bind].
  unfold mul, map2b. cbn [shape].
  replace (broadcast_shape [B; L] [1%nat; L]) with (Ok [B; L]).
  2:{ unfold broadcast_shape. simpl. rewrite bdim_one_r, bdim_same. reflexivity. }
  cbn [bind].
  unfold sum_dim at 1. cbn [shape tabulate length].
  replace (norm_index 2 (-1)) with (@Ok nat 1%nat) by reflexivity.
  cbn [bind nth]. unfold remove_nth. cbn [firstn skipn app].
  set (weighted := tabulate [B; L] _).
  set (expectations := tabulate [B] _).
  assert (Hdata : forall p, in_range bs p ->
     nth (ravel bs p) (data expectations) 0 =
      rsum L (fun j => marginal gs d (fun g => item h (p ++ g)) j * item oc [j])).
  { intros p Hp. pose proof (ravel_lt bs p Hp) as Hlt. fold B in Hlt.
    transitivity (item expectations [ravel bs p]).
    { unfold item. cbn [shape expectations tabulate ravel]. f_equal. simpl. lia. }
    unfold expectations. rewrite item_tabulate by (constructor; [assumption | constructor]).
    apply rsum_ext. intros j Hj.
    unfold insert_nth. cbn [firstn skipn app].
    unfold weighted.
    rewrite item_tabulate by (repeat constructor; assumption).
    rewrite bproj_same by (repeat constructor; assumption).
    f_equal.
    - transitivity (item t1 ([ravel bs p] ++ unit_idx d n j)).
      + unfold item. cbn [shape data]. f_equal. rewrite Hs1.
        cbn [app ravel]. unfold n. rewrite ravel_unit_idx by assumption.
        rewrite prod_rshape_all_but by assumption. fold L. simpl. lia.
      + rewrite Hit1.
        * unfold n. rewrite psum_all_but by assumption.
          apply marginal_ext. intros x. unfold item, t0. cbn [shape data].
          rewrite Hs. f_equal. rewrite ravel_app by (apply in_range_length; assumption).
          simpl. reflexivity.
        * constructor; [assumption | constructor].
        * unfold n. apply in_range_unit_idx; assumption.
    - unfold item. cbn [shape data]. rewrite Hoc. f_equal.
      unfold bproj. simpl.
      destruct (Nat.eqb_spec L 1); simpl; lia. }
  assert (Hlen : length (data expectations) = B).
  { unfold expectations, tabulate. cbn [data]. rewrite length_map, length_seq. simpl. lia. }
  destruct bs as [|b0 bs'] eqn:Ebs.
  - simpl length. cbn [Nat.ltb Nat.leb].
    eexists. split; [reflexivity |].
    split; [reflexivity |]. split; [exact Hlen | exact Hdata].
  - rewrite <- Ebs in *. replace (0 <? length bs) with true
      by (rewrite Ebs; reflexivity).
    unfold view. rewrite view_shape_exact.
    + cbn [bind]. eexists. split; [reflexivity |]. cbn [shape data].
      split; [rewrite Ebs; reflexivity |]. split; [exact Hlen | exact Hdata].
    + change (prod bs = B * 1)%nat. rewrite Nat.mul_1_r. unfold B. rewrite ?Ebs. reflexivity.
Qed.

(** ** Stacking the per-axis expectations *)

Lemma mapM_map {A B C : Type} (f : B -> result C) (g : A -> B) (l : list A) :
  mapM f (map g l) = mapM (fun x => f (g x)) l.
Proof.
  induction l as [|x l IH]; simpl; [reflexivity | rewrite IH; reflexivity].
Qed.

Lemma mapM_seq_exists {B : Type} (f : nat -> result B) (P : nat -> B -> Prop)
  (dflt : B) (n s : nat) :
  (forall k, (s <= k < s + n)%nat -> exists y, f k = Ok y /\ P k y) ->
  exists ys, mapM f (seq s n) = Ok ys /\ length ys = n /\
    forall k, (k < n)%nat -> P (s + k)%nat (nth k ys dflt).
Proof.
  revert s. induction n as [|n IH]; intros s H; simpl.
  - exists []. split; [reflexivity |]. split; [reflexivity |]. intros k Hk. lia.
  - destruct (H s) as (y & Hy & Py); [lia |].
    destruct (IH (S s)) as (ys & Hys & Hl & Pys).
    { intros k Hk. apply H. lia. }
    rewrite Hy. simpl. rewrite Hys. simpl.
    exists (y :: ys). split; [reflexivity |]. split; [simpl; lia |].
    intros [|k] Hk; simpl.
    + rewrite Nat.add_0_r. exact Py.
    + replace (s + S k)%nat with (S s + k)%nat by lia. apply Pys. lia.
Qed.

Lemma range_down_neg (n : nat) :
  range_down (-1) (- (Z.of_nat n + 1)) = map (fun k => (-1 - Z.of_nat k)%Z) (seq 0 n).
Proof.
  unfold range_down. replace (Z.to_nat (-1 - - (Z.of_nat n + 1))) with n by lia.
  reflexivity.
Qed.

Lemma forallb_shape_eqb (ts : list tensor) (s : list nat) :
  (forall t, In t ts -> shape t = s) ->
  forallb (fun t => shape_eqb (shape t) s) ts = true.
Proof.
  intros H. apply forallb_forall. intros t Ht. rewrite (H t Ht).
  unfold shape_eqb. destruct (list_eq_dec Nat.eq_dec s s); [reflexivity | contradiction].
Qed.

Lemma insert_nth_end {A : Type} (v : A) (l : list A) :
  insert_nth (length l) v l = l ++ [v].
Proof. unfold insert_nth. rewrite firstn_all, skipn_all. reflexivity. Qed.

Lemma remove_nth_end {A : Type} (v : A) (l : list A) :
  remove_nth (length l) (l ++ [v]) = l.
Proof.
  unfold remove_nth. induction l as [|x l IH]; simpl; [reflexivity |].
  simpl in IH. rewrite IH. reflexivity.
Qed.

Lemma stack_cons (t0 : tensor) (ts : list tensor) (d : Z) :
  stack (t0 :: ts) d =
  if forallb (fun t => shape_eqb (shape t) (shape t0)) (t0 :: ts) then
    k <- norm_index (S (length (shape t0))) d ;;
    Ok (tabulate (insert_nth k (length (t0 :: ts)) (shape t0))
          (fun idx => item (nth (nth k idx 0%nat) (t0 :: ts) t0) (remove_nth k idx)))
  else Raise RuntimeError.
Proof. reflexivity. Qed.

Lemma stack_last (ts : list tensor) (s : list nat) :
  ts <> [] -> (forall t, In t ts -> shape t = s) ->
  exists r, stack ts (-1) = Ok r /\ shape r = s ++ [length ts] /\ wf r /\
    forall q k, in_range s q -> (k < length ts)%nat ->
      item r (q ++ [k]) = item (nth k ts (mkT [] [])) q.
Proof.
  intros Hne Hs. destruct ts as [|t0 ts']; [contradiction |].
  assert (Hs0 : shape t0 = s) by (apply Hs; left; reflexivity).
  rewrite stack_cons. remember (t0 :: ts') as ts eqn:Ets.
  rewrite Hs0, (forallb_shape_eqb ts s Hs).
  rewrite norm_index_neg by lia. cbn [bind].
  replace (Z.to_nat (-1 + Z.of_nat (S (length s)))) with (length s) by lia.
  rewrite insert_nth_end.
  eexists. split; [reflexivity |]. split; [reflexivity |]. split; [apply wf_tabulate |].
  intros q k Hq Hk.
  rewrite item_tabulate
    by (apply in_range_app; [assumption | constructor; [assumption | constructor]]).
  rewrite <- (in_range_length _ _ Hq).
  rewrite app_nth2, Nat.sub_diag by lia. cbn [nth].
  rewrite remove_nth_end.
  rewrite (nth_indep ts t0 (mkT [] [])) by assumption. reflexivity.
Qed.

Lemma out_idx_in_range (bs p : list nat) :
  in_range bs p -> in_range (out_shape bs) (out_idx bs p).
Proof.
  intros H. destruct bs; simpl; [| assumption].
  constructor; [lia | constructor].
Qed.

Lemma ravel_out_idx (bs p : list nat) :
  in_range bs p -> ravel (out_shape bs) (out_idx bs p) = ravel bs p.
Proof.
  intros H. destruct bs; simpl; [| reflexivity].
  inversion H; subst. reflexivity.
Qed.

(** [dsnt] in general: component [k] of sample [p] is the expectation of the
    coordinate of grid axis [ndims-1-k] under the marginal of the sample. *)
Lemma dsnt_spec (bs gs : list nat) (h : tensor) :
  shape h = bs ++ gs -> (0 < prod bs)%nat -> (0 < prod gs)%nat ->
  (1 <= length gs)%nat ->
  exists r,
    dsnt h (length gs) = Ok r /\
    shape r = out_shape bs ++ [length gs] /\ wf r /\
    forall p k, in_range bs p -> (k < length gs)%nat ->
      exists axis,
        _normalized_linspace (Z.of_nat (nth (length gs - 1 - k) gs 0%nat)) h = Ok axis /\
        item r (out_idx bs p ++ [k]) =
        rsum (nth (length gs - 1 - k) gs 0%nat)
          (fun j => marginal gs (length gs - 1 - k) (fun g => item h (p ++ g)) j
                    * item axis [j]).
Proof.
  intros Hs Hb Hg Hn. set (n := length gs) in *.
  unfold dsnt. rewrite range_down_neg, mapM_map.
  destruct (mapM_seq_exists
    (fun k => _coord_expectation h (-1 - Z.of_nat k) n None)
    (fun k r => shape r = out_shape bs /\
       forall p, in_range bs p ->
       exists axis,
         _normalized_linspace (Z.of_nat (nth (n - 1 - k) gs 0%nat)) h = Ok axis /\
         nth (ravel bs p) (data r) 0 =
         rsum (nth (n - 1 - k) gs 0%nat)
           (fun j => marginal gs (n - 1 - k) (fun g => item h (p ++ g)) j
                     * item axis [j]))
    (mkT [] []) n 0%nat) as (mus & Hmus & Hlen & Hall).
  { intros k Hk.
    assert (Hd : (n - 1 - k < length gs)%nat) by (fold n; lia).
    assert (HL : (0 < nth (n - 1 - k) gs 0)%nat).
    { destruct (split_at gs _ Hd) as (E & _ & _).
      rewrite E, prod_app in Hg. simpl in Hg. nia. }
    destruct (normalized_linspace_shape (Z.of_nat (nth (n - 1 - k) gs 0%nat)) h)
      as (axis & Hax & Hsa); [lia |].
    rewrite Nat2Z.id in Hsa.
    destruct (coord_expectation_spec bs gs h (n - 1 - k) None axis Hs Hb Hg Hd)
      as (r & Hr & Hsr & _ & Hdata).
    { intros axis' H'. rewrite Hax in H'. symmetry. exact H'. }
    { exact Hsa. }
    exists r. split.
    - rewrite <- Hr. f_equal. fold n. lia.
    - split; [exact Hsr |]. intros p Hp. exists axis. split; [exact Hax |].
      apply Hdata. assumption. }
  rewrite Hmus. cbn [bind].
  destruct (stack_last mus (out_shape bs)) as (r & Hr & Hsr & Hwr & Hitem).
  { destruct mus; [simpl in Hlen; lia | discriminate]. }
  { intros t Ht. destruct (In_nth mus t (mkT [] []) Ht) as (k & Hk & <-).
    destruct (Hall k) as [H _]; [lia | exact H]. }
  exists r. split; [exact Hr |]. split; [rewrite Hsr, Hlen; reflexivity |].
  split; [exact Hwr |].
  intros p k Hp Hk.
  destruct (Hall k Hk) as [Hsk Hk'].
  destruct (Hk' p Hp) as (axis & Hax & Hval).
  exists axis. split; [exact Hax |]. simpl in Hval.
  rewrite Hitem; [| apply out_idx_in_range; assumption | lia].
  rewrite <- Hval. unfold item. rewrite Hsk, ravel_out_idx by assumption. reflexivity.
Qed.

(** ** One-hot heatmaps *)

Lemma msum_zero (s : list nat) : msum s (fun _ => 0) = 0.
Proof.
  induction s as [|n s IH]; simpl; [reflexivity |].
  rewrite (rsum_ext n _ (fun _ => 0)) by (intros; apply IH). apply rsum_zero.
Qed.

Lemma msum_indicator (g c : list nat) (F : list nat -> R) :
  in_range g c -> msum g (fun x => if eqb_idx x c then F x else 0) = F c.
Proof.
  intros H. revert F. induction H as [|c0 n c g Hc H IH]; intros F; simpl.
  - reflexivity.
  - rewrite (rsum_ext n _ (fun k => if k =? c0 then F (c0 :: c) else 0)).
    + apply (rsum_delta n c0 (fun _ => F (c0 :: c))). assumption.
    + intros k Hk. destruct (Nat.eqb_spec k c0) as [E|E]; simpl.
      * subst k. apply (IH (fun x => F (c0 :: x))).
      * apply msum_zero.
Qed.

Lemma eqb_idx_app (x1 x2 c1 c2 : list nat) :
  length x1 = length c1 ->
  eqb_idx (x1 ++ x2) (c1 ++ c2) = eqb_idx x1 c1 && eqb_idx x2 c2.
Proof.
  revert c1. induction x1 as [|x x1 IH]; intros [|c c1] H; simpl in *; try discriminate.
  - reflexivity.
  - rewrite IH by lia. rewrite andb_assoc. reflexivity.
Qed.

Lemma in_range_firstn (s idx : list nat) (k : nat) :
  in_range s idx -> in_range (firstn k s) (firstn k idx).
Proof.
  unfold in_range. intros H. revert k. induction H; intros [|k]; simpl; constructor; auto.
Qed.

Lemma in_range_skipn (s idx : list nat) (k : nat) :
  in_range s idx -> in_range (skipn k s) (skipn k idx).
Proof.
  unfold in_range. intros H. revert k. induction H; intros [|k]; simpl; try constructor; auto.
Qed.

Lemma in_range_nth (s idx : list nat) (k : nat) :
  in_range s idx -> (k < length s)%nat -> (nth k idx 0 < nth k s 0)%nat.
Proof.
  unfold in_range. intros H. revert k. induction H; intros [|k] Hk; simpl in *; try lia.
  apply IHForall2. lia.
Qed.

Lemma in_range_split (gs x1 x2 : list nat) (d j : nat) :
  (d < length gs)%nat -> in_range (firstn d gs) x1 -> (j < nth d gs 0)%nat ->
  in_range (skipn (S d) gs) x2 -> in_range gs (x1 ++ j :: x2).
Proof.
  intros H H1 Hj H2.
  assert (Hr : in_range (firstn d gs ++ nth d gs 0%nat :: skipn (S d) gs) (x1 ++ j :: x2)).
  { apply in_range_app; [assumption |]. constructor; assumption. }
  rewrite <- (proj1 (split_at gs d H)) in Hr. exact Hr.
Qed.

Lemma marginal_one_hot (gs c : list nat) (d j : nat) (f : list nat -> R) :
  (d < length gs)%nat -> in_range gs c -> (j < nth d gs 0)%nat ->
  (forall g, in_range gs g -> f g = if eqb_idx g c then 1 else 0) ->
  marginal gs d f j = if j =? nth d c 0%nat then 1 else 0.
Proof.
  intros Hd Hc Hj Hf.
  pose proof (in_range_length _ _ Hc) as Hlc.
  assert (Hdc : (d < length c)%nat) by lia.
  destruct (split_at c d Hdc) as (Ec & Lc1 & _).
  pose proof (in_range_firstn gs c d Hc) as Hc1.
  pose proof (in_range_skipn gs c (S d) Hc) as Hc2.
  unfold marginal.
  rewrite (msum_ext _ _
    (fun x1 => if eqb_idx x1 (firstn d c)
               then (if j =? nth d c 0%nat then 1 else 0) else 0)).
  { apply (msum_indicator _ _ (fun _ => if j =? nth d c 0%nat then 1 else 0)).
    assumption. }
  intros x1 Hx1.
  rewrite (msum_ext _ _
    (fun x2 => if eqb_idx x2 (skipn (S d) c)
               then (if eqb_idx x1 (firstn d c)
                     then (if j =? nth d c 0%nat then 1 else 0) else 0) else 0)).
  { apply (msum_indicator _ _
      (fun _ => if eqb_idx x1 (firstn d c)
                then (if j =? nth d c 0%nat then 1 else 0) else 0)).
    assumption. }
  intros x2 Hx2.
  rewrite Hf by (apply (in_range_split gs x1 x2 d j); assumption).
  rewrite Ec at 1.
  rewrite eqb_idx_app
    by (rewrite (in_range_length _ _ Hx1), !length_firstn; lia).
  cbn [eqb_idx].
  destruct (eqb_idx x1 (firstn d c)), (j =? nth d c 0%nat),
    (eqb_idx x2 (skipn (S d) c)); simpl; reflexivity.
Qed.

Lemma prod_pos_in_range (s : list nat) :
  (0 < prod s)%nat -> in_range s (unravel s 0).
Proof. intros H. apply unravel_in_range. assumption. Qed.

(** C1: on one-hot heatmaps of any batch shape and any [ndims >= 1],
    [dsnt] returns one coordinate vector per sample, whose component [k] is
    exactly the entry of the normalized axis of grid axis [ndims-1-k] (the
    innermost axis first) at the position of the cell on that axis. *)
Theorem dsnt_one_hot (bs gs : list nat) (h : tensor) (cell : list nat -> list nat) :
  shape h = bs ++ gs -> (1 <= length gs)%nat -> (0 < prod bs)%nat ->
  one_hot bs gs h cell ->
  exists r,
    dsnt h (length gs) = Ok r /\
    shape r = out_shape bs ++ [length gs] /\
    forall p k, in_range bs p -> (k < length gs)%nat ->
      exists axis,
        _normalized_linspace (Z.of_nat (nth (length gs - 1 - k) gs 0%nat)) h = Ok axis /\
        item r (out_idx bs p ++ [k]) = item axis [nth (length gs - 1 - k) (cell p) 0%nat].
Proof.
  intros Hs Hn Hb Hoh.
  assert (Hg : (0 < prod gs)%nat).
  { destruct (Hoh _ (prod_pos_in_range bs Hb)) as [Hc _].
    apply (in_range_prod_pos _ _ Hc). }
  destruct (dsnt_spec bs gs h Hs Hb Hg Hn) as (r & Hr & Hsr & _ & Hitem).
  exists r. split; [exact Hr |]. split; [exact Hsr |].
  intros p k Hp Hk.
  destruct (Hitem p k Hp Hk) as (axis & Hax & Hval).
  exists axis. split; [exact Hax |].
  rewrite Hval. destruct (Hoh p Hp) as [Hc Hf].
  set (d := (length gs - 1 - k)%nat) in *.
  assert (Hd : (d < length gs)%nat) by (unfold d; lia).
  rewrite (rsum_ext _ _
    (fun j => if j =? nth d (cell p) 0%nat then item axis [j] else 0)).
  - apply (rsum_delta _ _ (fun j => item axis [j])).
    apply in_range_nth; assumption.
  - intros j Hj.
    rewrite (marginal_one_hot gs (cell p) d j _ Hd Hc Hj Hf).
    destruct (j =? nth d (cell p) 0%nat); lra.
Qed.

(** ** Bounds of the coordinates *)

Lemma msum_nonneg (s : list nat) (f : list nat -> R) :
  (forall idx, in_range s idx -> 0 <= f idx) -> 0 <= msum s f.
Proof.
  revert f. induction s as [|n s IH]; intros f H; simpl.
  - apply H. constructor.
  - apply rsum_nonneg. intros k Hk. apply IH.
    intros idx Hi. apply H. constructor; assumption.
Qed.

Lemma msum_zero_extent (s : list nat) (f : list nat -> R) :
  prod s = 0%nat -> msum s f = 0.
Proof.
  revert f. induction s as [|n s IH]; intros f H; simpl in *.
  - discriminate.
  - destruct n as [|n]; [reflexivity |].
    rewrite (rsum_ext _ _ (fun _ => 0)).
    + apply rsum_zero.
    + intros k Hk. apply IH. nia.
Qed.

Lemma marginal_nonneg (gs : list nat) (d j : nat) (f : list nat -> R) :
  (d < length gs)%nat -> (j < nth d gs 0)%nat ->
  (forall g, in_range gs g -> 0 <= f g) -> 0 <= marginal gs d f j.
Proof.
  intros Hd Hj Hf. unfold marginal.
  apply msum_nonneg. intros x1 Hx1. apply msum_nonneg. intros x2 Hx2.
  apply Hf. apply (in_range_split gs x1 x2 d j); assumption.
Qed.

(** A convex combination of values of an interval lies in the interval. *)
Lemma rsum_convex (n : nat) (m a : nat -> R) (lo hi : R) :
  (forall j, (j < n)%nat -> 0 <= m j) -> rsum n m = 1 ->
  (forall j, (j < n)%nat -> lo <= a j <= hi) ->
  lo <= rsum n (fun j => m j * a j) <= hi.
Proof.
  intros Hm Hs Ha. split.
  - replace lo with (rsum n m * lo) by (rewrite Hs; lra).
    rewrite <- rsum_scale_r. apply rsum_le. intros j Hj.
    apply Rmult_le_compat_l; [apply Hm; assumption | apply Ha; assumption].
  - replace hi with (rsum n m * hi) by (rewrite Hs; lra).
    rewrite <- rsum_scale_r. apply rsum_le. intros j Hj.
    apply Rmult_le_compat_l; [apply Hm; assumption | apply Ha; assumption].
Qed.

(** C9: on heatmaps that are probability distributions, every component of
    the coordinate vectors of [dsnt] lies between [-(l-1)/l] and [(l-1)/l]
    for the length [l] of its axis, hence strictly between -1 and 1. *)
Theorem dsnt_bounds (bs gs : list nat) (h : tensor) :
  shape h = bs ++ gs -> (1 <= length gs)%nat -> (0 < prod bs)%nat ->
  is_heatmap bs gs h ->
  exists r,
    dsnt h (length gs) = Ok r /\
    forall p k, in_range bs p -> (k < length gs)%nat ->
      let l := INR (nth (length gs - 1 - k) gs 0%nat) in
      (- (l - 1) / l <= item r (out_idx bs p ++ [k]) <= (l - 1) / l) /\
      (-1 < item r (out_idx bs p ++ [k]) < 1).
Proof.
  intros Hs Hn Hb Hh.
  assert (Hg : (0 < prod gs)%nat).
  { destruct (Hh _ (prod_pos_in_range bs Hb)) as [_ Hsum].
    destruct (Nat.eq_dec (prod gs) 0) as [E|E]; [| lia].
    rewrite msum_zero_extent in Hsum by assumption. lra. }
  destruct (dsnt_spec bs gs h Hs Hb Hg Hn) as (r & Hr & Hsr & _ & Hitem).
  exists r. split; [exact Hr |].
  intros p k Hp Hk.
  destruct (Hitem p k Hp Hk) as (axis & Hax & Hval).
  destruct (Hh p Hp) as [Hnn Hsum].
  set (d := (length gs - 1 - k)%nat) in *.
  assert (Hd : (d < length gs)%nat) by (unfold d; lia).
  set (L := nth d gs 0%nat) in *.
  assert (HL : (0 < L)%nat).
  { unfold L. destruct (split_at gs d Hd) as (E & _ & _).
    rewrite E, prod_app in Hg. simpl in Hg. nia. }
  intros l.
  assert (Hl : 1 <= l).
  { unfold l. change 1 with (INR 1). apply le_INR. lia. }
  assert (Hrange : - (l - 1) / l <= item r (out_idx bs p ++ [k]) <= (l - 1) / l).
  { rewrite Hval. apply rsum_convex.
    - intros j Hj. apply marginal_nonneg; assumption.
    - unfold L. rewrite rsum_marginal by assumption. exact Hsum.
    - intros j Hj.
      rewrite (normalized_linspace_item (Z.of_nat L) h axis j)
        by (try lia; assumption).
      rewrite <- INR_IZR_INZ. fold l.
      assert (Hj0 : 0 <= INR j) by apply pos_INR.
      assert (Hj1 : INR j <= l - 1).
      { unfold l. replace (INR L - 1) with (INR (L - 1)).
        - apply le_INR. lia.
        - rewrite minus_INR by lia. reflexivity. }
      assert (Hinv : 0 < / l) by (apply Rinv_0_lt_compat; lra).
      unfold Rdiv. split.
      + assert (0 <= INR j * 2 * / l).
        { apply Rmult_le_pos; [lra | lra]. }
        lra.
      + replace ((l - 1) * / l) with (- (l - 1) * / l + (l - 1) * 2 * / l) by lra.
        apply Rplus_le_compat_l. apply Rmult_le_compat_r; lra. }
  split; [exact Hrange |].
  assert (Hinv : 0 < / l) by (apply Rinv_0_lt_compat; lra).
  assert (Hb1 : (l - 1) / l < 1).
  { unfold Rdiv. apply Rlt_le_trans with (l * / l).
    - apply Rmult_lt_compat_r; lra.
    - rewrite Rinv_r by lra. lra. }
  assert (Hb2 : -1 < - (l - 1) / l).
  { replace (- (l - 1) / l) with (- ((l - 1) / l)) by (unfold Rdiv; lra). lra. }
  lra.
Qed.

(** ** The two theorems at a concrete batch *)

Lemma in_range_1 (n : nat) (p : list nat) :
  in_range [n] p -> exists i, p = [i] /\ (i < n)%nat.
Proof.
  intros H. inversion H as [|i n' p' s' Hi Hp]; subst.
  inversion Hp; subst. exists i. split; [reflexivity | assumption].
Qed.

Lemma tensor_eq (s : list nat) (d1 d2 : list R) :
  d1 = d2 -> Ok (mkT s d1) = Ok (mkT s d2).
Proof. intros ->. reflexivity. Qed.

Lemma swapped_pair_one_hot : one_hot [2%nat] [2%nat] swapped_pair swapped_pair_cell.
Proof.
  intros p Hp. destruct (in_range_1 _ _ Hp) as (i & -> & Hi).
  split.
  - destruct i as [|[|i]]; simpl; (constructor; [lia | constructor]).
  - intros g Hg. destruct (in_range_1 _ _ Hg) as (j & -> & Hj).
    destruct i as [|[|i]]; [| | lia]; destruct j as [|[|j]]; try lia; reflexivity.
Qed.

Lemma swapped_pair_is_heatmap : is_heatmap [2%nat] [2%nat] swapped_pair.
Proof.
  intros p Hp. destruct (in_range_1 _ _ Hp) as (i & -> & Hi).
  split.
  - intros g Hg. destruct (in_range_1 _ _ Hg) as (j & -> & Hj).
    destruct i as [|[|i]]; [| | lia]; destruct j as [|[|j]]; try lia;
      cbv; lra.
  - destruct i as [|[|i]]; [| | lia]; cbv; lra.
Qed.

Lemma dsnt_one_hot_witness :
  one_hot [2%nat] [2%nat] swapped_pair swapped_pair_cell /\
  exists r,
    dsnt swapped_pair (length [2%nat]) = Ok r /\
    shape r = out_shape [2%nat] ++ [length [2%nat]] /\
    forall p k, in_range [2%nat] p -> (k < length [2%nat])%nat ->
      exists axis,
        _normalized_linspace
          (Z.of_nat (nth (length [2%nat] - 1 - k) [2%nat] 0%nat)) swapped_pair = Ok axis /\
        item r (out_idx [2%nat] p ++ [k])
        = item axis [nth (length [2%nat] - 1 - k) (swapped_pair_cell p) 0%nat].
Proof.
  split; [exact swapped_pair_one_hot |].
  apply (dsnt_one_hot [2%nat] [2%nat] swapped_pair swapped_pair_cell);
    [reflexivity | simpl; lia | simpl; lia | exact swapped_pair_one_hot].
Defined.

Lemma dsnt_bounds_witness :
  is_heatmap [2%nat] [2%nat] swapped_pair /\
  exists r,
    dsnt swapped_pair (length [2%nat]) = Ok r /\
    forall p k, in_range [2%nat] p -> (k < length [2%nat])%nat ->
      let l := INR (nth (length [2%nat] - 1 - k) [2%nat] 0%nat) in
      (- (l - 1) / l <= item r (out_idx [2%nat] p ++ [k]) <= (l - 1) / l) /\
      (-1 < item r (out_idx [2%nat] p ++ [k]) < 1).
Proof.
  split; [exact swapped_pair_is_heatmap |].
  apply (dsnt_bounds [2%nat] [2%nat] swapped_pair);
    [reflexivity | simpl; lia | simpl; lia | exact swapped_pair_is_heatmap].
Defined.

(** ** The coordinate variance *)

(** C6 at a batch of two one-hot heatmaps of two cells: the variance
    returned is 1 for both samples, where the variance of a one-hot
    distribution is 0.  The means of the two samples, [0.5; -0.5], are
    subtracted entry by entry from the axis [-0.5; 0.5], which has as many
    entries as the batch. *)
Theorem coord_variance_swapped_pair :
  one_hot [2%nat] [2%nat] swapped_pair swapped_pair_cell /\
  _coord_variance swapped_pair (-1) 1 = Ok (mkT [2%nat] [1; 1]).
Proof.
  split; [exact swapped_pair_one_hot |].
  cbv. apply tensor_eq. f_equal; [| f_equal]; field.
Qed.

(** With three samples the subtraction of the three means from the axis of
    two entries raises. *)
Lemma coord_variance_three_samples :
  _coord_variance (mkT [3%nat; 2%nat] [0; 1; 1; 0; 1; 0]) (-1) 1 = Raise RuntimeError.
Proof. cbv. reflexivity. Qed.

(** ** The flat softmax *)

Lemma rsum_add (a b : nat) (F : nat -> R) :
  rsum (a + b) F = rsum a F + rsum b (fun c => F (a + c)%nat).
Proof.
  induction b as [|b IH].
  - rewrite Nat.add_0_r. simpl. lra.
  - replace (a + S b)%nat with (S (a + b)) by lia. simpl. rewrite IH. lra.
Qed.

Lemma rsum_mul (n P : nat) (F : nat -> R) :
  rsum (n * P) F = rsum n (fun k => rsum P (fun c => F (k * P + c)%nat)).
Proof.
  induction n as [|n IH]; simpl.
  - reflexivity.
  - rewrite <- IH. rewrite Nat.add_comm. apply rsum_add.
Qed.

(** Summing over the multi-indices of a shape is summing over the offsets. *)
Lemma msum_ravel (gs : list nat) (F : nat -> R) :
  msum gs (fun g => F (ravel gs g)) = rsum (prod gs) F.
Proof.
  revert F. induction gs as [|n gs IH]; intros F; simpl.
  - lra.
  - rewrite rsum_mul. apply rsum_ext. intros k Hk.
    apply (IH (fun c => F (k * prod gs + c)%nat)).
Qed.

Lemma fold_right_map_seq (n : nat) (f : nat -> R) :
  fold_right Rplus 0 (map f (seq 0 n)) = rsum n f.
Proof.
  induction n as [|n IH].
  - reflexivity.
  - rewrite seq_S, map_app, fold_right_app. simpl.
    rewrite <- IH. clear IH.
    generalize (map f (seq 0 n)). intros l.
    induction l as [|x l IHl]; simpl; [lra | rewrite IHl; lra].
Qed.

Lemma reduce_mul_prod (s : list nat) :
  s <> [] -> reduce (fun a b => Ok (a * b)%nat) s = Ok (prod s).
Proof.
  destruct s as [|x s]; [contradiction |]. intros _. simpl.
  revert x. induction s as [|y s IH]; intros x; simpl.
  - f_equal. lia.
  - rewrite IH. f_equal. lia.
Qed.

Lemma softmax_matrix (t : tensor) (n m : nat) :
  shape t = [n; m] ->
  exists out, softmax t = Ok out /\ shape out = [n; m] /\ wf out /\
    forall r, (r < n)%nat ->
      exists mx, forall c, (c < m)%nat ->
        item out [r; c]
        = exp (item t [r; c] - mx) / rsum m (fun j => exp (item t [r; j] - mx)).
Proof.
  intros Hs. unfold softmax. rewrite Hs.
  eexists. split; [reflexivity |]. split; [reflexivity |]. split; [apply wf_tabulate |].
  intros r Hr.
  exists (rmax_list (map (fun j => item t [r; j]) (seq 0 m))).
  intros c Hc.
  rewrite item_tabulate by (repeat constructor; assumption).
  cbn [nth]. f_equal.
  rewrite map_map, fold_right_map_seq. reflexivity.
Qed.

Lemma flat_softmax_spec (bs gs : list nat) (inp : tensor) :
  shape inp = bs ++ gs -> (1 <= length gs)%nat -> (0 < prod gs)%nat ->
  exists out,
    flat_softmax inp (length gs) = Ok out /\
    shape out = shape inp /\ wf out /\
    (forall p g, in_range bs p -> in_range gs g -> 0 < item out (p ++ g)) /\
    (forall p, in_range bs p -> msum gs (fun g => item out (p ++ g)) = 1) /\
    (forall p g, in_range bs p -> in_range gs g ->
       item out (p ++ g)
       = exp (item inp (p ++ g)) / msum gs (fun g' => exp (item inp (p ++ g')))).
Proof.
  intros Hs Hn Hg. unfold flat_softmax.
  rewrite Hs, slice_from_neg_app by lia.
  rewrite reduce_mul_prod by (destruct gs; [simpl in Hn; lia | discriminate]).
  cbn [bind].
  assert (Hnum : numel inp = (prod bs * prod gs)%nat).
  { unfold numel. rewrite Hs. apply prod_app. }
  change [(-1)%Z; Z.of_nat (prod gs)] with ((-1)%Z :: map Z.of_nat [prod gs]).
  unfold view at 1. rewrite Hnum.
  rewrite view_shape_infer_head;
    [| simpl; lia | simpl; rewrite Nat.mul_1_r; apply Nat.Div0.mod_mul].
  cbn [bind]. replace (prod bs * prod gs / prod [prod gs])%nat with (prod bs)
    by (simpl; rewrite Nat.mul_1_r, Nat.div_mul; lia).
  set (flat := mkT [prod bs; prod gs] (data inp)).
  destruct (softmax_matrix flat (prod bs) (prod gs) eq_refl)
    as (sm & Hsm & Hss & Hws & Hitem).
  rewrite Hsm. cbn [bind].
  rewrite view_exact.
  2:{ unfold numel. rewrite Hss. rewrite prod_app. simpl. lia. }
  eexists. split; [reflexivity |]. cbn [shape].
  split; [reflexivity |].
  split.
  { unfold wf. cbn [shape data]. rewrite Hws, Hss, prod_app. simpl. lia. }
  assert (Hread : forall p g, in_range bs p -> in_range gs g ->
            item (mkT (bs ++ gs) (data sm)) (p ++ g)
            = item sm [ravel bs p; ravel gs g]).
  { intros p g Hp Hgr. unfold item. cbn [shape data]. rewrite Hss.
    rewrite ravel_app by (apply in_range_length; assumption).
    f_equal. simpl. lia. }
  assert (Hden : forall r mx, 0 < rsum (prod gs) (fun j => exp (item flat [r; j] - mx))).
  { intros r mx. apply rsum_pos; [assumption |]. intros j Hj. apply exp_pos. }
  split; [| split].
  - intros p g Hp Hgr. rewrite Hread by assumption.
    destruct (Hitem (ravel bs p)) as (mx & Hmx); [apply ravel_lt; assumption |].
    rewrite Hmx by (apply ravel_lt; assumption).
    apply Rdiv_lt_0_compat; [apply exp_pos | apply Hden].
  - intros p Hp.
    pose proof (ravel_lt bs p Hp) as Hr.
    rewrite (msum_ext gs _ (fun g => item sm [ravel bs p; ravel gs g]))
      by (intros g Hgr; apply Hread; assumption).
    rewrite (msum_ravel gs (fun c => item sm [ravel bs p; c])).
    destruct (Hitem (ravel bs p) Hr) as (mx & Hmx).
    rewrite (rsum_ext _ _ _ Hmx).
    unfold Rdiv. rewrite rsum_scale_r.
    apply Rinv_r. apply Rgt_not_eq, Hden.
  - intros p g Hp Hgr. rewrite Hread by assumption.
    pose proof (ravel_lt bs p Hp) as Hr.
    destruct (Hitem (ravel bs p) Hr) as (mx & Hmx).
    rewrite Hmx by (apply ravel_lt; assumption).
    assert (Hflat : forall g', in_range gs g' ->
              item flat [ravel bs p; ravel gs g'] = item inp (p ++ g')).
    { intros g' Hg'. unfold item, flat. cbn [shape data]. rewrite Hs.
      rewrite ravel_app by (apply in_range_length; assumption).
      f_equal. simpl. lia. }
    rewrite (msum_ext gs _ (fun g' => exp (item flat [ravel bs p; ravel gs g'])))
      by (intros g' Hg'; rewrite Hflat by assumption; reflexivity).
    rewrite (msum_ravel gs (fun c => exp (item flat [ravel bs p; c]))).
    rewrite <- Hflat by assumption.
    rewrite (rsum_ext _ (fun j => exp (item flat [ravel bs p; j] - mx))
               (fun j => exp (item flat [ravel bs p; j]) * exp (- mx)))
      by (intros j Hj; unfold Rminus; apply exp_plus).
    rewrite rsum_scale_r. unfold Rminus. rewrite exp_plus.
    assert (H0 : 0 < rsum (prod gs) (fun j => exp (item flat [ravel bs p; j]))).
    { apply rsum_pos; [assumption |]. intros j Hj. apply exp_pos. }
    pose proof (exp_pos (- mx)).
    field. split; lra.
Qed.

(** The storage-level function computes the value-level one and writes to
    a new storage only. *)
Lemma flat_softmax_ref_refines (m : heap) (inp : tref) (ndims : nat) :
  match flat_softmax_ref m inp ndims with
  | Ok om =>
      flat_softmax (deref m inp) ndims = Ok (deref (snd om) (fst om)) /\
      storage (fst om) = length m /\
      exists d, snd om = m ++ [d]
  | Raise e => flat_softmax (deref m inp) ndims = Raise e
  end.
Proof.
  unfold flat_softmax_ref, flat_softmax, view_ref, view, numel, softmax_ref, deref.
  cbn [shape data ref_shape storage].
  destruct (reduce _ _) as [k|e]; cbn [bind]; [| reflexivity].
  destruct (view_shape (prod (ref_shape inp)) _) as [s|e];
    cbn [bind shape data ref_shape storage]; [| reflexivity].
  destruct (softmax _) as [sm|e];
    cbn [bind fst snd shape data ref_shape storage]; [| reflexivity].
  destruct (view_shape (prod (shape sm)) _) as [s'|e];
    cbn [bind fst snd shape data ref_shape storage]; [| reflexivity].
  split; [| split; [reflexivity | eexists; reflexivity]].
  rewrite app_nth2 by lia. rewrite Nat.sub_diag. reflexivity.
Qed.

(** C8: on activations of shape [bs ++ gs] with [ndims] grid axes of
    positive extent, [flat_softmax] returns a tensor of the shape of its
    input whose entries are positive and sum to 1 over the grid for every
    leading index; the result is in a new storage, and the input reads the
    same after the call as before. *)
Theorem flat_softmax_heatmap (bs gs : list nat) (m : heap) (inp : tref) :
  ref_shape inp = bs ++ gs -> (1 <= length gs)%nat -> (0 < prod gs)%nat ->
  (storage inp < length m)%nat ->
  exists out m',
    flat_softmax_ref m inp (length gs) = Ok (out, m') /\
    flat_softmax (deref m inp) (length gs) = Ok (deref m' out) /\
    ref_shape out = ref_shape inp /\
    (forall p g, in_range bs p -> in_range gs g ->
       0 <= item (deref m' out) (p ++ g)) /\
    (forall p, in_range bs p ->
       msum gs (fun g => item (deref m' out) (p ++ g)) = 1) /\
    storage out <> storage inp /\
    deref m' inp = deref m inp.
Proof.
  intros Hs Hn Hg Hst.
  destruct (flat_softmax_spec bs gs (deref m inp) Hs Hn Hg)
    as (v & Hv & Hsv & _ & Hpos & Hsum & _).
  pose proof (flat_softmax_ref_refines m inp (length gs)) as Href.
  destruct (flat_softmax_ref m inp (length gs)) as [[out m']|e].
  - cbn [fst snd] in Href. destruct Href as (Hval & Hso & d & Hm').
    rewrite Hv in Hval. injection Hval as Hval.
    exists out, m'. split; [reflexivity |].
    split; [rewrite Hv, Hval; reflexivity |].
    rewrite <- Hval.
    split; [rewrite Hval in Hsv; exact Hsv |].
    split; [intros p g Hp Hgr; apply Rlt_le, Hpos; assumption |].
    split; [exact Hsum |].
    split; [lia |].
    unfold deref. rewrite Hm'. rewrite app_nth1 by assumption. reflexivity.
  - rewrite Hv in Href. discriminate.
Qed.

Lemma flat_softmax_heatmap_witness :
  (storage (mkRef 0 [2%nat; 2%nat]) < length [[1; 2; 3; 4]])%nat /\
  exists out m',
    flat_softmax_ref [[1; 2; 3; 4]] (mkRef 0 [2%nat; 2%nat]) (length [2%nat])
    = Ok (out, m') /\
    flat_softmax (deref [[1; 2; 3; 4]] (mkRef 0 [2%nat; 2%nat])) (length [2%nat])
    = Ok (deref m' out) /\
    ref_shape out = ref_shape (mkRef 0 [2%nat; 2%nat]) /\
    (forall p g, in_range [2%nat] p -> in_range [2%nat] g ->
       0 <= item (deref m' out) (p ++ g)) /\
    (forall p, in_range [2%nat] p ->
       msum [2%nat] (fun g => item (deref m' out) (p ++ g)) = 1) /\
    storage out <> storage (mkRef 0 [2%nat; 2%nat]) /\
    deref m' (mkRef 0 [2%nat; 2%nat]) = deref [[1; 2; 3; 4]] (mkRef 0 [2%nat; 2%nat]).
Proof.
  split; [simpl; lia |].
  apply (flat_softmax_heatmap [2%nat] [2%nat] [[1; 2; 3; 4]] (mkRef 0 [2%nat; 2%nat]));
    [reflexivity | simpl; lia | simpl; lia | simpl; lia].
Defined.

(** ** [make_gauss] and the sign of [sigma] *)

Lemma make_gauss_parts (means : tensor) (size : list Z) (sigma : R) (normalize : bool) :
  make_gauss means size sigma normalize =
  (coords_list <- mapM (fun s => _normalized_linspace s means) (rev size) ;;
   mean_list <- split1 means (-1) ;;
   dists <- mapM (fun xm => d <- sub (fst xm) (snd xm) ;; Ok (pow2 d))
              (combine coords_list mean_list) ;;
   ks <- gauss_ks sigma size ;;
   gauss_tail (range_down (-1) (- (Z.of_nat (length size) + 1))) dists ks normalize).
Proof.
  unfold make_gauss, gauss_ks, gauss_tail.
  destruct (mapM _ (rev size)) as [coords_list|e]; cbn [bind]; [| reflexivity].
  destruct (split1 means (-1)) as [mean_list|e]; cbn [bind]; [| reflexivity].
  destruct (mapM _ (combine coords_list mean_list)) as [dists|e]; cbn [bind];
    [| reflexivity].
  destruct (mapM _ (rev size)) as [stddevs|e]; cbn [bind]; [| reflexivity].
  destruct (mapM _ stddevs) as [ks|e]; cbn [bind]; reflexivity.
Qed.

Lemma truediv_zero (a b : R) : b = 0 -> truediv a b = Raise ZeroDivisionError.
Proof.
  intros H. unfold truediv. destruct (Req_dec_T b 0); [reflexivity | contradiction].
Qed.

Lemma truediv_ok (a b : R) : b <> 0 -> truediv a b = Ok (a / b).
Proof.
  intros H. unfold truediv. destruct (Req_dec_T b 0); [contradiction | reflexivity].
Qed.

Lemma gauss_k_opp (stddev : R) :
  (q <- truediv 1 (- stddev) ;; Ok (- 0.5 * q ^ 2))
  = (q <- truediv 1 stddev ;; Ok (- 0.5 * q ^ 2)).
Proof.
  destruct (Req_dec_T stddev 0) as [E|E].
  - subst. rewrite Ropp_0. reflexivity.
  - rewrite !truediv_ok by lra. cbn [bind]. f_equal. field. assumption.
Qed.

Lemma stddevs_opp (sigma : R) (l : list Z) :
  mapM (fun s => truediv_int (2 * - sigma) s) l =
  match mapM (fun s => truediv_int (2 * sigma) s) l with
  | Ok stddevs => Ok (map Ropp stddevs)
  | Raise e => Raise e
  end.
Proof.
  induction l as [|s l IH]; simpl.
  - reflexivity.
  - destruct (Z.eq_dec s 0) as [E|E].
    + subst s. rewrite !truediv_int_zero. reflexivity.
    + rewrite !truediv_int_ok by assumption. cbn [bind].
      rewrite IH. clear IH.
      destruct (mapM (fun s0 => truediv_int (2 * sigma) s0) l) as [ys|e]; cbn [bind];
        [| reflexivity].
      simpl. f_equal. f_equal. field. apply not_0_IZR. assumption.
Qed.

Lemma gauss_ks_opp (sigma : R) (size : list Z) :
  gauss_ks (- sigma) size = gauss_ks sigma size.
Proof.
  unfold gauss_ks. rewrite stddevs_opp.
  destruct (mapM _ (rev size)) as [stddevs|e]; cbn [bind]; [| reflexivity].
  induction stddevs as [|y ys IH]; cbn [map mapM].
  - reflexivity.
  - rewrite gauss_k_opp, IH. reflexivity.
Qed.

(** C10: [make_gauss] at [-sigma] is [make_gauss] at [sigma], for every
    [sigma] and so for every nonzero one, whatever the means, the size and
    the flag; hence a negative [sigma] gives what its absolute value
    gives. *)
Theorem make_gauss_sigma_sign (means : tensor) (size : list Z) (sigma : R)
  (normalize : bool) :
  make_gauss means size (- sigma) normalize = make_gauss means size sigma normalize /\
  make_gauss means size sigma normalize = make_gauss means size (Rabs sigma) normalize.
Proof.
  assert (H : make_gauss means size (- sigma) normalize
              = make_gauss means size sigma normalize).
  { rewrite !make_gauss_parts, gauss_ks_opp. reflexivity. }
  split; [exact H |].
  unfold Rabs. destruct (Rcase_abs sigma); [symmetry; exact H | reflexivity].
Qed.

(** ** Parameters outside their range *)

Lemma gauss_ks_zero (size : list Z) :
  size <> [] -> gauss_ks 0 size = Raise ZeroDivisionError.
Proof.
  intros H. unfold gauss_ks.
  assert (Hr : rev size <> []).
  { intros C. apply H. rewrite <- (rev_involutive size), C. reflexivity. }
  destruct (rev size) as [|s l]; [contradiction |]. clear H Hr.
  assert (Hall : forall l, match mapM (fun s => truediv_int (2 * 0) s) l with
                           | Ok ys => Forall (fun y => y = 0) ys
                           | Raise e => e = ZeroDivisionError
                           end).
  { clear. induction l as [|s l IH]; simpl; [constructor |].
    destruct (Z.eq_dec s 0) as [E|E].
    - subst s. rewrite truediv_int_zero. reflexivity.
    - rewrite truediv_int_ok by assumption. cbn [bind].
      destruct (mapM _ l) as [ys|e]; cbn [bind]; [| assumption].
      constructor; [| assumption]. unfold Rdiv. lra. }
  specialize (Hall (s :: l)).
  destruct (mapM _ (s :: l)) as [ys|e] eqn:E; cbn [bind].
  - destruct ys as [|y ys].
    + simpl in E. destruct (truediv_int (2 * 0) s); cbn [bind] in E; [| discriminate].
      destruct (mapM _ l); discriminate.
    + inversion Hall; subst. simpl. rewrite truediv_zero by reflexivity. reflexivity.
  - subst e. reflexivity.
Qed.

Lemma make_gauss_sigma_zero (means : tensor) (size : list Z) (normalize : bool) :
  exists e, make_gauss means size 0 normalize = Raise e.
Proof.
  rewrite make_gauss_parts.
  destruct (mapM _ (rev size)) as [coords_list|e]; cbn [bind]; [| eexists; reflexivity].
  destruct (split1 means (-1)) as [mean_list|e]; cbn [bind]; [| eexists; reflexivity].
  destruct (mapM _ (combine coords_list mean_list)) as [dists|e]; cbn [bind];
    [| eexists; reflexivity].
  destruct size as [|s size].
  - exists TypeError. reflexivity.
  - rewrite gauss_ks_zero by discriminate. eexists. reflexivity.
Qed.

(** ** Broadcasting tensors whose shapes are a grid with some axes of extent 1 *)

Lemma bdim_one_l (x : nat) : bdim 1 x = Ok x.
Proof.
  unfold bdim. destruct (Nat.eqb_spec 1 x) as [E|E]; [subst; reflexivity |].
  reflexivity.
Qed.

Lemma zip_bdim_app (a1 a2 b1 b2 : list nat) :
  length a1 = length b1 ->
  zip_bdim (a1 ++ a2) (b1 ++ b2) =
  (r1 <- zip_bdim a1 b1 ;; r2 <- zip_bdim a2 b2 ;; Ok (r1 ++ r2)).
Proof.
  revert b1. induction a1 as [|x a1 IH]; intros [|y b1] H; simpl in *; try discriminate.
  - destruct (zip_bdim a2 b2); reflexivity.
  - destruct (bdim x y); cbn [bind]; [| reflexivity].
    rewrite IH by lia.
    destruct (zip_bdim a1 b1); cbn [bind]; [| reflexivity].
    destruct (zip_bdim a2 b2); reflexivity.
Qed.

Lemma zip_bdim_rshape (r1 r2 : list bool) (gs : list nat) :
  length r1 = length gs -> length r2 = length gs ->
  zip_bdim (rshape r1 gs) (rshape r2 gs)
  = Ok (rshape (map (fun ab => fst ab && snd ab) (combine r1 r2)) gs).
Proof.
  revert r1 r2. induction gs as [|n gs IH]; intros [|a r1] [|b r2] H1 H2;
    simpl in *; try discriminate.
  - reflexivity.
  - rewrite IH by lia.
    destruct a, b; simpl;
      rewrite ?bdim_same, ?bdim_one_l, ?bdim_one_r; reflexivity.
Qed.

Lemma broadcast_shape_rshape (bs gs : list nat) (r1 r2 : list bool) :
  length r1 = length gs -> length r2 = length gs ->
  broadcast_shape (bs ++ rshape r1 gs) (bs ++ rshape r2 gs)
  = Ok (bs ++ rshape (map (fun ab => fst ab && snd ab) (combine r1 r2)) gs).
Proof.
  intros H1 H2. unfold broadcast_shape.
  rewrite !length_app, !rshape_length by assumption.
  rewrite Nat.max_id.
  rewrite <- (rshape_length r1 gs H1) at 1.
  rewrite <- length_app, pad_self.
  rewrite <- (rshape_length r2 gs H2) at 1.
  rewrite <- length_app, pad_self.
  rewrite zip_bdim_app by reflexivity.
  rewrite zip_bdim_same, zip_bdim_rshape by assumption. reflexivity.
Qed.

Lemma mask_length (r : list bool) (g : list nat) :
  length r = length g -> length (mask r g) = length g.
Proof.
  revert g. induction r as [|a r IH]; intros [|i g] H; simpl in *; try discriminate.
  - reflexivity.
  - rewrite IH by lia. reflexivity.
Qed.

Lemma in_range_mask (r : list bool) (gs g : list nat) :
  length r = length gs -> in_range gs g -> in_range (rshape r gs) (mask r g).
Proof.
  intros Hl H. revert r Hl. induction H as [|i n g gs Hi H IH]; intros [|a r] Hl;
    simpl in *; try discriminate.
  - constructor.
  - constructor; [destruct a; lia | apply IH; lia].
Qed.

Lemma in_range_mask_full (r : list bool) (gs g : list nat) :
  in_range gs g -> length r = length gs -> in_range gs (mask r g).
Proof.
  intros H. revert r. induction H as [|i n g gs Hi H IH]; intros [|a r] Hl;
    simpl in *; try discriminate.
  - constructor.
  - constructor; [destruct a; lia | apply IH; lia].
Qed.

Lemma mask_mask (r r' : list bool) (g : list nat) :
  length r = length g -> length r' = length g ->
  mask r (mask r' g) = mask (map (fun ab => fst ab || snd ab) (combine r r')) g.
Proof.
  revert r r'. induction g as [|i g IH]; intros [|a r] [|b r'] H1 H2;
    simpl in *; try discriminate.
  - reflexivity.
  - rewrite IH by lia. destruct a, b; reflexivity.
Qed.

Lemma absorb_flags (r1 r2 : list bool) :
  length r1 = length r2 ->
  map (fun ab => fst ab || snd ab)
      (combine r1 (map (fun ab => fst ab && snd ab) (combine r1 r2))) = r1.
Proof.
  revert r2. induction r1 as [|a r1 IH]; intros [|b r2] H; simpl in *; try discriminate.
  - reflexivity.
  - rewrite IH by lia. destruct a, b; reflexivity.
Qed.

Lemma and_flags_comm (r1 r2 : list bool) :
  map (fun ab => fst ab && snd ab) (combine r1 r2)
  = map (fun ab => fst ab && snd ab) (combine r2 r1).
Proof.
  revert r2. induction r1 as [|a r1 IH]; intros [|b r2]; simpl; try reflexivity.
  rewrite IH. destruct a, b; reflexivity.
Qed.

Lemma and_flags_length (r1 r2 : list bool) :
  length r1 = length r2 ->
  length (map (fun ab => fst ab && snd ab) (combine r1 r2)) = length r1.
Proof. intros H. rewrite length_map, length_combine. lia. Qed.

(** Where an operand of shape [bs ++ rshape r gs] is read. *)
Lemma bproj_rshape (bs gs p g : list nat) (r : list bool) :
  length r = length gs -> in_range bs p -> in_range gs g ->
  bproj (bs ++ rshape r gs) (p ++ g) = p ++ mask r g.
Proof.
  intros Hl Hp Hg. unfold bproj.
  rewrite !length_app, rshape_length by assumption.
  rewrite (in_range_length _ _ Hp), (in_range_length _ _ Hg), Nat.sub_diag.
  cbn [skipn].
  induction Hp as [|i n p bs Hi Hp IH]; simpl.
  - revert r Hl. induction Hg as [|i n g gs Hi Hg IH]; intros [|a r] Hl;
      simpl in *; try discriminate.
    + reflexivity.
    + rewrite IH by lia. destruct a; simpl.
      * reflexivity.
      * destruct (Nat.eqb_spec n 1); [f_equal; lia | reflexivity].
  - rewrite IH. destruct (Nat.eqb_spec n 1); [f_equal; lia | reflexivity].
Qed.

Lemma map2b_rshape (f : R -> R -> R) (bs gs : list nat) (r1 r2 : list bool)
  (a b : tensor) :
  shape a = bs ++ rshape r1 gs -> shape b = bs ++ rshape r2 gs ->
  length r1 = length gs -> length r2 = length gs ->
  exists c,
    map2b f a b = Ok c /\ wf c /\
    shape c = bs ++ rshape (map (fun ab => fst ab && snd ab) (combine r1 r2)) gs /\
    forall p g, in_range bs p -> in_range gs g ->
      item c (p ++ mask (map (fun ab => fst ab && snd ab) (combine r1 r2)) g)
      = f (item a (p ++ mask r1 g)) (item b (p ++ mask r2 g)).
Proof.
  intros Ha Hb H1 H2. unfold map2b.
  rewrite Ha, Hb, broadcast_shape_rshape by assumption. cbn [bind].
  set (r := map (fun ab => fst ab && snd ab) (combine r1 r2)).
  assert (Hr : length r = length gs).
  { unfold r. rewrite and_flags_length; congruence. }
  eexists. split; [reflexivity |]. split; [apply wf_tabulate |].
  split; [reflexivity |].
  intros p g Hp Hg.
  rewrite item_tabulate
    by (apply in_range_app; [assumption | apply in_range_mask; assumption]).
  assert (Hm : in_range gs (mask r g)) by (apply in_range_mask_full; assumption).
  rewrite !bproj_rshape by assumption.
  pose proof (in_range_length _ _ Hg) as Hlg.
  rewrite !mask_mask by congruence.
  unfold r. rewrite absorb_flags by congruence.
  rewrite and_flags_comm, absorb_flags by congruence. reflexivity.
Qed.

(** ** The product of the per-axis factors *)

Lemma and_flags_flags (P Q : nat -> bool) (n : nat) :
  map (fun ab => fst ab && snd ab) (combine (flags P n) (flags Q n))
  = flags (fun a => P a && Q a) n.
Proof.
  unfold flags. generalize 0%nat. induction n as [|n IH]; intros s; simpl.
  - reflexivity.
  - rewrite IH. reflexivity.
Qed.

Lemma mask_app (r1 r2 : list bool) (g1 g2 : list nat) :
  length r1 = length g1 -> mask (r1 ++ r2) (g1 ++ g2) = mask r1 g1 ++ mask r2 g2.
Proof.
  revert g1. induction r1 as [|a r1 IH]; intros [|i g1] H; simpl in *; try discriminate.
  - reflexivity.
  - rewrite IH by lia. reflexivity.
Qed.

Lemma mask_all_true (g : list nat) :
  mask (repeat true (length g)) g = repeat 0%nat (length g).
Proof. induction g as [|i g IH]; simpl; [reflexivity | rewrite IH; reflexivity]. Qed.

Lemma mask_all_false (g : list nat) : mask (repeat false (length g)) g = g.
Proof. induction g as [|i g IH]; simpl; [reflexivity | rewrite IH; reflexivity]. Qed.

Lemma mask_all_true_len (g : list nat) (n : nat) :
  length g = n -> mask (repeat true n) g = repeat 0%nat n.
Proof. intros <-. apply mask_all_true. Qed.

Lemma mask_all_but (g : list nat) (d : nat) :
  (d < length g)%nat ->
  mask (all_but d (length g)) g = unit_idx d (length g) (nth d g 0%nat).
Proof.
  intros H. unfold all_but, unit_idx.
  destruct (split_at g d H) as (E & L1 & L2).
  rewrite E at 2. rewrite mask_app by (rewrite repeat_length; lia).
  cbn [mask]. rewrite !mask_all_true_len by assumption. reflexivity.
Qed.

Lemma gauss_product_step (bs gs : list nat) (e : nat -> list nat -> nat -> R)
  (k : nat) (P F : tensor) :
  gauss_partial bs gs e k P ->
  gauss_factor bs gs (e (S k)) (length gs - 1 - S k) F ->
  (S k < length gs)%nat ->
  exists P', mul P F = Ok P' /\ gauss_partial bs gs e (S k) P'.
Proof.
  intros [HsP HiP] [HsF HiF] Hk.
  set (n := length gs) in *.
  set (d := (n - 1 - S k)%nat) in *.
  assert (Hd : (d < n)%nat) by (unfold d; lia).
  rewrite <- flags_all_but in HsF by assumption.
  destruct (map2b_rshape Rmult bs gs _ _ P F HsP HsF)
    as (P' & HP' & _ & HsP' & HiP');
    [apply flags_length | apply flags_length |].
  exists P'. split; [exact HP' |].
  rewrite and_flags_flags in HsP', HiP'.
  assert (Hf : flags (fun a => (a <? n - 1 - k) && negb (a =? d)) n
               = flags (fun a => a <? n - 1 - S k) n).
  { apply flags_ext. intros a Ha. unfold d.
    destruct (Nat.ltb_spec a (n - 1 - k)), (Nat.ltb_spec a (n - 1 - S k)),
      (Nat.eqb_spec a (n - 1 - S k)); simpl; try reflexivity; lia. }
  rewrite Hf in HsP', HiP'.
  split; [exact HsP' |].
  intros p g Hp Hg. rewrite HiP' by assumption.
  rewrite HiP by assumption.
  cbn [rprod]. f_equal. fold d.
  rewrite flags_all_but by assumption.
  pose proof (in_range_length _ _ Hg) as Hlg. fold n in Hlg.
  pose proof (mask_all_but g d) as Hm. rewrite Hlg in Hm.
  rewrite Hm by assumption. apply HiF; [assumption |].
  apply in_range_nth; [assumption | exact Hd].
Qed.

Lemma gauss_product_loop (bs gs : list nat) (e : nat -> list nat -> nat -> R)
  (dflt : tensor) (fs : list tensor) :
  forall k P,
    gauss_partial bs gs e k P ->
    (k + 1 + length fs = length gs)%nat ->
    (forall j, (j < length fs)%nat ->
       gauss_factor bs gs (e (k + 1 + j)%nat) (length gs - 1 - (k + 1 + j)) (nth j fs dflt)) ->
    exists T, reduce_init mul fs P = Ok T /\ gauss_partial bs gs e (length gs - 1) T.
Proof.
  induction fs as [|F fs IH]; intros k P HP Hlen Hfs; simpl in *.
  - exists P. split; [reflexivity |].
    replace (length gs - 1)%nat with k by lia. exact HP.
  - destruct (gauss_product_step bs gs e k P F HP) as (P' & HP' & Hpart).
    + specialize (Hfs 0%nat). simpl in Hfs.
      replace (k + 1 + 0)%nat with (S k) in Hfs by lia. apply Hfs. lia.
    + lia.
    + rewrite HP'. cbn [bind]. apply (IH (S k) P' Hpart); [lia |].
      intros j Hj. specialize (Hfs (S j)). simpl in Hfs.
      replace (S k + 1 + j)%nat with (k + 1 + S j)%nat by lia. apply Hfs. lia.
Qed.

Lemma gauss_product (bs gs : list nat) (e : nat -> list nat -> nat -> R)
  (dflt : tensor) (fs : list tensor) :
  length fs = length gs -> (1 <= length gs)%nat ->
  (forall i, (i < length gs)%nat ->
     gauss_factor bs gs (e i) (length gs - 1 - i) (nth i fs dflt)) ->
  exists T,
    reduce mul fs = Ok T /\ shape T = bs ++ gs /\
    forall p g, in_range bs p -> in_range gs g ->
      item T (p ++ g) = rprod (length gs) (fun i => e i p (nth (length gs - 1 - i) g 0%nat)).
Proof.
  intros Hlen Hn Hfs.
  destruct fs as [|F0 fs]; [simpl in Hlen; lia |].
  simpl in Hlen.
  assert (H0 : gauss_partial bs gs e 0 F0).
  { destruct (Hfs 0%nat) as [Hs Hi]; [lia |]. simpl in Hs, Hi.
    assert (Hd : (length gs - 1 - 0 < length gs)%nat) by lia.
    assert (Hf : all_but (length gs - 1 - 0) (length gs)
                 = flags (fun a => a <? length gs - 1 - 0) (length gs)).
    { rewrite <- flags_all_but by assumption. apply flags_ext. intros a Ha.
      destruct (Nat.ltb_spec a (length gs - 1 - 0)),
        (Nat.eqb_spec a (length gs - 1 - 0)); simpl; try reflexivity; lia. }
    split.
    - rewrite <- Hf. exact Hs.
    - intros p g Hp Hg. rewrite <- Hf.
      pose proof (in_range_length _ _ Hg) as Hlg.
      rewrite <- Hlg at 2. rewrite mask_all_but by lia. rewrite Hlg.
      rewrite Hi; [simpl; lra | assumption |].
      apply in_range_nth; assumption. }
  destruct (gauss_product_loop bs gs e dflt fs 0%nat F0 H0) as (T & HT & Hs & Hi).
  - lia.
  - intros j Hj. specialize (Hfs (S j)). simpl in Hfs.
    replace (0 + 1 + j)%nat with (S j) by lia. apply Hfs. lia.
  - exists T. split; [exact HT |].
    assert (Hf : flags (fun a => a <? length gs - 1 - (length gs - 1)) (length gs)
                 = repeat false (length gs)).
    { rewrite <- flags_false. apply flags_ext. intros a Ha.
      destruct (Nat.ltb_spec a (length gs - 1 - (length gs - 1))); [lia | reflexivity]. }
    rewrite Hf in Hs, Hi. rewrite rshape_all_false in Hs.
    split; [exact Hs |].
    intros p g Hp Hg. specialize (Hi p g Hp Hg).
    pose proof (in_range_length _ _ Hg) as Hlg.
    rewrite <- Hlg in Hi at 1. rewrite mask_all_false in Hi.
    rewrite Hi. replace (S (length gs - 1)) with (length gs) by lia. reflexivity.
Qed.

(** ** Unsqueezing a per-axis density to the rank of the grid *)

Lemma reduce_init_app {A B : Type} (f : B -> A -> result B) (l1 l2 : list A) (x : B) :
  reduce_init f (l1 ++ l2) x = (y <- reduce_init f l1 x ;; reduce_init f l2 y).
Proof.
  revert x. induction l1 as [|a l1 IH]; intros x; simpl.
  - reflexivity.
  - destruct (f x a); cbn [bind]; [apply IH | reflexivity].
Qed.

Lemma insert_nth_app_r {A : Type} (a : nat) (v : A) (l1 l2 : list A) :
  insert_nth (length l1 + a) v (l1 ++ l2) = l1 ++ insert_nth a v l2.
Proof.
  unfold insert_nth. induction l1 as [|x l1 IH]; simpl.
  - reflexivity.
  - simpl in IH. rewrite IH. reflexivity.
Qed.

Lemma unsqueeze_neg (s : list nat) (d : list R) (j : nat) :
  (j <= length s)%nat ->
  unsqueeze (mkT s d) (-1 - Z.of_nat j) = Ok (mkT (insert_nth (length s - j) 1%nat s) d).
Proof.
  intros H. unfold unsqueeze. cbn [shape data].
  rewrite norm_index_neg by lia. cbn [bind].
  replace (Z.to_nat (-1 - Z.of_nat j + Z.of_nat (S (length s)))) with (length s - j)%nat
    by lia.
  reflexivity.
Qed.

Lemma unsqueeze_after (pre : list nat) (L : nat) (d : list R) (m : nat) :
  forall j,
    reduce_init unsqueeze (map (fun i => (-1 - Z.of_nat i)%Z) (seq j m))
      (mkT (pre ++ L :: repeat 1%nat j) d)
    = Ok (mkT (pre ++ L :: repeat 1%nat (j + m)) d).
Proof.
  induction m as [|m IH]; intros j; cbn [seq map reduce_init].
  - rewrite Nat.add_0_r. reflexivity.
  - rewrite unsqueeze_neg
      by (rewrite length_app; simpl; rewrite repeat_length; lia).
    cbn [bind].
    replace (length (pre ++ L :: repeat 1%nat j) - j)%nat with (length pre + 1)%nat
      by (rewrite length_app; simpl; rewrite repeat_length; lia).
    rewrite insert_nth_app_r.
    change (insert_nth 1 1%nat (L :: repeat 1%nat j)) with (L :: repeat 1%nat (S j)).
    rewrite IH. f_equal. f_equal. f_equal. f_equal. f_equal. lia.
Qed.

Lemma unsqueeze_before (pre : list nat) (L k : nat) (d : list R) (m : nat) :
  forall i,
    reduce_init unsqueeze (map (fun i => (-1 - Z.of_nat i)%Z) (seq (S k + i) m))
      (mkT (pre ++ repeat 1%nat i ++ L :: repeat 1%nat k) d)
    = Ok (mkT (pre ++ repeat 1%nat (i + m) ++ L :: repeat 1%nat k) d).
Proof.
  induction m as [|m IH]; intros i; cbn [seq map reduce_init].
  - rewrite Nat.add_0_r. reflexivity.
  - rewrite unsqueeze_neg
      by (rewrite !length_app; simpl; rewrite !repeat_length; lia).
    cbn [bind].
    replace (length (pre ++ repeat 1%nat i ++ L :: repeat 1%nat k) - (S k + i))%nat
      with (length pre + 0)%nat
      by (rewrite !length_app; simpl; rewrite !repeat_length; lia).
    rewrite insert_nth_app_r.
    change (insert_nth 0 1%nat (repeat 1%nat i ++ L :: repeat 1%nat k))
      with (repeat 1%nat (S i) ++ L :: repeat 1%nat k).
    replace (S (S k + i)) with (S k + S i)%nat by lia.
    rewrite IH. f_equal. f_equal. f_equal. f_equal. f_equal. lia.
Qed.

Lemma filter_map_all {A B : Type} (p : B -> bool) (f : A -> B) (l : list A) :
  (forall x, In x l -> p (f x) = true) -> filter p (map f l) = map f l.
Proof.
  induction l as [|x l IH]; intros H; simpl.
  - reflexivity.
  - rewrite (H x) by (left; reflexivity). rewrite IH; [reflexivity |].
    intros y Hy. apply H. right. assumption.
Qed.

Lemma filter_dim_range (n k : nat) :
  (k < n)%nat ->
  filter (fun d => negb (d =? -1 - Z.of_nat k)%Z)
         (map (fun i => (-1 - Z.of_nat i)%Z) (seq 0 n))
  = map (fun i => (-1 - Z.of_nat i)%Z) (seq 0 k)
    ++ map (fun i => (-1 - Z.of_nat i)%Z) (seq (S k + 0) (n - S k)).
Proof.
  intros H. replace n with (k + S (n - S k))%nat at 1 by lia.
  rewrite seq_app, map_app, filter_app. cbn [seq map filter].
  rewrite Nat.add_0_l, Z.eqb_refl. cbn [negb]. rewrite Nat.add_0_r.
  rewrite !filter_map_all; [reflexivity | |].
  - intros x Hx. apply in_seq in Hx.
    destruct (Z.eqb_spec (-1 - Z.of_nat x) (-1 - Z.of_nat k)); [lia | reflexivity].
  - intros x Hx. apply in_seq in Hx.
    destruct (Z.eqb_spec (-1 - Z.of_nat x) (-1 - Z.of_nat k)); [lia | reflexivity].
Qed.

Lemma unsqueeze_chain (pre : list nat) (L : nat) (d : list R) (n k : nat) :
  (k < n)%nat ->
  reduce_init unsqueeze
    (filter (fun z => negb (z =? -1 - Z.of_nat k)%Z)
            (map (fun i => (-1 - Z.of_nat i)%Z) (seq 0 n)))
    (mkT (pre ++ [L]) d)
  = Ok (mkT (pre ++ repeat 1%nat (n - S k) ++ L :: repeat 1%nat k) d).
Proof.
  intros H. rewrite filter_dim_range, reduce_init_app by assumption.
  change (pre ++ [L]) with (pre ++ L :: repeat 1%nat 0).
  rewrite (unsqueeze_after pre L d k 0). cbn [bind].
  change (pre ++ L :: repeat 1%nat (0 + k))
    with (pre ++ repeat 1%nat 0 ++ L :: repeat 1%nat k).
  rewrite (unsqueeze_before pre L k d (n - S k) 0). reflexivity.
Qed.

Lemma unsqueeze_factor (bs gs : list nat) (E : tensor) (k : nat) :
  (k < length gs)%nat ->
  shape E = bs ++ [nth (length gs - 1 - k) gs 0%nat] ->
  exists F,
    reduce_init unsqueeze
      (filter (fun z => negb (z =? -1 - Z.of_nat k)%Z)
              (range_down (-1) (- (Z.of_nat (length gs) + 1)))) E = Ok F /\
    gauss_factor bs gs (fun p j => item E (p ++ [j])) (length gs - 1 - k) F.
Proof.
  intros Hk Hs. destruct E as [s d]. cbn [shape] in Hs. subst s.
  rewrite range_down_neg, unsqueeze_chain by assumption.
  eexists. split; [reflexivity |].
  set (dd := (length gs - 1 - k)%nat).
  assert (Hd : (dd < length gs)%nat) by (unfold dd; lia).
  assert (Hshape : bs ++ repeat 1%nat (length gs - S k) ++ nth dd gs 0%nat :: repeat 1%nat k
                   = bs ++ rshape (all_but dd (length gs)) gs).
  { rewrite rshape_all_but by assumption. unfold dd. f_equal. f_equal; [f_equal; lia |].
    f_equal. f_equal. lia. }
  split.
  - cbn [shape]. exact Hshape.
  - intros p j Hp Hj. unfold item. cbn [shape data]. rewrite Hshape. f_equal.
    rewrite !ravel_app by (apply in_range_length; assumption).
    rewrite ravel_unit_idx, prod_rshape_all_but by assumption.
    simpl. lia.
Qed.

(** ** The stages of [make_gauss] *)

Lemma mapM_nth_exists {A B : Type} (f : A -> result B) (da : A) (db : B) (l : list A) :
  forall P : nat -> B -> Prop,
    (forall k, (k < length l)%nat -> exists y, f (nth k l da) = Ok y /\ P k y) ->
    exists ys, mapM f l = Ok ys /\ length ys = length l /\
      forall k, (k < length l)%nat -> P k (nth k ys db).
Proof.
  induction l as [|x l IH]; intros P H; simpl.
  - exists []. split; [reflexivity |]. split; [reflexivity |]. intros k Hk. simpl in Hk. lia.
  - destruct (H 0%nat) as (y & Hy & Py); [simpl; lia |]. simpl in Hy.
    destruct (IH (fun k => P (S k))) as (ys & Hys & Hl & Pys).
    { intros k Hk. apply (H (S k)). simpl. lia. }
    rewrite Hy. cbn [bind]. rewrite Hys. cbn [bind].
    exists (y :: ys). split; [reflexivity |]. split; [simpl; lia |].
    intros [|k] Hk; simpl; [exact Py | apply Pys; simpl in Hk; lia].
Qed.

Lemma mapM_ok {A B : Type} (f : A -> result B) (g : A -> B) (l : list A) :
  (forall x, In x l -> f x = Ok (g x)) -> mapM f l = Ok (map g l).
Proof.
  induction l as [|x l IH]; intros H; simpl.
  - reflexivity.
  - rewrite (H x) by (left; reflexivity). cbn [bind].
    rewrite IH by (intros y Hy; apply H; right; assumption). reflexivity.
Qed.

Lemma item_tmap (f : R -> R) (t : tensor) (idx : list nat) :
  wf t -> in_range (shape t) idx -> item (tmap f t) idx = f (item t idx).
Proof.
  intros Hw Hi. unfold item, tmap. cbn [shape data].
  pose proof (ravel_lt _ _ Hi) as Hlt. rewrite <- Hw in Hlt.
  rewrite (nth_indep _ 0 (f 0)) by (rewrite length_map; assumption).
  apply map_nth.
Qed.

Lemma wf_tmap (f : R -> R) (t : tensor) : wf t -> wf (tmap f t).
Proof. unfold wf, tmap. cbn [shape data]. rewrite length_map. auto. Qed.

Lemma zip_bdim_ones_l (bs : list nat) : zip_bdim (repeat 1%nat (length bs)) bs = Ok bs.
Proof.
  induction bs as [|b bs IH]; simpl; [reflexivity |].
  rewrite bdim_one_l. cbn [bind]. rewrite IH. reflexivity.
Qed.

(** The axis coordinates minus one component of the means. *)
Lemma sub_axis_mean (bs : list nat) (axis mean : tensor) (L : nat) :
  shape axis = [L] -> shape mean = bs ++ [1%nat] ->
  exists D, sub axis mean = Ok D /\ shape D = bs ++ [L] /\ wf D /\
    forall p j, in_range bs p -> (j < L)%nat ->
      item D (p ++ [j]) = item axis [j] - item mean (p ++ [0%nat]).
Proof.
  intros Ha Hm. unfold sub, map2b. rewrite Ha, Hm.
  assert (Hb : broadcast_shape [L] (bs ++ [1%nat]) = Ok (bs ++ [L])).
  { unfold broadcast_shape. rewrite length_app. cbn [length].
    replace (Nat.max 1 (length bs + 1)) with (length bs + 1)%nat by lia.
    unfold pad. rewrite length_app. cbn [length].
    replace (length bs + 1 - 1)%nat with (length bs) by lia.
    rewrite Nat.sub_diag. cbn [repeat app].
    rewrite zip_bdim_app by (apply repeat_length).
    rewrite zip_bdim_ones_l. cbn [bind zip_bdim].
    rewrite bdim_one_r. reflexivity. }
  rewrite Hb. cbn [bind].
  eexists. split; [reflexivity |]. split; [reflexivity |]. split; [apply wf_tabulate |].
  intros p j Hp Hj.
  assert (Hjr : in_range [L] [j]) by (constructor; [assumption | constructor]).
  rewrite item_tabulate by (apply in_range_app; assumption).
  f_equal.
  - f_equal. unfold bproj. rewrite length_app. cbn [length].
    replace (length p + 1 - 1)%nat with (length p + 0)%nat by lia.
    rewrite skipn_app, skipn_all2 by lia.
    replace (length p + 0 - length p)%nat with 0%nat by lia.
    cbn. destruct (Nat.eqb_spec L 1); [f_equal; lia | reflexivity].
  - f_equal.
    apply (bproj_rshape bs [L] p [j] [true]); [reflexivity | assumption | assumption].
Qed.

Lemma split1_last (bs : list nat) (n : nat) (means : tensor) :
  shape means = bs ++ [n] ->
  split1 means (-1)
  = Ok (map (fun k => tabulate (bs ++ [1%nat])
                        (fun idx => item means (set_nth (length bs) k idx)))
            (seq 0 n)).
Proof.
  intros Hs. unfold split1. rewrite Hs, length_app. cbn [length].
  rewrite norm_index_neg by lia. cbn [bind].
  replace (Z.to_nat (-1 + Z.of_nat (length bs + 1))) with (length bs + 0)%nat by lia.
  rewrite set_nth_app_r, app_nth2_plus, Nat.add_0_r. reflexivity.
Qed.

Lemma gauss_ks_ok (sigma : R) (l : list Z) :
  sigma <> 0 -> (forall s, In s l -> (1 <= s)%Z) ->
  (stddevs <- mapM (fun s => truediv_int (2 * sigma) s) l ;;
   mapM (fun stddev => q <- truediv 1 stddev ;; Ok (- 0.5 * q ^ 2)) stddevs)
  = Ok (map (fun s => gauss_k sigma (Z.to_nat s)) l).
Proof.
  intros Hsig Hl.
  rewrite (mapM_ok _ (fun s => 2 * sigma / IZR s)).
  2:{ intros s Hs. apply truediv_int_ok. specialize (Hl s Hs). lia. }
  cbn [bind]. rewrite mapM_map.
  apply mapM_ok. intros s Hs. specialize (Hl s Hs).
  assert (H0 : IZR s <> 0) by (apply not_0_IZR; lia).
  rewrite truediv_ok.
  - cbn [bind]. unfold gauss_k. rewrite INR_IZR_INZ, Z2Nat.id by lia. reflexivity.
  - unfold Rdiv. apply Rmult_integral_contrapositive_currified.
    + lra.
    + apply Rinv_neq_0_compat. assumption.
Qed.

Lemma normalized_axis_item (L j : nat) (t axis : tensor) :
  (1 <= L)%nat -> _normalized_linspace (Z.of_nat L) t = Ok axis -> (j < L)%nat ->
  item axis [j] = cell_coord L j.
Proof.
  intros HL Ha Hj.
  rewrite (normalized_linspace_item (Z.of_nat L) t axis j) by (try lia; assumption).
  unfold cell_coord. rewrite <- INR_IZR_INZ. reflexivity.
Qed.

Lemma gauss_factor_ext (bs gs : list nat) (e1 e2 : list nat -> nat -> R) (d : nat)
  (F : tensor) :
  (forall p j, in_range bs p -> (j < nth d gs 0)%nat -> e1 p j = e2 p j) ->
  gauss_factor bs gs e1 d F -> gauss_factor bs gs e2 d F.
Proof.
  intros H [Hs Hi]. split; [exact Hs |].
  intros p j Hp Hj. rewrite Hi by assumption. apply H; assumption.
Qed.

Lemma nth_rev_size (size : list Z) (k : nat) :
  (k < length size)%nat ->
  Z.to_nat (nth k (rev size) 0%Z)
  = nth (length (map Z.to_nat size) - 1 - k) (map Z.to_nat size) 0%nat.
Proof.
  intros H. rewrite rev_nth by assumption. rewrite length_map.
  replace (length size - 1 - k)%nat with (length size - S k)%nat by lia.
  change 0%nat with (Z.to_nat 0). rewrite map_nth. reflexivity.
Qed.

Lemma nth_map_seq_tensor (g : nat -> tensor) (n k : nat) (d : tensor) :
  (k < n)%nat -> nth k (map g (seq 0 n)) d = g k.
Proof.
  intros H. rewrite (nth_indep _ d (g 0%nat)) by (rewrite length_map, length_seq; lia).
  rewrite map_nth, seq_nth by assumption. reflexivity.
Qed.

(** The Gaussian before normalization, and what [make_gauss] does with it. *)
Lemma make_gauss_gauss (bs : list nat) (means : tensor) (size : list Z) (sigma : R) :
  shape means = bs ++ [length size] -> (1 <= length size)%nat ->
  (forall s, In s size -> (1 <= s)%Z) -> sigma <> 0 ->
  exists gauss,
    shape gauss = bs ++ map Z.to_nat size /\
    (forall p g, in_range bs p -> in_range (map Z.to_nat size) g ->
       item gauss (p ++ g) = gauss_density means sigma (map Z.to_nat size) p g) /\
    forall normalize,
      make_gauss means size sigma normalize =
      if negb normalize then Ok gauss
      else (s <- reduce_init (fun t dim => sum_dim t dim true)
                   (range_down (-1) (- (Z.of_nat (length size) + 1))) gauss ;;
            div gauss (add_scalar s eps24)).
Proof.
  intros Hs Hn Hsize Hsig.
  set (gs := map Z.to_nat size).
  set (n := length size) in *.
  assert (Hgn : length gs = n) by (unfold gs; apply length_map).
  set (dflt := mkT [] []).
  (* the axes *)
  destruct (mapM_nth_exists (fun s => _normalized_linspace s means) 0%Z dflt (rev size)
              (fun k y => _normalized_linspace (nth k (rev size) 0%Z) means = Ok y
                          /\ shape y = [nth (length gs - 1 - k) gs 0%nat]))
    as (coords & Hcoords & Hcl & Hcp).
  { intros k Hk. rewrite length_rev in Hk.
    assert (Hin : In (nth k (rev size) 0%Z) size).
    { apply in_rev. apply nth_In. rewrite length_rev. assumption. }
    destruct (normalized_linspace_shape (nth k (rev size) 0%Z) means (Hsize _ Hin))
      as (vec & Hv & Hsv).
    exists vec. split; [exact Hv |]. split; [exact Hv |].
    rewrite Hsv. unfold gs. rewrite nth_rev_size by assumption. reflexivity. }
  rewrite length_rev in Hcl, Hcp. fold n in Hcl, Hcp.
  (* the squared distances *)
  set (mean_list := map (fun k => tabulate (bs ++ [1%nat])
                          (fun idx => item means (set_nth (length bs) k idx)))
                        (seq 0 n)).
  assert (Hml : length mean_list = n).
  { unfold mean_list. rewrite length_map, length_seq. reflexivity. }
  destruct (mapM_nth_exists
              (fun xm => d <- sub (fst xm) (snd xm) ;; Ok (pow2 d))
              (dflt, dflt) dflt (combine coords mean_list)
              (fun k D =>
                 shape D = bs ++ [nth (length gs - 1 - k) gs 0%nat] /\ wf D /\
                 forall p j, in_range bs p -> (j < nth (length gs - 1 - k) gs 0)%nat ->
                   item D (p ++ [j])
                   = (cell_coord (nth (length gs - 1 - k) gs 0%nat) j
                      - item means (p ++ [k])) ^ 2))
    as (dists & Hdists & Hdl & Hdp).
  { intros k Hk. rewrite length_combine, Hcl, Hml, Nat.min_id in Hk.
    rewrite combine_nth by congruence. cbn [fst snd].
    destruct (Hcp k Hk) as [Hax Hsa].
    unfold mean_list. rewrite nth_map_seq_tensor by assumption.
    destruct (sub_axis_mean bs (nth k coords dflt)
                (tabulate (bs ++ [1%nat])
                   (fun idx => item means (set_nth (length bs) k idx)))
                _ Hsa (shape_tabulate _ _))
      as (D & HD & HsD & HwD & HiD).
    rewrite HD. cbn [bind]. eexists. split; [reflexivity |].
    split; [exact HsD |]. split; [apply wf_tmap; exact HwD |].
    intros p j Hp Hj.
    assert (Hpj : in_range (bs ++ [nth (length gs - 1 - k) gs 0%nat]) (p ++ [j])).
    { apply in_range_app; [assumption | constructor; [assumption | constructor]]. }
    unfold pow2. rewrite item_tmap by (try rewrite HsD; assumption).
    rewrite HiD by assumption. f_equal. f_equal.
    - assert (HL : (1 <= nth (length gs - 1 - k) gs 0)%nat) by lia.
      apply (normalized_axis_item _ j means _ HL); [| assumption].
      rewrite <- Hax. f_equal.
      unfold gs. rewrite <- nth_rev_size by assumption.
      assert (Hin : In (nth k (rev size) 0%Z) size).
      { apply in_rev. apply nth_In. rewrite length_rev. assumption. }
      specialize (Hsize _ Hin). lia.
    - rewrite item_tabulate.
      + rewrite <- (in_range_length _ _ Hp).
        replace (length p) with (length p + 0)%nat at 1 by lia.
        rewrite set_nth_app_r. reflexivity.
      + apply in_range_app; [assumption | constructor; [lia | constructor]]. }
  rewrite length_combine, Hcl, Hml, Nat.min_id in Hdl, Hdp.
  (* the factors *)
  set (ks := map (fun s => gauss_k sigma (Z.to_nat s)) (rev size)).
  assert (Hkl : length ks = n).
  { unfold ks. rewrite length_map, length_rev. reflexivity. }
  set (exps := map (fun kd => texp (mul_scalar (snd kd) (fst kd))) (combine ks dists)).
  assert (Hel : length exps = n).
  { unfold exps. rewrite length_map, length_combine. lia. }
  set (dim_range := range_down (-1) (- (Z.of_nat n + 1))).
  assert (Hdr : dim_range = map (fun i => (-1 - Z.of_nat i)%Z) (seq 0 n))
    by apply range_down_neg.
  assert (Hdrl : length dim_range = n).
  { rewrite Hdr, length_map, length_seq. reflexivity. }
  set (e := fun (i : nat) (p : list nat) (j : nat) =>
              exp ((cell_coord (nth (length gs - 1 - i) gs 0%nat) j
                    - item means (p ++ [i])) ^ 2
                   * gauss_k sigma (nth (length gs - 1 - i) gs 0%nat))).
  destruct (mapM_nth_exists
              (fun dd => reduce_init unsqueeze
                           (filter (fun d => negb (d =? fst dd)%Z) dim_range) (snd dd))
              (0%Z, dflt) dflt (combine dim_range exps)
              (fun k F => gauss_factor bs gs (e k) (length gs - 1 - k) F))
    as (factors & Hfactors & Hfl & Hfp).
  { intros k Hk. rewrite length_combine, Hdrl, Hel, Nat.min_id in Hk.
    rewrite combine_nth by congruence. cbn [fst snd].
    assert (Hdk : nth k dim_range 0%Z = (-1 - Z.of_nat k)%Z).
    { rewrite Hdr. rewrite (nth_indep _ 0%Z (-1 - Z.of_nat 0)%Z)
        by (rewrite length_map, length_seq; assumption).
      rewrite (map_nth (fun i => (-1 - Z.of_nat i)%Z)), seq_nth by assumption.
      reflexivity. }
    rewrite Hdk.
    destruct (Hdp k Hk) as (HsD & HwD & HiD).
    assert (Hek : nth k exps dflt
                  = texp (mul_scalar (nth k dists dflt) (nth k ks 0))).
    { unfold exps.
      rewrite (nth_indep _ dflt
                 ((fun kd => texp (mul_scalar (snd kd) (fst kd))) (0, dflt)))
        by (rewrite length_map, length_combine; lia).
      rewrite (map_nth (fun kd => texp (mul_scalar (snd kd) (fst kd)))).
      rewrite combine_nth by congruence. reflexivity. }
    assert (Hkk : nth k ks 0 = gauss_k sigma (nth (length gs - 1 - k) gs 0%nat)).
    { unfold ks.
      rewrite (nth_indep _ 0 ((fun s => gauss_k sigma (Z.to_nat s)) 0%Z))
        by (rewrite length_map, length_rev; assumption).
      rewrite (map_nth (fun s => gauss_k sigma (Z.to_nat s))).
      unfold gs. rewrite nth_rev_size by assumption. reflexivity. }
    unfold dim_range. rewrite <- Hgn.
    destruct (unsqueeze_factor bs gs (nth k exps dflt) k) as (F & HF & HFf).
    { lia. }
    { rewrite Hek. exact HsD. }
    exists F. split; [exact HF |].
    apply (gauss_factor_ext bs gs (fun p j => item (nth k exps dflt) (p ++ [j]))
             (e k) _ F); [| exact HFf].
    intros p j Hp Hj. rewrite Hek. unfold texp, mul_scalar, e.
    assert (Hpj : in_range (bs ++ [nth (length gs - 1 - k) gs 0%nat]) (p ++ [j])).
    { apply in_range_app; [assumption | constructor; [assumption | constructor]]. }
    rewrite item_tmap
      by (try apply wf_tmap; cbn [shape tmap]; try rewrite HsD; assumption).
    rewrite item_tmap by (try rewrite HsD; assumption).
    rewrite HiD by assumption. rewrite Hkk. reflexivity. }
  rewrite length_combine, Hdrl, Hel, Nat.min_id in Hfl, Hfp.
  destruct (gauss_product bs gs e dflt factors) as (gauss & Hgauss & Hsg & Hig).
  { congruence. }
  { lia. }
  { intros i Hi. apply Hfp. lia. }
  exists gauss. split; [exact Hsg |]. split.
  { intros p g Hp Hg. rewrite Hig by assumption. reflexivity. }
  intros normalize. rewrite make_gauss_parts.
  rewrite Hcoords. cbn [bind].
  rewrite (split1_last bs n means Hs). cbn [bind]. fold mean_list.
  rewrite Hdists. cbn [bind].
  unfold gauss_ks.
  rewrite gauss_ks_ok;
    [| assumption | intros s Hin; apply Hsize; apply in_rev; assumption].
  cbn [bind]. fold ks.
  unfold gauss_tail.
  change (range_down (-1) (- (Z.of_nat (length size) + 1))) with dim_range.
  change (map (fun kd => texp (mul_scalar (snd kd) (fst kd))) (combine ks dists))
    with exps.
  rewrite Hfactors. cbn [bind]. rewrite Hgauss. cbn [bind]. reflexivity.
Qed.

(** ** Normalizing the Gaussian *)

Lemma sum_loop (pre gs : list nat) (F : list nat -> list nat -> R) :
  forall m j t, (j + m = length gs)%nat -> wf t \/ (1 <= m)%nat ->
    marg pre (flags (fun a => length gs - j <=? a) (length gs)) gs F t ->
    exists t',
      reduce_init (fun t dim => sum_dim t dim true)
        (map (fun i => (-1 - Z.of_nat i)%Z) (seq j m)) t = Ok t' /\
      wf t' /\ marg pre (repeat true (length gs)) gs F t'.
Proof.
  induction m as [|m IH]; intros j t Hj Hw Hm.
  - simpl. exists t. split; [reflexivity |].
    split; [destruct Hw as [Hw|Hw]; [exact Hw | lia] |].
    rewrite <- (map_seq_const (fun a => length gs - j <=? a) true 0 (length gs)).
    + exact Hm.
    + intros a Ha. destruct (Nat.leb_spec (length gs - j) a); [reflexivity | lia].
  - cbn [seq map reduce_init].
    destruct (marg_step pre _ gs F t (length gs - 1 - j) Hm) as (t' & Hs & Hw' & Hm').
    + apply flags_length.
    + lia.
    + rewrite nth_flags by lia.
      destruct (Nat.leb_spec (length gs - j) (length gs - 1 - j)); [lia | reflexivity].
    + replace (-1 - Z.of_nat j)%Z
        with (Z.of_nat (length gs - 1 - j) - Z.of_nat (length gs))%Z by lia.
      rewrite Hs. cbn [bind]. apply IH; [lia | left; exact Hw' |].
      rewrite set_nth_flags in Hm' by lia.
      erewrite flags_ext; [exact Hm' |].
      intros a Ha. simpl.
      destruct (Nat.leb_spec (length gs - S j) a), (Nat.leb_spec (length gs - j) a),
        (Nat.eqb_spec a (length gs - 1 - j)); try reflexivity; lia.
Qed.

Lemma and_flags_false_l (n : nat) (r : list bool) :
  length r = n ->
  map (fun ab => fst ab && snd ab) (combine (repeat false n) r) = repeat false n.
Proof.
  revert r. induction n as [|n IH]; intros [|a r] H; simpl in *; try discriminate.
  - reflexivity.
  - rewrite IH by lia. reflexivity.
Qed.

Lemma msum_scale_r (s : list nat) (f : list nat -> R) (c : R) :
  msum s (fun idx => f idx * c) = msum s f * c.
Proof.
  revert f. induction s as [|n s IH]; intros f; simpl.
  - reflexivity.
  - rewrite <- rsum_scale_r. apply rsum_ext. intros k Hk. apply IH.
Qed.

Lemma msum_pos (s : list nat) (f : list nat -> R) :
  (0 < prod s)%nat -> (forall idx, in_range s idx -> 0 < f idx) -> 0 < msum s f.
Proof.
  revert f. induction s as [|n s IH]; intros f Hp H; simpl in *.
  - apply H. constructor.
  - apply rsum_pos; [nia |]. intros k Hk. apply IH; [nia |].
    intros idx Hi. apply H. constructor; assumption.
Qed.

(** What the normalization of [make_gauss] does to a tensor [gauss] of
    shape [bs ++ gs]. *)
Lemma normalize_gauss (bs gs : list nat) (gauss : tensor) :
  shape gauss = bs ++ gs -> (1 <= length gs)%nat ->
  exists out,
    (s <- reduce_init (fun t dim => sum_dim t dim true)
            (range_down (-1) (- (Z.of_nat (length gs) + 1))) gauss ;;
     div gauss (add_scalar s eps24)) = Ok out /\
    shape out = bs ++ gs /\ wf out /\
    forall p g, in_range bs p -> in_range gs g ->
      item out (p ++ g)
      = item gauss (p ++ g) / (msum gs (fun g' => item gauss (p ++ g')) + eps24).
Proof.
  intros Hs Hn. rewrite range_down_neg.
  destruct (sum_loop bs gs (fun p g => item gauss (p ++ g)) (length gs) 0 gauss)
    as (s & Hsum & Hws & Hss & His).
  { lia. }
  { right. lia. }
  { rewrite (flags_ext _ (fun _ => false))
      by (intros a Ha; destruct (Nat.leb_spec (length gs - 0) a); [lia | reflexivity]).
    rewrite flags_false.
    split; [rewrite rshape_all_false; exact Hs |].
    intros p idx Hp Hi. rewrite rshape_all_false in Hi.
    rewrite psum_all_false by (apply in_range_length; assumption). reflexivity. }
  rewrite Hsum. cbn [bind].
  assert (Hsg : shape gauss = bs ++ rshape (repeat false (length gs)) gs).
  { rewrite rshape_all_false. exact Hs. }
  destruct (map2b_rshape Rdiv bs gs (repeat false (length gs)) (repeat true (length gs))
              gauss (add_scalar s eps24) Hsg)
    as (out & Hout & Hwo & Hso & Hio).
  { exact Hss. }
  { apply repeat_length. }
  { apply repeat_length. }
  rewrite and_flags_false_l in Hso, Hio by apply repeat_length.
  rewrite rshape_all_false in Hso.
  exists out. split; [exact Hout |]. split; [exact Hso |]. split; [exact Hwo |].
  intros p g Hp Hg.
  pose proof (in_range_length _ _ Hg) as Hlg.
  specialize (Hio p g Hp Hg).
  rewrite <- Hlg in Hio. rewrite mask_all_false, mask_all_true in Hio.
  rewrite Hio. f_equal.
  unfold add_scalar. rewrite item_tmap.
  - f_equal. rewrite Hlg.
    rewrite His.
    + apply psum_all_true. apply repeat_length.
    + assumption.
    + rewrite rshape_all_true. apply in_range_ones.
  - exact Hws.
  - rewrite Hss. apply in_range_app; [assumption |].
    rewrite rshape_all_true, Hlg. apply in_range_ones.
Qed.

(** ** The entries of the unnormalized Gaussian *)

Lemma pow2_gt_0 (x : R) : x <> 0 -> 0 < x ^ 2.
Proof. intros H. rewrite <- Rsqr_pow2. apply Rsqr_pos_lt. assumption. Qed.

Lemma gauss_k_neg (sigma : R) (L : nat) :
  sigma <> 0 -> (1 <= L)%nat -> gauss_k sigma L < 0.
Proof.
  intros Hs HL. unfold gauss_k.
  assert (HL' : 0 < INR L) by (apply lt_0_INR; lia).
  assert (Hq : 1 / (2 * sigma / INR L) <> 0).
  { unfold Rdiv. rewrite Rmult_1_l. apply Rinv_neq_0_compat.
    apply Rmult_integral_contrapositive_currified; [lra |].
    apply Rinv_neq_0_compat. lra. }
  assert (0 < (1 / (2 * sigma / INR L)) ^ 2).
  { apply pow2_gt_0. assumption. }
  lra.
Qed.

Lemma exp_nonpos_le_1 (y : R) : y <= 0 -> 0 < exp y <= 1.
Proof.
  intros H. split; [apply exp_pos |].
  destruct H as [H|H].
  - left. rewrite <- exp_0. apply exp_increasing. assumption.
  - subst. rewrite exp_0. lra.
Qed.

Lemma exp_eq_1 (y : R) : exp y = 1 <-> y = 0.
Proof.
  split.
  - intros H. apply exp_inv. rewrite exp_0. assumption.
  - intros ->. apply exp_0.
Qed.

Lemma gauss_term_bounds (means : tensor) (sigma : R) (gs p g : list nat) (k : nat) :
  sigma <> 0 -> (1 <= nth (length gs - 1 - k) gs 0)%nat ->
  0 < gauss_term means sigma gs p g k <= 1 /\
  (gauss_term means sigma gs p g k = 1 <->
   cell_coord (nth (length gs - 1 - k) gs 0%nat) (nth (length gs - 1 - k) g 0%nat)
   = item means (p ++ [k])).
Proof.
  intros Hs HL. unfold gauss_term.
  set (x := cell_coord _ _ - item means (p ++ [k])).
  pose proof (gauss_k_neg sigma _ Hs HL) as Hk.
  set (c := gauss_k sigma _) in *.
  pose proof (pow2_ge_0 x) as Hx.
  split.
  - apply exp_nonpos_le_1. nra.
  - rewrite exp_eq_1. split.
    + intros H. assert (Hx0 : x ^ 2 = 0) by nra.
      assert (x = 0).
      { destruct (Req_dec x 0) as [E|E]; [assumption |].
        pose proof (pow2_gt_0 x E). lra. }
      unfold x in *. lra.
    + intros H. assert (x = 0) by (unfold x; lra).
      rewrite H0. simpl. lra.
Qed.

Lemma rprod_bounds (n : nat) (f : nat -> R) :
  (forall k, (k < n)%nat -> 0 < f k <= 1) ->
  0 < rprod n f <= 1 /\ (rprod n f = 1 <-> forall k, (k < n)%nat -> f k = 1).
Proof.
  induction n as [|n IH]; intros H; simpl.
  - split; [lra |]. split; [intros _ k Hk; lia | reflexivity].
  - destruct IH as [[IH1 IH2] IH3]; [intros k Hk; apply H; lia |].
    destruct (H n) as [Hn1 Hn2]; [lia |].
    split; [split; nra |].
    split.
    + intros Hp.
      assert (Hr : rprod n f = 1) by nra.
      assert (Hf : f n = 1) by nra.
      intros k Hk. destruct (Nat.eq_dec k n) as [->|E]; [assumption |].
      apply IH3; [assumption | lia].
    + intros Hall. rewrite (Hall n) by lia.
      assert (rprod n f = 1) by (apply IH3; intros k Hk; apply Hall; lia).
      lra.
Qed.

Lemma extent_map_to_nat (size : list Z) (d : nat) :
  (forall s, In s size -> (1 <= s)%Z) -> (d < length (map Z.to_nat size))%nat ->
  (1 <= nth d (map Z.to_nat size) 0)%nat.
Proof.
  intros Hs Hd. rewrite length_map in Hd.
  change 0%nat with (Z.to_nat 0). rewrite map_nth.
  assert (In (nth d size 0%Z) size) by (apply nth_In; assumption).
  specialize (Hs _ H). lia.
Qed.

Lemma gauss_density_bounds (means : tensor) (size : list Z) (sigma : R)
  (p g : list nat) :
  sigma <> 0 -> (forall s, In s size -> (1 <= s)%Z) ->
  0 < gauss_density means sigma (map Z.to_nat size) p g <= 1 /\
  (gauss_density means sigma (map Z.to_nat size) p g = 1 <->
   forall k, (k < length size)%nat ->
     cell_coord (nth (length size - 1 - k) (map Z.to_nat size) 0%nat)
                (nth (length size - 1 - k) g 0%nat)
     = item means (p ++ [k])).
Proof.
  intros Hsig Hsize. unfold gauss_density.
  set (gs := map Z.to_nat size).
  assert (Hgl : length gs = length size) by (unfold gs; apply length_map).
  assert (HL : forall k, (k < length gs)%nat -> (1 <= nth (length gs - 1 - k) gs 0)%nat).
  { intros k Hk. apply (extent_map_to_nat size); [assumption | fold gs; lia]. }
  destruct (rprod_bounds (length gs) (gauss_term means sigma gs p g)) as [Hb Heq].
  { intros k Hk. apply gauss_term_bounds; [assumption | apply HL; assumption]. }
  split; [exact Hb |].
  rewrite Heq. rewrite Hgl. split.
  - intros H k Hk.
    destruct (gauss_term_bounds means sigma gs p g k Hsig) as [_ Hiff];
      [apply HL; lia |].
    rewrite <- Hgl. apply Hiff. apply H. assumption.
  - intros H k Hk.
    destruct (gauss_term_bounds means sigma gs p g k Hsig) as [_ Hiff];
      [apply HL; lia |].
    apply Hiff. rewrite Hgl. apply H. assumption.
Qed.

(** C3, amended: without normalization every entry of the result of
    [make_gauss] is positive and at most 1, and an entry is 1 exactly where
    the coordinate of the cell equals the mean on every axis; the maximum
    is 1 when the mean is the centre of a cell. *)
Theorem make_gauss_unnormalized (bs : list nat) (means : tensor) (size : list Z)
  (sigma : R) :
  shape means = bs ++ [length size] -> (1 <= length size)%nat ->
  (forall s, In s size -> (1 <= s)%Z) -> sigma <> 0 ->
  exists gauss,
    make_gauss means size sigma false = Ok gauss /\
    shape gauss = bs ++ map Z.to_nat size /\
    forall p g, in_range bs p -> in_range (map Z.to_nat size) g ->
      0 < item gauss (p ++ g) <= 1 /\
      (item gauss (p ++ g) = 1 <->
       forall k, (k < length size)%nat ->
         cell_coord (nth (length size - 1 - k) (map Z.to_nat size) 0%nat)
                    (nth (length size - 1 - k) g 0%nat)
         = item means (p ++ [k])).
Proof.
  intros Hs Hn Hsize Hsig.
  destruct (make_gauss_gauss bs means size sigma Hs Hn Hsize Hsig)
    as (gauss & Hsg & Hig & Hmk).
  exists gauss. split; [apply (Hmk false) |]. split; [exact Hsg |].
  intros p g Hp Hg. rewrite Hig by assumption.
  apply gauss_density_bounds; assumption.
Qed.

(** C3 as stated fails where the mean is between two cell centres: with
    mean 0 on a grid of two cells, whose centres are -1/2 and 1/2, both
    entries are below 1. *)
Lemma make_gauss_peak_below_one :
  exists gauss,
    make_gauss (mkT [1%nat] [0]) [2%Z] 1 false = Ok gauss /\
    shape gauss = [2%nat] /\
    forall j, (j < 2)%nat -> item gauss [j] < 1.
Proof.
  destruct (make_gauss_gauss [] (mkT [1%nat] [0]) [2%Z] 1) as (gauss & Hsg & Hig & Hmk).
  - reflexivity.
  - simpl. lia.
  - intros s [<-|[]]. lia.
  - lra.
  - exists gauss. split; [apply (Hmk false) |]. split; [exact Hsg |].
    intros j Hj.
    assert (Hr : in_range (map Z.to_nat [2%Z]) [j]).
    { constructor; [simpl; lia | constructor]. }
    specialize (Hig [] [j] (Forall2_nil _) Hr). simpl app in Hig. rewrite Hig.
    destruct (gauss_density_bounds (mkT [1%nat] [0]) [2%Z] 1 [] [j]) as [[_ Hle] Heq].
    + lra.
    + intros s [<-|[]]. lia.
    + destruct Hle as [Hlt|He]; [exact Hlt |].
      exfalso. pose proof (proj1 Heq He 0%nat) as Hc. simpl in Hc.
      unfold cell_coord, item in Hc. simpl in Hc.
      specialize (Hc ltac:(lia)).
      destruct j as [|[|j]]; [| | lia]; simpl in Hc; lra.
Qed.

Lemma make_gauss_unnormalized_witness :
  (1 <> 0) /\
  exists gauss,
    make_gauss (mkT [2%nat] [0; 0]) [5%Z; 5%Z] 1 false = Ok gauss /\
    shape gauss = [] ++ map Z.to_nat [5%Z; 5%Z] /\
    forall p g, in_range [] p -> in_range (map Z.to_nat [5%Z; 5%Z]) g ->
      0 < item gauss (p ++ g) <= 1 /\
      (item gauss (p ++ g) = 1 <->
       forall k, (k < length [5%Z; 5%Z])%nat ->
         cell_coord (nth (length [5%Z; 5%Z] - 1 - k) (map Z.to_nat [5%Z; 5%Z]) 0%nat)
                    (nth (length [5%Z; 5%Z] - 1 - k) g 0%nat)
         = item (mkT [2%nat] [0; 0]) (p ++ [k])).
Proof.
  split; [lra |].
  apply (make_gauss_unnormalized [] (mkT [2%nat] [0; 0]) [5%Z; 5%Z] 1);
    [reflexivity | simpl; lia | intros s [<-|[<-|[]]]; lia | lra].
Defined.

(** The case of the test [test_unnormalized]: the mean [0, 0] is the centre
    of cell (2, 2) of the 5 x 5 grid, where the entry is 1. *)
Lemma make_gauss_test_unnormalized :
  exists gauss,
    make_gauss (mkT [2%nat] [0; 0]) [5%Z; 5%Z] 1 false = Ok gauss /\
    item gauss [2%nat; 2%nat] = 1 /\
    forall i j, (i < 5)%nat -> (j < 5)%nat -> item gauss [i; j] <= 1.
Proof.
  destruct (make_gauss_gauss [] (mkT [2%nat] [0; 0]) [5%Z; 5%Z] 1)
    as (gauss & Hsg & Hig & Hmk);
    [reflexivity | simpl; lia | intros s [<-|[<-|[]]]; lia | lra |].
  assert (Hsize : forall s, In s [5%Z; 5%Z] -> (1 <= s)%Z)
    by (intros s [<-|[<-|[]]]; lia).
  assert (H1 : (1:R) <> 0) by lra.
  exists gauss. split; [apply (Hmk false) |]. split.
  - assert (Hr : in_range (map Z.to_nat [5%Z; 5%Z]) [2%nat; 2%nat]).
    { simpl. constructor; [lia | constructor; [lia | constructor]]. }
    pose proof (Hig [] _ (Forall2_nil _) Hr) as Hval. cbn [app] in Hval.
    rewrite Hval.
    apply (gauss_density_bounds (mkT [2%nat] [0; 0]) [5%Z; 5%Z] 1 [] _ H1 Hsize).
    intros k Hk. unfold cell_coord, item.
    destruct k as [|[|k]]; [| | simpl in Hk; lia]; simpl; field.
  - intros i j Hi Hj.
    assert (Hr : in_range (map Z.to_nat [5%Z; 5%Z]) [i; j]).
    { simpl. constructor; [lia | constructor; [lia | constructor]]. }
    pose proof (Hig [] _ (Forall2_nil _) Hr) as Hval. cbn [app] in Hval.
    rewrite Hval.
    apply (gauss_density_bounds (mkT [2%nat] [0; 0]) [5%Z; 5%Z] 1 [] _ H1 Hsize).
Qed.

(** ** The sum of the normalized Gaussian *)

Lemma make_gauss_normalized (bs : list nat) (means : tensor) (size : list Z)
  (sigma : R) :
  shape means = bs ++ [length size] -> (1 <= length size)%nat ->
  (forall s, In s size -> (1 <= s)%Z) -> sigma <> 0 ->
  exists out,
    make_gauss means size sigma true = Ok out /\
    shape out = bs ++ map Z.to_nat size /\
    forall p, in_range bs p ->
      0 < msum (map Z.to_nat size) (gauss_density means sigma (map Z.to_nat size) p) /\
      msum (map Z.to_nat size) (fun g => item out (p ++ g))
      = msum (map Z.to_nat size) (gauss_density means sigma (map Z.to_nat size) p)
        / (msum (map Z.to_nat size) (gauss_density means sigma (map Z.to_nat size) p)
           + eps24).
Proof.
  intros Hs Hn Hsize Hsig.
  destruct (make_gauss_gauss bs means size sigma Hs Hn Hsize Hsig)
    as (gauss & Hsg & Hig & Hmk).
  set (gs := map Z.to_nat size) in *.
  assert (Hgl : length gs = length size) by (unfold gs; apply length_map).
  destruct (normalize_gauss bs gs gauss Hsg) as (out & Hout & Hso & _ & Hio); [lia |].
  exists out. split.
  { rewrite (Hmk true). cbn [negb]. rewrite <- Hgl. exact Hout. }
  split; [exact Hso |].
  intros p Hp.
  assert (Hprod : (0 < prod gs)%nat).
  { unfold gs. clear - Hsize. induction size as [|s size IH]; simpl; [lia |].
    assert (1 <= s)%Z by (apply Hsize; left; reflexivity).
    assert (0 < prod (map Z.to_nat size))%nat
      by (apply IH; intros x Hx; apply Hsize; right; assumption).
    nia. }
  split.
  { apply msum_pos; [assumption |]. intros g Hg.
    apply gauss_density_bounds; assumption. }
  assert (HS : msum gs (fun g => item gauss (p ++ g))
               = msum gs (gauss_density means sigma gs p)).
  { apply msum_ext. intros g Hg. apply Hig; assumption. }
  rewrite (msum_ext gs _ (fun g => item gauss (p ++ g)
                            * / (msum gs (fun g' => item gauss (p ++ g')) + eps24))).
  - rewrite msum_scale_r, HS. reflexivity.
  - intros g Hg. rewrite Hio by assumption. reflexivity.
Qed.

Lemma eps24_pos : 0 < eps24.
Proof. unfold eps24. lra. Qed.

(** C4, amended: the normalized result of [make_gauss] sums, over the grid
    of each sample, to [S / (S + 1e-24)] for the mass [S > 0] of the
    unnormalized Gaussian of the sample; the sum is strictly between 0 and
    1, and it is within 1e-6 of 1 when [S] is at least 1e-18. *)
Theorem make_gauss_normalized_sum (bs : list nat) (means : tensor) (size : list Z)
  (sigma : R) :
  shape means = bs ++ [length size] -> (1 <= length size)%nat ->
  (forall s, In s size -> (1 <= s)%Z) -> sigma <> 0 ->
  exists out,
    make_gauss means size sigma true = Ok out /\
    shape out = bs ++ map Z.to_nat size /\
    forall p, in_range bs p ->
      let S := msum (map Z.to_nat size)
                 (gauss_density means sigma (map Z.to_nat size) p) in
      let total := msum (map Z.to_nat size) (fun g => item out (p ++ g)) in
      0 < S /\ total = S / (S + eps24) /\ 0 < total < 1 /\
      (1e-18 <= S -> Rabs (total - 1) <= 1e-6).
Proof.
  intros Hs Hn Hsize Hsig.
  destruct (make_gauss_normalized bs means size sigma Hs Hn Hsize Hsig)
    as (out & Hout & Hso & Hsum).
  exists out. split; [exact Hout |]. split; [exact Hso |].
  intros p Hp S total. destruct (Hsum p Hp) as [HS Ht].
  fold S in HS, Ht. fold total in Ht.
  pose proof eps24_pos as He.
  assert (Hinv : 0 < / (S + eps24)) by (apply Rinv_0_lt_compat; lra).
  assert (Hone : (S + eps24) * / (S + eps24) = 1) by (apply Rinv_r; lra).
  split; [exact HS |]. split; [exact Ht |].
  rewrite Ht. unfold Rdiv.
  split.
  - split; [apply Rmult_lt_0_compat; assumption |].
    rewrite <- Hone. apply Rmult_lt_compat_r; [assumption | lra].
  - intros H18.
    assert (Hd : S * / (S + eps24) - 1 = - (eps24 * / (S + eps24))).
    { rewrite <- Hone. ring. }
    rewrite Hd, Rabs_Ropp, Rabs_pos_eq
      by (apply Rlt_le, Rmult_lt_0_compat; assumption).
    apply (Rmult_le_reg_r (S + eps24)); [lra |].
    rewrite Rmult_assoc, Rinv_l by lra.
    unfold eps24 in *. lra.
Qed.

Lemma make_gauss_normalized_sum_witness :
  (1 <> 0) /\
  exists out,
    make_gauss (mkT [2%nat] [0; 0]) [5%Z; 5%Z] 1 true = Ok out /\
    shape out = [] ++ map Z.to_nat [5%Z; 5%Z] /\
    forall p, in_range [] p ->
      let S := msum (map Z.to_nat [5%Z; 5%Z])
                 (gauss_density (mkT [2%nat] [0; 0]) 1 (map Z.to_nat [5%Z; 5%Z]) p) in
      let total := msum (map Z.to_nat [5%Z; 5%Z]) (fun g => item out (p ++ g)) in
      0 < S /\ total = S / (S + eps24) /\ 0 < total < 1 /\
      (1e-18 <= S -> Rabs (total - 1) <= 1e-6).
Proof.
  split; [lra |].
  apply (make_gauss_normalized_sum [] (mkT [2%nat] [0; 0]) [5%Z; 5%Z] 1);
    [reflexivity | simpl; lia | intros s [<-|[<-|[]]]; lia | lra].
Defined.

Lemma exp_lower (n : nat) : 2 ^ n <= exp (INR n).
Proof.
  induction n as [|n IH].
  - simpl. rewrite exp_0. lra.
  - rewrite S_INR, exp_plus. simpl pow.
    pose proof (exp_ineq1_le 1) as H1.
    pose proof (exp_pos (INR n)) as Hp.
    assert (0 < 2 ^ n) by (apply pow_lt; lra).
    nra.
Qed.

Lemma exp_minus_200 : exp (-200) < eps24 / 2.
Proof.
  replace (exp (-200)) with (exp (- (200))) by (f_equal; lra).
  rewrite exp_Ropp.
  assert (H : 2 * 10 ^ 24 < exp 200).
  { apply Rlt_le_trans with (2 ^ 200).
    - replace (2 * 10 ^ 24) with (IZR (2 * 10 ^ 24)).
      + replace (2 ^ 200) with (IZR (2 ^ 200)).
        * apply IZR_lt. reflexivity.
        * rewrite pow_IZR. reflexivity.
      + rewrite pow_IZR, <- mult_IZR. reflexivity.
    - replace 200 with (INR 200).
      + apply exp_lower.
      + rewrite INR_IZR_INZ. reflexivity. }
  assert (Hp : 0 < 2 * 10 ^ 24) by (apply Rmult_lt_0_compat; [lra | apply pow_lt; lra]).
  apply Rlt_le_trans with (/ (2 * 10 ^ 24)).
  - apply Rinv_lt_contravar; [apply Rmult_lt_0_compat; lra | assumption].
  - unfold eps24. right. field_simplify; lra.
Qed.

(** C4 as stated fails for a narrow Gaussian between two cell centres: with
    mean 0, two cells and sigma = 1/40 both unnormalized entries are
    [exp (-200)], their sum is below 1e-24, and the normalized entries sum
    to less than 1/2. *)
Lemma make_gauss_sum_below_half :
  exists out,
    make_gauss (mkT [1%nat] [0]) [2%Z] (/ 40) true = Ok out /\
    msum [2%nat] (fun g => item out g) < 1 / 2 /\
    ~ Rabs (msum [2%nat] (fun g => item out g) - 1) <= 1e-6.
Proof.
  destruct (make_gauss_normalized [] (mkT [1%nat] [0]) [2%Z] (/ 40))
    as (out & Hout & _ & Hsum);
    [reflexivity | simpl; lia | intros s [<-|[]]; lia | lra |].
  exists out. split; [exact Hout |].
  destruct (Hsum [] (Forall2_nil _)) as [HS Ht]. cbn [app map] in HS, Ht.
  change (Z.to_nat 2) with 2%nat in HS, Ht.
  assert (Hlt : msum [2%nat] (fun g => item out g) < 1 / 2).
  { rewrite Ht.
    set (S := msum [2%nat] (gauss_density (mkT [1%nat] [0]) (/ 40) [2%nat] [])) in *.
    assert (HSe : S = exp (-200) + exp (-200)).
    { unfold S, gauss_density, gauss_term, cell_coord, gauss_k, item.
      cbn [msum rsum rprod length nth Nat.sub app shape data ravel prod fold_right
           Nat.mul Nat.add INR].
      replace ((- (1 + 1 - 1) / (1 + 1) + 0 * 2 / (1 + 1) - 0) ^ 2
               * (- 0.5 * (1 / (2 * / 40 / (1 + 1))) ^ 2)) with (-200) by (simpl; lra).
      replace ((- (1 + 1 - 1) / (1 + 1) + 1 * 2 / (1 + 1) - 0) ^ 2
               * (- 0.5 * (1 / (2 * / 40 / (1 + 1))) ^ 2)) with (-200) by (simpl; lra).
      ring. }
    pose proof exp_minus_200 as He. pose proof eps24_pos as Hp.
    assert (HSlt : S < eps24) by lra.
    apply (Rmult_lt_reg_r (S + eps24)); [lra |].
    unfold Rdiv. rewrite Rmult_assoc, Rinv_l by lra. lra. }
  split; [exact Hlt |].
  intros Habs. unfold Rabs in Habs.
  destruct (Rcase_abs _) in Habs; lra.
Qed.

(** ** Parameters outside their range, continued *)

Lemma kl_reg_losses_sigma_zero (heatmaps mu_t : tensor) :
  exists e, kl_reg_losses heatmaps mu_t 0 = Raise e.
Proof.
  unfold kl_reg_losses.
  destruct (getitem (shape mu_t) (-1)) as [ndims|e]; cbn [bind]; [| eexists; reflexivity].
  destruct (make_gauss_sigma_zero mu_t
              (map Z.of_nat (slice_from_neg ndims (shape heatmaps))) true) as (e & ->).
  eexists. reflexivity.
Qed.

Lemma js_reg_losses_sigma_zero (heatmaps mu_t : tensor) :
  exists e, js_reg_losses heatmaps mu_t 0 = Raise e.
Proof.
  unfold js_reg_losses.
  destruct (getitem (shape mu_t) (-1)) as [ndims|e]; cbn [bind]; [| eexists; reflexivity].
  destruct (make_gauss_sigma_zero mu_t
              (map Z.of_nat (slice_from_neg ndims (shape heatmaps))) true) as (e & ->).
  eexists. reflexivity.
Qed.

Lemma reg_losses_sigma_opp (heatmaps mu_t : tensor) (sigma : R) :
  kl_reg_losses heatmaps mu_t (- sigma) = kl_reg_losses heatmaps mu_t sigma /\
  js_reg_losses heatmaps mu_t (- sigma) = js_reg_losses heatmaps mu_t sigma.
Proof.
  unfold kl_reg_losses, js_reg_losses.
  destruct (getitem (shape mu_t) (-1)) as [ndims|e]; cbn [bind]; [| split; reflexivity].
  rewrite !make_gauss_parts, gauss_ks_opp. split; reflexivity.
Qed.

(** C2 as stated fails: with [sigma = 0] and with [length = 0] the
    division by zero is a raised [ZeroDivisionError], not a result. *)
Lemma invalid_parameters_raise :
  make_gauss (mkT [1%nat] [0]) [2%Z] 0 true = Raise ZeroDivisionError /\
  ~ (exists t, make_gauss (mkT [1%nat] [0]) [2%Z] 0 true = Ok t) /\
  _normalized_linspace 0 (mkT [1%nat] [0]) = Raise ZeroDivisionError.
Proof.
  assert (H : make_gauss (mkT [1%nat] [0]) [2%Z] 0 true = Raise ZeroDivisionError).
  { rewrite make_gauss_parts, gauss_ks_zero by discriminate. reflexivity. }
  split; [exact H |]. split; [| reflexivity].
  intros [t Ht]. rewrite H in Ht. discriminate.
Qed.

(** C2, amended: no parameter is validated, and what happens outside the
    ranges is decided by the arithmetic.  With [sigma = 0], [make_gauss]
    and the two regularization losses raise; with [sigma < 0] they return
    what they return for [- sigma]; [_normalized_linspace] raises
    [ZeroDivisionError] for [length = 0], and for [length < 0] the error of
    [linspace]. *)
Theorem invalid_parameters (means heatmaps mu_t type_as : tensor) (size : list Z)
  (normalize : bool) (sigma : R) (length : Z) :
  (exists e, make_gauss means size 0 normalize = Raise e) /\
  (exists e, kl_reg_losses heatmaps mu_t 0 = Raise e) /\
  (exists e, js_reg_losses heatmaps mu_t 0 = Raise e) /\
  (sigma < 0 ->
     make_gauss means size sigma normalize = make_gauss means size (- sigma) normalize /\
     kl_reg_losses heatmaps mu_t sigma = kl_reg_losses heatmaps mu_t (- sigma) /\
     js_reg_losses heatmaps mu_t sigma = js_reg_losses heatmaps mu_t (- sigma)) /\
  _normalized_linspace 0 type_as = Raise ZeroDivisionError /\
  ((length < 0)%Z -> _normalized_linspace length type_as = Raise RuntimeError).
Proof.
  split; [apply make_gauss_sigma_zero |].
  split; [apply kl_reg_losses_sigma_zero |].
  split; [apply js_reg_losses_sigma_zero |].
  split.
  { intros _. destruct (reg_losses_sigma_opp heatmaps mu_t sigma) as [Hk Hj].
    split; [| split; [symmetry; exact Hk | symmetry; exact Hj]].
    rewrite !make_gauss_parts, gauss_ks_opp. reflexivity. }
  split; [reflexivity |].
  intros Hl. unfold _normalized_linspace.
  rewrite !truediv_int_ok by lia. cbn [bind]. unfold linspace.
  destruct (Z.ltb_spec length 0); [reflexivity | lia].
Qed.

Lemma invalid_parameters_witness :
  (-1 < 0) /\ (-3 < 0)%Z /\
  make_gauss (mkT [1%nat] [0]) [2%Z] (-1) true
  = make_gauss (mkT [1%nat] [0]) [2%Z] (- -1) true /\
  _normalized_linspace (-3) (mkT [1%nat] [0]) = Raise RuntimeError.
Proof.
  split; [lra |]. split; [lia |].
  destruct (invalid_parameters (mkT [1%nat] [0]) (mkT [1%nat] [0]) (mkT [1%nat] [0])
              (mkT [1%nat] [0]) [2%Z] true (-1) (-3))
    as (_ & _ & _ & Hs & _ & Hl).
  split; [apply Hs; lra | apply Hl; lia].
Defined.

(** ** The coordinate variance without batch axes *)

(** Without batch axes the subtraction of the mean is the intended one, and
    the variance of a one-hot heatmap is 0. *)
Lemma coord_variance_one_hot_unbatched (gs c : list nat) (h : tensor) (d : nat) :
  shape h = gs -> (d < length gs)%nat -> one_hot [] gs h (fun _ => c) ->
  exists v,
    _coord_variance h (Z.of_nat d - Z.of_nat (length gs)) (length gs) = Ok v /\
    shape v = [1%nat] /\ item v [0%nat] = 0.
Proof.
  intros Hs Hd Hoh.
  destruct (Hoh [] (Forall2_nil _)) as [Hc Hf]. cbn [app] in Hf.
  assert (Hg : (0 < prod gs)%nat) by (apply (in_range_prod_pos _ _ Hc)).
  assert (Hb : (0 < prod (@nil nat))%nat) by (simpl; lia).
  set (L := nth d gs 0%nat).
  assert (HL : (1 <= L)%nat).
  { pose proof (in_range_nth gs c d Hc Hd). fold L in H. lia. }
  destruct (normalized_linspace_shape (Z.of_nat L) h) as (axis & Hax & Hsa); [lia |].
  rewrite Nat2Z.id in Hsa.
  assert (Hmarg : forall j, (j < L)%nat ->
            marginal gs d (fun g => item h ([] ++ g)) j
            = if j =? nth d c 0%nat then 1 else 0).
  { intros j Hj. apply marginal_one_hot; assumption. }
  assert (Hcd : (nth d c 0 < L)%nat) by (apply in_range_nth; assumption).
  (* the mean *)
  destruct (coord_expectation_spec [] gs h d None axis Hs Hb Hg Hd)
    as (mu & Hmu & Hsmu & Hlmu & Hdmu).
  { intros axis' H'. fold L in H'. rewrite Hax in H'. symmetry. exact H'. }
  { exact Hsa. }
  specialize (Hdmu [] (Forall2_nil _)). cbn [ravel] in Hdmu. fold L in Hdmu.
  rewrite (rsum_ext _ _ (fun j => if j =? nth d c 0%nat then item axis [j] else 0))
    in Hdmu.
  2:{ intros j Hj. rewrite Hmarg by assumption.
      destruct (j =? nth d c 0%nat); lra. }
  rewrite (rsum_delta L _ (fun j => item axis [j]) Hcd) in Hdmu.
  (* the squared deviations *)
  destruct (sub_axis_mean [] axis mu L Hsa Hsmu) as (D & HD & HsD & HwD & HiD).
  cbn [app] in HsD, HiD.
  assert (Hmu0 : item mu [0%nat] = item axis [nth d c 0%nat]).
  { unfold item. rewrite Hsmu. cbn [ravel]. simpl. exact Hdmu. }
  destruct (coord_expectation_spec [] gs h d
              (Some (fun x => d0 <- sub x mu ;; Ok (pow2 d0))) (pow2 D) Hs Hb Hg Hd)
    as (v & Hv & Hsv & Hlv & Hdv).
  { intros axis' H'. fold L in H'. rewrite Hax in H'. injection H' as <-.
    rewrite HD. reflexivity. }
  { exact HsD. }
  exists v. split.
  { unfold _coord_variance. rewrite Hmu. cbn [bind]. exact Hv. }
  split; [exact Hsv |].
  specialize (Hdv [] (Forall2_nil _)). cbn [ravel] in Hdv. fold L in Hdv.
  unfold item at 1. rewrite Hsv. cbn [ravel]. simpl Nat.add. simpl Nat.mul.
  rewrite Hdv.
  rewrite (rsum_ext _ _ (fun j => if j =? nth d c 0%nat then item (pow2 D) [j] else 0)).
  2:{ intros j Hj. rewrite Hmarg by assumption.
      destruct (j =? nth d c 0%nat); lra. }
  rewrite (rsum_delta L _ (fun j => item (pow2 D) [j]) Hcd).
  unfold pow2. rewrite item_tmap.
  - pose proof (HiD [] _ (Forall2_nil _) Hcd) as HiD0. cbn [app] in HiD0.
    rewrite HiD0, Hmu0. simpl. lra.
  - exact HwD.
  - rewrite HsD. constructor; [assumption | constructor].
Qed.

(** ** The functions at the inputs of the docstrings *)

(** The vector drawn in the docstring of [_normalized_linspace]. *)
Example normalized_linspace_4 :
  _normalized_linspace 4 (mkT [] [0]) = Ok (mkT [4%nat] [-0.75; -0.25; 0.25; 0.75]).
Proof.
  rewrite normalized_linspace_ok by lia.
  apply tensor_eq. simpl.
  f_equal; [lra | f_equal; [lra | f_equal; [lra | f_equal; lra]]].
Qed.

Example dsnt_swapped_pair :
  dsnt swapped_pair 1 = Ok (mkT [2%nat; 1%nat] [0.5; -0.5]).
Proof.
  cbv. apply tensor_eq. f_equal; [field | f_equal; field].
Qed.

Example average_loss_unmasked :
  average_loss (mkT [3%nat] [1; 2; 3]) None = Ok 2.
Proof. cbv. f_equal. field. Qed.

Example average_loss_masked :
  average_loss (mkT [3%nat] [1; 2; 3]) (Some (mkT [3%nat] [1; 0; 1])) = Ok 2.
Proof.
  unfold average_loss. rewrite mul_same_shape by reflexivity. cbn [bind].
  unfold sum_all, entrywise_product. simpl.
  rewrite Rmax_left by lra. f_equal. lra.
Qed.

(** ** The normalized Gaussian of a mean on the grid *)

Lemma rsum_ge_term (n c : nat) (f : nat -> R) :
  (forall k, (k < n)%nat -> 0 <= f k) -> (c < n)%nat -> f c <= rsum n f.
Proof.
  induction n as [|n IH]; intros H Hc; simpl; [lia |].
  assert (H0 : 0 <= rsum n f) by (apply rsum_nonneg; intros k Hk; apply H; lia).
  assert (Hn : 0 <= f n) by (apply H; lia).
  destruct (Nat.eq_dec c n) as [->|E]; [lra |].
  assert (f c <= rsum n f) by (apply IH; [intros k Hk; apply H; lia | lia]).
  lra.
Qed.

Lemma msum_ge_term (gs c : list nat) (f : list nat -> R) :
  (forall g, in_range gs g -> 0 <= f g) -> in_range gs c -> f c <= msum gs f.
Proof.
  intros H Hc. revert f H. induction Hc as [|c0 n c gs Hc0 Hc IH]; intros f H; simpl.
  - lra.
  - apply Rle_trans with (msum gs (fun g => f (c0 :: g))).
    + apply (IH (fun g => f (c0 :: g))). intros g Hg. apply H. constructor; assumption.
    + apply (rsum_ge_term n c0 (fun k => msum gs (fun g => f (k :: g)))); [| assumption].
      intros k Hk. apply msum_nonneg. intros g Hg. apply H. constructor; assumption.
Qed.

(** When the mean of a sample is the centre of a grid cell, the mass of the
    unnormalized Gaussian is at least 1 and the normalized one sums to 1
    within 1e-6 (within 1e-24, in fact). *)
Lemma make_gauss_normalized_on_grid (bs : list nat) (means : tensor) (size : list Z)
  (sigma : R) (p c : list nat) :
  shape means = bs ++ [length size] -> (1 <= length size)%nat ->
  (forall s, In s size -> (1 <= s)%Z) -> sigma <> 0 ->
  in_range bs p -> in_range (map Z.to_nat size) c ->
  (forall k, (k < length size)%nat ->
     cell_coord (nth (length size - 1 - k) (map Z.to_nat size) 0%nat)
                (nth (length size - 1 - k) c 0%nat)
     = item means (p ++ [k])) ->
  exists out,
    make_gauss means size sigma true = Ok out /\
    Rabs (msum (map Z.to_nat size) (fun g => item out (p ++ g)) - 1) <= 1e-6.
Proof.
  intros Hs Hn Hsize Hsig Hp Hc Hmean.
  destruct (make_gauss_normalized bs means size sigma Hs Hn Hsize Hsig)
    as (out & Hout & _ & Hsum).
  exists out. split; [exact Hout |].
  destruct (Hsum p Hp) as [HS Ht]. rewrite Ht.
  set (S := msum (map Z.to_nat size)
              (gauss_density means sigma (map Z.to_nat size) p)) in *.
  assert (H1 : 1 <= S).
  { replace 1 with (gauss_density means sigma (map Z.to_nat size) p c).
    - apply msum_ge_term; [| assumption].
      intros g Hg. apply Rlt_le. apply gauss_density_bounds; assumption.
    - apply gauss_density_bounds; assumption. }
  pose proof eps24_pos as He.
  assert (Hinv : 0 < / (S + eps24)) by (apply Rinv_0_lt_compat; lra).
  assert (Hone : (S + eps24) * / (S + eps24) = 1) by (apply Rinv_r; lra).
  assert (Hd : S / (S + eps24) - 1 = - (eps24 * / (S + eps24))).
  { unfold Rdiv. rewrite <- Hone. ring. }
  rewrite Hd, Rabs_Ropp, Rabs_pos_eq
    by (apply Rlt_le, Rmult_lt_0_compat; assumption).
  apply (Rmult_le_reg_r (S + eps24)); [lra |].
  rewrite Rmult_assoc, Rinv_l by lra.
  unfold eps24 in *. lra.
Qed.

(** * Further properties of the module

    Properties read off the code: of the functions the statements above
    leave aside ([euclidean_losses], [variance_reg_losses], [_kl], [_js],
    the regularization losses) and of the others in general and at their
    edges.  The logarithms of [_kl] and [_js] are taken of nonnegative
    entries plus a positive [eps], where [ln] is the logarithm. *)

(** ** Expectations over the grid *)

Lemma nth_app_cons (x1 x2 : list nat) (j d : nat) :
  length x1 = d -> nth d (x1 ++ j :: x2) 0%nat = j.
Proof. intros <-. rewrite app_nth2, Nat.sub_diag by lia. reflexivity. Qed.

Lemma rsum_marginal_expect (gs : list nat) (d : nat) (f : list nat -> R) (c : nat -> R) :
  (d < length gs)%nat ->
  rsum (nth d gs 0%nat) (fun j => marginal gs d f j * c j) = expect gs d f c.
Proof.
  intros Hd. unfold expect.
  rewrite <- (rsum_marginal gs d (fun g => f g * c (nth d g 0%nat)) Hd).
  apply rsum_ext. intros j Hj. unfold marginal.
  rewrite <- msum_scale_r. apply msum_ext. intros x1 Hx1.
  rewrite <- msum_scale_r. apply msum_ext. intros x2 Hx2.
  rewrite nth_app_cons; [reflexivity |].
  rewrite (in_range_length _ _ Hx1). apply (split_at gs d Hd).
Qed.

Lemma item_out_idx (bs p : list nat) (r : tensor) :
  shape r = out_shape bs -> in_range bs p ->
  item r (out_idx bs p) = nth (ravel bs p) (data r) 0.
Proof.
  intros Hs Hp. unfold item. rewrite Hs, ravel_out_idx by assumption. reflexivity.
Qed.

(** [_coord_expectation] with a transform: the expectation of the
    transformed coordinate. *)
Lemma coord_expectation_expect (bs gs : list nat) (h : tensor) (d : nat)
  (transform : option (tensor -> result tensor)) (oc : tensor) :
  shape h = bs ++ gs -> (0 < prod bs)%nat -> (0 < prod gs)%nat ->
  (d < length gs)%nat ->
  (forall axis, _normalized_linspace (Z.of_nat (nth d gs 0%nat)) h = Ok axis ->
     match transform with Some f => f axis | None => Ok axis end = Ok oc) ->
  shape oc = [nth d gs 0%nat] ->
  exists r,
    _coord_expectation h (Z.of_nat d - Z.of_nat (length gs)) (length gs) transform = Ok r /\
    shape r = out_shape bs /\ wf r /\
    forall p, in_range bs p ->
      item r (out_idx bs p) = expect gs d (fun g => item h (p ++ g)) (fun j => item oc [j]).
Proof.
  intros Hs Hb Hg Hd Htr Hoc.
  destruct (coord_expectation_spec bs gs h d transform oc Hs Hb Hg Hd Htr Hoc)
    as (r & Hr & Hsr & Hlr & Hdr).
  exists r. split; [exact Hr |]. split; [exact Hsr |]. split.
  { unfold wf. rewrite Hlr, Hsr. destruct bs; simpl; lia. }
  intros p Hp. rewrite item_out_idx by assumption.
  rewrite Hdr by assumption. apply rsum_marginal_expect. assumption.
Qed.

Lemma wf_normalized_axis (L : nat) : wf (normalized_axis L).
Proof. unfold wf, normalized_axis. simpl. rewrite length_map, length_seq. lia. Qed.

Lemma item_normalized_axis (L j : nat) :
  (j < L)%nat -> item (normalized_axis L) [j] = cell_coord L j.
Proof.
  intros H. unfold item, normalized_axis. simpl.
  rewrite Nat.mul_1_r, Nat.add_0_r. apply nth_map_seq. assumption.
Qed.

Lemma normalized_linspace_tensor (L : nat) (t : tensor) :
  (1 <= L)%nat -> _normalized_linspace (Z.of_nat L) t = Ok (normalized_axis L).
Proof.
  intros HL.
  destruct (normalized_linspace_shape (Z.of_nat L) t) as (axis & Hax & Hsa); [lia |].
  rewrite Nat2Z.id in Hsa. rewrite Hax. f_equal.
  apply tensor_ext.
  - pose proof Hax as H. rewrite normalized_linspace_ok in H by lia.
    injection H as <-. unfold wf. simpl. rewrite length_map, length_seq. lia.
  - apply wf_normalized_axis.
  - exact Hsa.
  - intros idx Hi. rewrite Hsa in Hi.
    destruct (in_range_1 _ _ Hi) as (j & -> & Hj).
    rewrite item_normalized_axis by assumption.
    apply (normalized_axis_item L j t); assumption.
Qed.

(** X1: [_coord_expectation] with a transform that maps the normalized
    axis to a vector [oc] of as many entries: for a tensor of shape
    [bs ++ gs] with entries, the result holds for every sample the sum
    over the grid cells [g] of [h[p, g] * oc[g_d]], the expectation of the
    transformed coordinate under the weights of the sample (which need not
    sum to 1). *)
Theorem coord_expectation_transform (bs gs : list nat) (h : tensor) (d : nat)
  (f : tensor -> result tensor) (oc : tensor) :
  shape h = bs ++ gs -> (0 < prod bs)%nat -> (0 < prod gs)%nat ->
  (d < length gs)%nat ->
  f (normalized_axis (nth d gs 0%nat)) = Ok oc -> shape oc = [nth d gs 0%nat] ->
  exists r,
    _coord_expectation h (Z.of_nat d - Z.of_nat (length gs)) (length gs) (Some f) = Ok r /\
    shape r = out_shape bs /\
    forall p, in_range bs p ->
      item r (out_idx bs p)
      = expect gs d (fun g => item h (p ++ g)) (fun j => item oc [j]).
Proof.
  intros Hs Hb Hg Hd Hf Hoc.
  assert (HL : (1 <= nth d gs 0)%nat).
  { destruct (split_at gs d Hd) as (E & _ & _).
    rewrite E, prod_app in Hg. simpl in Hg. nia. }
  destruct (coord_expectation_expect bs gs h d (Some f) oc Hs Hb Hg Hd)
    as (r & Hr & Hsr & _ & Hir).
  - intros axis Hax. rewrite normalized_linspace_tensor in Hax by assumption.
    injection Hax as <-. exact Hf.
  - exact Hoc.
  - exists r. auto.
Qed.

Lemma coord_expectation_transform_witness :
  exists r,
    _coord_expectation swapped_pair (Z.of_nat 0 - Z.of_nat (length [2%nat]))
      (length [2%nat]) (Some (fun x => Ok (pow2 x))) = Ok r /\
    shape r = out_shape [2%nat] /\
    forall p, in_range [2%nat] p ->
      item r (out_idx [2%nat] p)
      = expect [2%nat] 0 (fun g => item swapped_pair (p ++ g))
          (fun j => item (pow2 (normalized_axis 2)) [j]).
Proof.
  apply (coord_expectation_transform [2%nat] [2%nat] swapped_pair 0
           (fun x => Ok (pow2 x)) (pow2 (normalized_axis 2)));
    [reflexivity | simpl; lia | simpl; lia | simpl; lia | reflexivity | reflexivity].
Defined.

(** [dsnt] in terms of the means of the coordinates. *)
Lemma dsnt_coord_mean (bs gs : list nat) (h : tensor) :
  shape h = bs ++ gs -> (1 <= length gs)%nat -> (0 < prod bs)%nat -> (0 < prod gs)%nat ->
  exists r,
    dsnt h (length gs) = Ok r /\
    shape r = out_shape bs ++ [length gs] /\
    forall p k, in_range bs p -> (k < length gs)%nat ->
      item r (out_idx bs p ++ [k])
      = coord_mean gs (length gs - 1 - k) (fun g => item h (p ++ g)).
Proof.
  intros Hs Hn Hb Hg.
  destruct (dsnt_spec bs gs h Hs Hb Hg Hn) as (r & Hr & Hsr & _ & Hitem).
  exists r. split; [exact Hr |]. split; [exact Hsr |].
  intros p k Hp Hk.
  destruct (Hitem p k Hp Hk) as (axis & Hax & Hval).
  set (d := (length gs - 1 - k)%nat) in *.
  assert (Hd : (d < length gs)%nat) by (unfold d; lia).
  assert (HL : (1 <= nth d gs 0)%nat).
  { destruct (split_at gs d Hd) as (E & _ & _).
    rewrite E, prod_app in Hg. simpl in Hg. nia. }
  rewrite Hval. unfold coord_mean.
  rewrite <- rsum_marginal_expect by assumption.
  apply rsum_ext. intros j Hj. f_equal.
  apply (normalized_axis_item _ j h); assumption.
Qed.

(** X2: for every tensor of shape [bs ++ gs] with entries and
    [ndims = length gs >= 1], [dsnt] returns a tensor of shape
    [bs ++ [ndims]] ([[1; ndims]] without batch axes) whose component [k]
    of sample [p] is the mean of the normalized coordinate of grid axis
    [ndims-1-k] under the weights of the sample. *)
Theorem dsnt_mean (bs gs : list nat) (h : tensor) :
  shape h = bs ++ gs -> (1 <= length gs)%nat -> (0 < prod bs)%nat -> (0 < prod gs)%nat ->
  exists r,
    dsnt h (length gs) = Ok r /\
    shape r = out_shape bs ++ [length gs] /\
    forall p k, in_range bs p -> (k < length gs)%nat ->
      item r (out_idx bs p ++ [k])
      = coord_mean gs (length gs - 1 - k) (fun g => item h (p ++ g)).
Proof. intros Hs Hn Hb Hg. apply dsnt_coord_mean; assumption. Qed.

Lemma dsnt_mean_witness :
  exists r,
    dsnt swapped_pair (length [2%nat]) = Ok r /\
    shape r = out_shape [2%nat] ++ [length [2%nat]] /\
    forall p k, in_range [2%nat] p -> (k < length [2%nat])%nat ->
      item r (out_idx [2%nat] p ++ [k])
      = coord_mean [2%nat] (length [2%nat] - 1 - k) (fun g => item swapped_pair (p ++ g)).
Proof.
  apply (dsnt_mean [2%nat] [2%nat] swapped_pair);
    [reflexivity | simpl; lia | simpl; lia | simpl; lia].
Defined.

(** ** The coordinate variance *)

Lemma expect_ext (gs : list nat) (d : nat) (f f' : list nat -> R) (c c' : nat -> R) :
  (d < length gs)%nat ->
  (forall g, in_range gs g -> f g = f' g) ->
  (forall j, (j < nth d gs 0)%nat -> c j = c' j) ->
  expect gs d f c = expect gs d f' c'.
Proof.
  intros Hd Hf Hc. unfold expect. apply msum_ext. intros g Hg.
  rewrite Hf by assumption. rewrite Hc; [reflexivity |].
  apply in_range_nth; assumption.
Qed.

Lemma extent_pos (gs : list nat) (d : nat) :
  (0 < prod gs)%nat -> (d < length gs)%nat -> (1 <= nth d gs 0)%nat.
Proof.
  intros Hg Hd. destruct (split_at gs d Hd) as (E & _ & _).
  rewrite E, prod_app in Hg. simpl in Hg. nia.
Qed.

Lemma coord_variance_expect (gs : list nat) (h : tensor) (d : nat) :
  shape h = gs -> (0 < prod gs)%nat -> (d < length gs)%nat ->
  exists v,
    _coord_variance h (Z.of_nat d - Z.of_nat (length gs)) (length gs) = Ok v /\
    shape v = [1%nat] /\ wf v /\
    item v [0%nat] = coord_var gs d (fun g => item h g).
Proof.
  intros Hs Hg Hd.
  assert (Hb : (0 < prod (@nil nat))%nat) by (simpl; lia).
  set (L := nth d gs 0%nat).
  assert (HL : (1 <= L)%nat) by (apply extent_pos; assumption).
  destruct (coord_expectation_expect [] gs h d None (normalized_axis L) Hs Hb Hg Hd)
    as (mu & Hmu & Hsmu & Hwmu & Himu).
  { intros axis Hax. fold L in Hax. rewrite normalized_linspace_tensor in Hax by assumption.
    symmetry. exact Hax. }
  { reflexivity. }
  specialize (Himu [] (Forall2_nil _)). cbn [out_idx app] in Himu.
  cbn [out_shape] in Hsmu.
  destruct (sub_axis_mean [] (normalized_axis L) mu L eq_refl Hsmu)
    as (D & HD & HsD & HwD & HiD).
  cbn [app] in HsD, HiD.
  destruct (coord_expectation_expect [] gs h d
              (Some (fun x => d0 <- sub x mu ;; Ok (pow2 d0))) (pow2 D) Hs Hb Hg Hd)
    as (v & Hv & Hsv & Hwv & Hiv).
  { intros axis Hax. fold L in Hax. rewrite normalized_linspace_tensor in Hax by assumption.
    injection Hax as <-. rewrite HD. reflexivity. }
  { exact HsD. }
  exists v. split.
  { unfold _coord_variance. rewrite Hmu. cbn [bind]. exact Hv. }
  split; [exact Hsv |]. split; [exact Hwv |].
  specialize (Hiv [] (Forall2_nil _)). cbn [out_idx app] in Hiv.
  rewrite Hiv. unfold coord_var. apply expect_ext; [assumption | reflexivity |].
  intros j Hj. fold L in Hj |- *.
  unfold pow2. rewrite item_tmap;
    [| exact HwD | rewrite HsD; constructor; [assumption | constructor]].
  pose proof (HiD [] j (Forall2_nil _) Hj) as H0. cbn [app] in H0.
  rewrite H0, Himu, item_normalized_axis by assumption.
  unfold coord_mean. fold L. f_equal. f_equal.
  apply expect_ext; [assumption | reflexivity |].
  intros i Hi. apply item_normalized_axis. assumption.
Qed.

(** Expectations under a probability distribution. *)
Lemma expect_const (gs : list nat) (d : nat) (f : list nat -> R) (k : R) :
  expect gs d f (fun _ => k) = msum gs f * k.
Proof. unfold expect. apply msum_scale_r. Qed.

Lemma msum_plus (s : list nat) (f g : list nat -> R) :
  msum s (fun idx => f idx + g idx) = msum s f + msum s g.
Proof.
  revert f g. induction s as [|n s IH]; intros f g; simpl.
  - reflexivity.
  - rewrite <- rsum_plus. apply rsum_ext. intros k Hk. apply IH.
Qed.

Lemma msum_scale_l (s : list nat) (f : list nat -> R) (c : R) :
  msum s (fun idx => c * f idx) = c * msum s f.
Proof.
  rewrite Rmult_comm, <- msum_scale_r. apply msum_ext. intros; lra.
Qed.

Lemma msum_le (s : list nat) (f g : list nat -> R) :
  (forall idx, in_range s idx -> f idx <= g idx) -> msum s f <= msum s g.
Proof.
  revert f g. induction s as [|n s IH]; intros f g H; simpl.
  - apply H. constructor.
  - apply rsum_le. intros k Hk. apply IH.
    intros idx Hi. apply H. constructor; assumption.
Qed.

Lemma expect_plus (gs : list nat) (d : nat) (f : list nat -> R) (c c' : nat -> R) :
  expect gs d f (fun j => c j + c' j) = expect gs d f c + expect gs d f c'.
Proof.
  unfold expect. rewrite <- msum_plus. apply msum_ext. intros; lra.
Qed.

Lemma expect_scale (gs : list nat) (d : nat) (f : list nat -> R) (c : nat -> R) (k : R) :
  expect gs d f (fun j => k * c j) = k * expect gs d f c.
Proof.
  unfold expect. rewrite <- msum_scale_l. apply msum_ext. intros; lra.
Qed.

Lemma expect_nonneg (gs : list nat) (d : nat) (f : list nat -> R) (c : nat -> R) :
  (d < length gs)%nat ->
  (forall g, in_range gs g -> 0 <= f g) ->
  (forall j, (j < nth d gs 0)%nat -> 0 <= c j) -> 0 <= expect gs d f c.
Proof.
  intros Hd Hf Hc. unfold expect. apply msum_nonneg. intros g Hg.
  apply Rmult_le_pos; [apply Hf; assumption |].
  apply Hc. apply in_range_nth; assumption.
Qed.

Lemma expect_le (gs : list nat) (d : nat) (f : list nat -> R) (c c' : nat -> R) :
  (d < length gs)%nat ->
  (forall g, in_range gs g -> 0 <= f g) ->
  (forall j, (j < nth d gs 0)%nat -> c j <= c' j) ->
  expect gs d f c <= expect gs d f c'.
Proof.
  intros Hd Hf Hc. unfold expect. apply msum_le. intros g Hg.
  apply Rmult_le_compat_l; [apply Hf; assumption |].
  apply Hc. apply in_range_nth; assumption.
Qed.

Lemma coord_var_moments (gs : list nat) (d : nat) (f : list nat -> R) :
  msum gs f = 1 ->
  coord_var gs d f
  = expect gs d f (fun j => cell_coord (nth d gs 0%nat) j ^ 2) - coord_mean gs d f ^ 2.
Proof.
  intros H1. unfold coord_var. set (mu := coord_mean gs d f).
  set (x := cell_coord (nth d gs 0%nat)).
  transitivity (expect gs d f (fun j => x j ^ 2 + ((-2 * mu) * x j + mu ^ 2))).
  { unfold expect. apply msum_ext. intros g Hg. cbv beta. ring. }
  rewrite expect_plus, expect_plus, expect_scale, expect_const, H1.
  subst mu x. unfold coord_mean.
  set (A := expect gs d f (fun j => _ ^ 2)). set (E := expect gs d f _). ring.
Qed.

Lemma cell_coord_bounds (L j : nat) :
  (j < L)%nat -> -1 < cell_coord L j < 1.
Proof.
  intros Hj. unfold cell_coord.
  assert (HL : 1 <= INR L) by (change 1 with (INR 1); apply le_INR; lia).
  assert (Hj0 : 0 <= INR j) by apply pos_INR.
  assert (Hj1 : INR j <= INR L - 1).
  { replace (INR L - 1) with (INR (L - 1)) by (rewrite minus_INR by lia; reflexivity).
    apply le_INR. lia. }
  assert (Hinv : 0 < / INR L) by (apply Rinv_0_lt_compat; lra).
  replace (- (INR L - 1) / INR L + INR j * 2 / INR L)
    with ((2 * INR j + 1 - INR L) * / INR L) by (field; lra).
  split.
  - apply Rmult_lt_reg_r with (INR L); [lra |].
    rewrite Rmult_assoc, Rinv_l by lra. lra.
  - apply Rmult_lt_reg_r with (INR L); [lra |].
    rewrite Rmult_assoc, Rinv_l by lra. lra.
Qed.

Lemma cell_coord_range (L j : nat) :
  (j < L)%nat ->
  - ((INR L - 1) / INR L) <= cell_coord L j <= (INR L - 1) / INR L.
Proof.
  intros Hj. unfold cell_coord.
  assert (HL : 1 <= INR L) by (change 1 with (INR 1); apply le_INR; lia).
  assert (Hj0 : 0 <= INR j) by apply pos_INR.
  assert (Hj1 : INR j <= INR L - 1).
  { replace (INR L - 1) with (INR (L - 1)) by (rewrite minus_INR by lia; reflexivity).
    apply le_INR. lia. }
  assert (Hinv : 0 < / INR L) by (apply Rinv_0_lt_compat; lra).
  unfold Rdiv. split.
  - assert (0 <= INR j * 2 * / INR L) by (apply Rmult_le_pos; lra). lra.
  - assert (INR j * 2 * / INR L <= (INR L - 1) * 2 * / INR L)
      by (apply Rmult_le_compat_r; lra).
    lra.
Qed.

Lemma expect_bounds (gs : list nat) (d : nat) (f : list nat -> R) (c : nat -> R)
  (lo hi : R) :
  (d < length gs)%nat ->
  (forall g, in_range gs g -> 0 <= f g) -> msum gs f = 1 ->
  (forall j, (j < nth d gs 0)%nat -> lo <= c j <= hi) ->
  lo <= expect gs d f c <= hi.
Proof.
  intros Hd Hf H1 Hc.
  pose proof (expect_le gs d f (fun _ => lo) c Hd Hf (fun j Hj => proj1 (Hc j Hj))) as Hlo.
  pose proof (expect_le gs d f c (fun _ => hi) Hd Hf (fun j Hj => proj2 (Hc j Hj))) as Hhi.
  rewrite expect_const, H1 in Hlo, Hhi. lra.
Qed.

(** X8: for a tensor of shape [gs] without batch axes,
    [_coord_variance] returns one number, the sum over the grid cells of
    [h[g] * (x[g_d] - mu)^2] for the coordinate [x] of axis [d] and its
    mean [mu] under the weights [h]. *)
Theorem coord_variance_unbatched (gs : list nat) (h : tensor) (d : nat) :
  shape h = gs -> (0 < prod gs)%nat -> (d < length gs)%nat ->
  exists v,
    _coord_variance h (Z.of_nat d - Z.of_nat (length gs)) (length gs) = Ok v /\
    shape v = [1%nat] /\
    item v [0%nat] = coord_var gs d (fun g => item h g).
Proof.
  intros Hs Hg Hd.
  destruct (coord_variance_expect gs h d Hs Hg Hd) as (v & Hv & Hsv & _ & Hiv).
  exists v. auto.
Qed.

Lemma coord_variance_unbatched_witness :
  exists v,
    _coord_variance (mkT [2%nat] [0; 1]) (Z.of_nat 0 - Z.of_nat (length [2%nat]))
      (length [2%nat]) = Ok v /\
    shape v = [1%nat] /\
    item v [0%nat] = coord_var [2%nat] 0 (fun g => item (mkT [2%nat] [0; 1]) g).
Proof.
  apply (coord_variance_unbatched [2%nat] (mkT [2%nat] [0; 1]) 0);
    [reflexivity | simpl; lia | simpl; lia].
Defined.

Lemma heatmap_prod_pos (bs gs : list nat) (h : tensor) :
  (0 < prod bs)%nat -> is_heatmap bs gs h -> (0 < prod gs)%nat.
Proof.
  intros Hb Hh.
  destruct (Hh _ (prod_pos_in_range bs Hb)) as [_ Hsum].
  destruct (Nat.eq_dec (prod gs) 0) as [E|E]; [| lia].
  rewrite msum_zero_extent in Hsum by assumption. lra.
Qed.

(** X9: for a probability heatmap without batch axes,
    [_coord_variance] is [E[X^2] - E[X]^2], and it is at least 0 and below
    1. *)
Theorem coord_variance_unbatched_bounds (gs : list nat) (h : tensor) (d : nat) :
  shape h = gs -> (d < length gs)%nat -> is_heatmap [] gs h ->
  exists v,
    _coord_variance h (Z.of_nat d - Z.of_nat (length gs)) (length gs) = Ok v /\
    item v [0%nat]
    = expect gs d (fun g => item h g) (fun j => cell_coord (nth d gs 0%nat) j ^ 2)
      - coord_mean gs d (fun g => item h g) ^ 2 /\
    0 <= item v [0%nat] < 1.
Proof.
  intros Hs Hd Hh.
  assert (Hg : (0 < prod gs)%nat).
  { apply (heatmap_prod_pos [] gs h); [simpl; lia | assumption]. }
  destruct (coord_variance_expect gs h d Hs Hg Hd) as (v & Hv & Hsv & _ & Hiv).
  exists v. split; [exact Hv |].
  destruct (Hh [] (Forall2_nil _)) as [Hnn Hsum]. cbn [app] in Hnn, Hsum.
  split; [rewrite Hiv; apply coord_var_moments; exact Hsum |].
  split.
  - rewrite Hiv. unfold coord_var.
    apply expect_nonneg; try assumption. intros j Hj. apply pow2_ge_0.
  - rewrite Hiv, coord_var_moments by exact Hsum.
    set (L := nth d gs 0%nat).
    assert (HL : (1 <= L)%nat) by (apply extent_pos; assumption).
    assert (HLr : 1 <= INR L) by (change 1 with (INR 1); apply le_INR; lia).
    set (b := (INR L - 1) / INR L).
    assert (Hb : 0 <= b < 1).
    { unfold b, Rdiv. assert (Hinv : 0 < / INR L) by (apply Rinv_0_lt_compat; lra).
      split; [apply Rmult_le_pos; lra |].
      apply Rmult_lt_reg_r with (INR L); [lra |].
      rewrite Rmult_assoc, Rinv_l by lra. lra. }
    assert (He : expect gs d (fun g => item h g) (fun j => cell_coord L j ^ 2) <= b ^ 2).
    { apply (expect_bounds gs d _ _ 0 (b ^ 2) Hd Hnn Hsum).
      intros j Hj. fold L in Hj. pose proof (cell_coord_range L j Hj) as Hc. fold b in Hc.
      split; [apply pow2_ge_0 | nra]. }
    pose proof (pow2_ge_0 (coord_mean gs d (fun g => item h g))). nra.
Qed.

Lemma half_half_is_heatmap : is_heatmap [] [2%nat] (mkT [2%nat] [/ 2; / 2]).
Proof.
  intros p Hp. split.
  - intros g Hg. destruct (in_range_1 _ _ Hg) as (i & -> & Hi).
    inversion Hp; subst. destruct i as [|[|i]]; [| | lia]; cbv; lra.
  - inversion Hp; subst. cbv. lra.
Qed.

Lemma coord_variance_unbatched_bounds_witness :
  is_heatmap [] [2%nat] (mkT [2%nat] [/ 2; / 2]) /\
  exists v,
    _coord_variance (mkT [2%nat] [/ 2; / 2]) (Z.of_nat 0 - Z.of_nat (length [2%nat]))
      (length [2%nat]) = Ok v /\
    item v [0%nat]
    = expect [2%nat] 0 (fun g => item (mkT [2%nat] [/ 2; / 2]) g)
        (fun j => cell_coord (nth 0 [2%nat] 0%nat) j ^ 2)
      - coord_mean [2%nat] 0 (fun g => item (mkT [2%nat] [/ 2; / 2]) g) ^ 2 /\
    0 <= item v [0%nat] < 1.
Proof.
  split; [exact half_half_is_heatmap |].
  apply (coord_variance_unbatched_bounds [2%nat] (mkT [2%nat] [/ 2; / 2]) 0);
    [reflexivity | simpl; lia | exact half_half_is_heatmap].
Defined.

(** ** The coordinate variance of a batch *)

Lemma zip_bdim_ones_mismatch (bs : list nat) (L B : nat) :
  L <> B -> L <> 1%nat -> B <> 1%nat ->
  zip_bdim (repeat 1%nat (length bs) ++ [L]) (bs ++ [B]) = Raise RuntimeError.
Proof.
  intros H1 H2 H3. induction bs as [|b bs IH]; simpl.
  - unfold bdim.
    destruct (Nat.eqb_spec L B); [contradiction |].
    destruct (Nat.eqb_spec L 1); [contradiction |].
    destruct (Nat.eqb_spec B 1); [contradiction |]. reflexivity.
  - rewrite bdim_one_l. cbn [bind]. rewrite IH. reflexivity.
Qed.

Lemma broadcast_last_mismatch (bs : list nat) (L B : nat) :
  L <> B -> L <> 1%nat -> B <> 1%nat ->
  broadcast_shape [L] (bs ++ [B]) = Raise RuntimeError.
Proof.
  intros H1 H2 H3. unfold broadcast_shape, pad.
  rewrite length_app. cbn [length].
  replace (Nat.max 1 (length bs + 1)) with (length bs + 1)%nat by lia.
  replace (length bs + 1 - 1)%nat with (length bs) by lia.
  rewrite Nat.sub_diag. cbn [repeat app].
  apply zip_bdim_ones_mismatch; assumption.
Qed.

Lemma coord_variance_raises (bs gs : list nat) (B : nat) (h : tensor) (d : nat) :
  shape h = bs ++ B :: gs -> (0 < numel h)%nat -> (d < length gs)%nat ->
  B <> 1%nat -> nth d gs 0%nat <> 1%nat -> B <> nth d gs 0%nat ->
  _coord_variance h (Z.of_nat d - Z.of_nat (length gs)) (length gs)
  = Raise RuntimeError.
Proof.
  intros Hs Hnum Hd HB HL HBL.
  assert (Hs' : shape h = (bs ++ [B]) ++ gs) by (rewrite <- app_assoc; exact Hs).
  unfold numel in Hnum. rewrite Hs', prod_app in Hnum.
  assert (Hb : (0 < prod (bs ++ [B]))%nat) by nia.
  assert (Hg : (0 < prod gs)%nat) by nia.
  set (L := nth d gs 0%nat) in *.
  assert (HL1 : (1 <= L)%nat) by (apply extent_pos; assumption).
  destruct (coord_expectation_expect (bs ++ [B]) gs h d None (normalized_axis L) Hs' Hb Hg Hd)
    as (mu & Hmu & Hsmu & _ & _).
  { intros axis Hax. fold L in Hax. rewrite normalized_linspace_tensor in Hax by assumption.
    symmetry. exact Hax. }
  { reflexivity. }
  assert (Hsmu' : shape mu = bs ++ [B]).
  { rewrite Hsmu. destruct bs; reflexivity. }
  unfold _coord_variance. rewrite Hmu. cbn [bind].
  unfold _coord_expectation.
  rewrite Hs', getitem_app_r by assumption. cbn [bind]. fold L.
  rewrite normalized_linspace_tensor by assumption. cbn [bind].
  unfold sub, map2b. rewrite Hsmu'. cbn [normalized_axis shape].
  rewrite broadcast_last_mismatch by congruence. reflexivity.
Qed.

(** ** Sums along the last axis *)

Lemma tabulate_ext (s : list nat) (f g : list nat -> R) :
  (forall idx, in_range s idx -> f idx = g idx) -> tabulate s f = tabulate s g.
Proof.
  intros H. unfold tabulate. f_equal. apply map_ext_in.
  intros n Hn. apply in_seq in Hn. apply H. apply unravel_in_range. lia.
Qed.

Lemma sum_dim_last (t : tensor) (s : list nat) (n : nat) :
  shape t = s ++ [n] ->
  sum_dim t (-1) false
  = Ok (tabulate s (fun q => rsum n (fun j => item t (q ++ [j])))).
Proof.
  intros Hs. unfold sum_dim. rewrite Hs, length_app. cbn [length].
  rewrite norm_index_neg by lia. cbn [bind].
  replace (Z.to_nat (-1 + Z.of_nat (length s + 1))) with (length s) by lia.
  rewrite app_nth2, Nat.sub_diag by lia. cbn [nth].
  rewrite remove_nth_end. f_equal. apply tabulate_ext.
  intros idx Hi. apply rsum_ext. intros j Hj.
  rewrite <- (in_range_length _ _ Hi), insert_nth_end. reflexivity.
Qed.

(** ** A vector broadcast along the last axis *)

Lemma zip_bdim_ones_r (s : list nat) (n : nat) :
  zip_bdim (s ++ [n]) (repeat 1%nat (length s) ++ [n]) = Ok (s ++ [n]).
Proof.
  induction s as [|x s IH]; simpl.
  - rewrite bdim_same. reflexivity.
  - rewrite bdim_one_r. cbn [bind]. rewrite IH. reflexivity.
Qed.

Lemma broadcast_shape_row (s : list nat) (n : nat) :
  broadcast_shape (s ++ [n]) [n] = Ok (s ++ [n]).
Proof.
  unfold broadcast_shape, pad. rewrite length_app. cbn [length].
  replace (Nat.max (length s + 1) 1) with (length s + 1)%nat by lia.
  rewrite Nat.sub_diag. cbn [repeat app].
  replace (length s + 1 - 1)%nat with (length s) by lia.
  apply zip_bdim_ones_r.
Qed.

Lemma bproj_row (n k : nat) (q : list nat) :
  (k < n)%nat -> bproj [n] (q ++ [k]) = [k].
Proof.
  intros Hk. unfold bproj. rewrite length_app. cbn [length].
  replace (length q + 1 - 1)%nat with (length q) by lia.
  rewrite skipn_app, skipn_all, Nat.sub_diag. cbn [skipn app combine map fst snd].
  destruct (Nat.eqb_spec n 1); [f_equal; lia | reflexivity].
Qed.

Lemma map2b_row (f : R -> R -> R) (a b : tensor) (s : list nat) (n : nat) :
  shape a = s ++ [n] -> shape b = [n] ->
  exists c, map2b f a b = Ok c /\ shape c = s ++ [n] /\ wf c /\
    forall q k, in_range s q -> (k < n)%nat ->
      item c (q ++ [k]) = f (item a (q ++ [k])) (item b [k]).
Proof.
  intros Ha Hb. unfold map2b. rewrite Ha, Hb, broadcast_shape_row. cbn [bind].
  eexists. split; [reflexivity |]. split; [reflexivity |]. split; [apply wf_tabulate |].
  intros q k Hq Hk.
  assert (Hi : in_range (s ++ [n]) (q ++ [k])).
  { apply in_range_app; [assumption |]. constructor; [assumption | constructor]. }
  rewrite item_tabulate by assumption.
  rewrite bproj_same by assumption. rewrite bproj_row by assumption. reflexivity.
Qed.

(** ** [variance_reg_losses] without batch axes *)

Lemma item_tensor_of_list (l : list R) (k : nat) :
  item (tensor_of_list l) [k] = nth k l 0.
Proof. unfold item, tensor_of_list. simpl. f_equal. lia. Qed.

Lemma wf_tensor_of_list (l : list R) : wf (tensor_of_list l).
Proof. unfold wf, tensor_of_list. simpl. lia. Qed.

(** [variance_reg_losses] from the variances along the axes: [V k q] is the
    variance of sample [q] along grid axis [k]. *)
Lemma variance_reg_losses_from (gs S : list nat) (h : tensor) (sigma_t : R)
  (V : nat -> list nat -> R) :
  slice_from_neg (length gs) (shape h) = gs -> (1 <= length gs)%nat ->
  (forall k, (k < length gs)%nat ->
     exists v, _coord_variance h (Z.of_nat k - Z.of_nat (length gs)) (length gs) = Ok v /\
       shape v = S /\ forall q, in_range S q -> item v q = V k q) ->
  exists r,
    variance_reg_losses h sigma_t (length gs) = Ok r /\
    shape r = S /\
    forall q, in_range S q ->
      item r q
      = rsum (length gs)
          (fun k => (V k q * (INR (nth k gs 0%nat) / 2) ^ 2 - sigma_t ^ 2) ^ 2).
Proof.
  intros Hsl Hn Hvar. set (n := length gs) in *.
  unfold variance_reg_losses. rewrite range_neg, mapM_map.
  destruct (mapM_seq_exists
    (fun k => _coord_variance h (- Z.of_nat n + Z.of_nat k) n)
    (fun k v => shape v = S /\ forall q, in_range S q -> item v q = V k q)
    (mkT [] []) n 0%nat) as (vs & Hvs & Hlen & Hall).
  { intros k Hk. destruct (Hvar k) as (v & Hv & Hsv & Hiv); [lia |].
    exists v. split; [| auto].
    rewrite <- Hv. f_equal. lia. }
  rewrite Hvs. cbn [bind].
  destruct (stack_last vs S) as (var & Hvar' & Hsvar & Hwvar & Hivar).
  { destruct vs; [simpl in Hlen; lia | discriminate]. }
  { intros t Ht. destruct (In_nth vs t (mkT [] []) Ht) as (k & Hk & <-).
    destruct (Hall k) as [H _]; [lia | exact H]. }
  rewrite Hvar'. cbn [bind]. rewrite Hlen in Hsvar.
  unfold _type_as. rewrite Hsl.
  set (hs := pow2 (div_scalar (tensor_of_list (map INR gs)) 2)).
  assert (Hshs : shape hs = [n]).
  { unfold hs, pow2, div_scalar, tmap, tensor_of_list. cbn [shape].
    rewrite !length_map. reflexivity. }
  destruct (map2b_row Rmult var hs S n Hsvar Hshs) as (av & Hav & Hsav & Hwav & Hiav).
  unfold mul. rewrite Hav. cbn [bind].
  rewrite (sum_dim_last _ S n)
    by (unfold pow2, sub_scalar, tmap; cbn [shape]; exact Hsav).
  eexists. split; [reflexivity |]. split; [reflexivity |].
  intros q Hq. rewrite item_tabulate by assumption.
  apply rsum_ext. intros k Hk.
  assert (Hi : in_range (shape av) (q ++ [k])).
  { rewrite Hsav. apply in_range_app; [assumption |]. constructor; [assumption | constructor]. }
  unfold pow2 at 1. rewrite item_tmap;
    [| apply wf_tmap; assumption | unfold sub_scalar, tmap; cbn [shape]; exact Hi].
  unfold sub_scalar. rewrite item_tmap by assumption.
  rewrite (Hiav q k Hq Hk), (Hivar q k Hq) by lia.
  destruct (Hall k Hk) as (_ & Hik). simpl Nat.add in Hik. rewrite (Hik q Hq).
  f_equal. f_equal. f_equal.
  unfold hs, pow2. rewrite item_tmap.
  - unfold div_scalar. rewrite item_tmap.
    + rewrite item_tensor_of_list.
      rewrite (nth_indep _ 0 (INR 0)) by (rewrite length_map; fold n; lia).
      rewrite map_nth. reflexivity.
    + apply wf_tensor_of_list.
    + unfold tensor_of_list. cbn [shape]. rewrite length_map. fold n.
      constructor; [assumption | constructor].
  - apply wf_tmap, wf_tensor_of_list.
  - unfold div_scalar, tmap, tensor_of_list. cbn [shape]. rewrite length_map. fold n.
    constructor; [assumption | constructor].
Qed.

Lemma variance_reg_losses_expect (gs : list nat) (h : tensor) (sigma_t : R) :
  shape h = gs -> (1 <= length gs)%nat -> (0 < prod gs)%nat ->
  exists r,
    variance_reg_losses h sigma_t (length gs) = Ok r /\
    shape r = [1%nat] /\
    item r [0%nat]
    = rsum (length gs)
        (fun k => (coord_var gs k (fun g => item h g) * (INR (nth k gs 0%nat) / 2) ^ 2
                   - sigma_t ^ 2) ^ 2).
Proof.
  intros Hs Hn Hg.
  destruct (variance_reg_losses_from gs [1%nat] h sigma_t
              (fun k _ => coord_var gs k (fun g => item h g)))
    as (r & Hr & Hsr & Hir).
  - rewrite Hs. apply (slice_from_neg_app [] gs). lia.
  - assumption.
  - intros k Hk.
    destruct (coord_variance_expect gs h k Hs Hg Hk) as (v & Hv & Hsv & _ & Hiv).
    exists v. split; [exact Hv |]. split; [exact Hsv |].
    intros q Hq. destruct (in_range_1 _ _ Hq) as (i & -> & Hi).
    replace i with 0%nat by lia. exact Hiv.
  - exists r. split; [exact Hr |]. split; [exact Hsr |].
    apply Hir. constructor; [lia | constructor].
Qed.

Lemma expect_one_hot (gs c : list nat) (d : nat) (f : list nat -> R) (k : nat -> R) :
  in_range gs c ->
  (forall g, in_range gs g -> f g = if eqb_idx g c then 1 else 0) ->
  expect gs d f k = k (nth d c 0%nat).
Proof.
  intros Hc Hf. unfold expect.
  rewrite (msum_ext gs _ (fun g => if eqb_idx g c then k (nth d g 0%nat) else 0)).
  - apply (msum_indicator gs c (fun g => k (nth d g 0%nat))). assumption.
  - intros g Hg. rewrite Hf by assumption. destruct (eqb_idx g c); lra.
Qed.

Lemma coord_var_one_hot (gs c : list nat) (d : nat) (f : list nat -> R) :
  in_range gs c ->
  (forall g, in_range gs g -> f g = if eqb_idx g c then 1 else 0) ->
  coord_var gs d f = 0.
Proof.
  intros Hc Hf. unfold coord_var, coord_mean.
  rewrite (expect_one_hot gs c d f _ Hc Hf).
  rewrite (expect_one_hot gs c d f _ Hc Hf). ring.
Qed.

Lemma rsum_const (n : nat) (c : R) : rsum n (fun _ => c) = INR n * c.
Proof.
  induction n as [|n IH]; [simpl; lra |].
  cbn [rsum]. rewrite IH, S_INR. ring.
Qed.

(** X13: for a tensor of shape [gs] without batch axes,
    [variance_reg_losses] returns one number, the sum over the grid axes
    [k] of [(Var_k * (L_k / 2)^2 - sigma_t^2)^2] for the variance [Var_k]
    of the coordinate of axis [k] and its extent [L_k]. *)
Theorem variance_reg_losses_unbatched (gs : list nat) (h : tensor) (sigma_t : R) :
  shape h = gs -> (1 <= length gs)%nat -> (0 < prod gs)%nat ->
  exists r,
    variance_reg_losses h sigma_t (length gs) = Ok r /\
    shape r = [1%nat] /\
    item r [0%nat]
    = rsum (length gs)
        (fun k => (coord_var gs k (fun g => item h g) * (INR (nth k gs 0%nat) / 2) ^ 2
                   - sigma_t ^ 2) ^ 2).
Proof. apply variance_reg_losses_expect. Qed.

Lemma variance_reg_losses_unbatched_witness :
  exists r,
    variance_reg_losses (mkT [2%nat] [0; 1]) 1 (length [2%nat]) = Ok r /\
    shape r = [1%nat] /\
    item r [0%nat]
    = rsum (length [2%nat])
        (fun k => (coord_var [2%nat] k (fun g => item (mkT [2%nat] [0; 1]) g)
                   * (INR (nth k [2%nat] 0%nat) / 2) ^ 2
                   - 1 ^ 2) ^ 2).
Proof.
  apply (variance_reg_losses_unbatched [2%nat] (mkT [2%nat] [0; 1]) 1);
    [reflexivity | simpl; lia | simpl; lia].
Defined.

(** X14: for a one-hot heatmap without batch axes,
    [variance_reg_losses] is [ndims * sigma_t^4]. *)
Theorem variance_reg_losses_one_hot (gs c : list nat) (h : tensor) (sigma_t : R) :
  shape h = gs -> (1 <= length gs)%nat -> one_hot [] gs h (fun _ => c) ->
  exists r,
    variance_reg_losses h sigma_t (length gs) = Ok r /\
    shape r = [1%nat] /\
    item r [0%nat] = INR (length gs) * sigma_t ^ 4.
Proof.
  intros Hs Hn Hoh.
  destruct (Hoh [] (Forall2_nil _)) as [Hc Hf]. cbn [app] in Hf.
  assert (Hg : (0 < prod gs)%nat) by (apply (in_range_prod_pos _ _ Hc)).
  destruct (variance_reg_losses_expect gs h sigma_t Hs Hn Hg) as (r & Hr & Hsr & Hir).
  exists r. split; [exact Hr |]. split; [exact Hsr |].
  rewrite Hir, <- rsum_const. apply rsum_ext. intros k Hk.
  assert (Hz : coord_var gs k (fun g => item h g) = 0)
    by (apply (coord_var_one_hot gs c); assumption).
  rewrite Hz. ring.
Qed.

Lemma second_cell_one_hot : one_hot [] [2%nat] (mkT [2%nat] [0; 1]) (fun _ => [1%nat]).
Proof.
  intros p Hp. split; [constructor; [lia | constructor] |].
  intros g Hg. destruct (in_range_1 _ _ Hg) as (i & -> & Hi).
  inversion Hp; subst. destruct i as [|[|i]]; [| | lia]; reflexivity.
Qed.

Lemma variance_reg_losses_one_hot_witness :
  one_hot [] [2%nat] (mkT [2%nat] [0; 1]) (fun _ => [1%nat]) /\
  exists r,
    variance_reg_losses (mkT [2%nat] [0; 1]) 1 (length [2%nat]) = Ok r /\
    shape r = [1%nat] /\
    item r [0%nat] = INR (length [2%nat]) * 1 ^ 4.
Proof.
  split; [exact second_cell_one_hot |].
  apply (variance_reg_losses_one_hot [2%nat] [1%nat] (mkT [2%nat] [0; 1]) 1);
    [reflexivity | simpl; lia | exact second_cell_one_hot].
Defined.

Lemma mapM_head_raises {A B : Type} (f : A -> result B) (x : A) (l : list A) (e : exn) :
  f x = Raise e -> mapM f (x :: l) = Raise e.
Proof. intros H. simpl. rewrite H. reflexivity. Qed.

(** X16: for heatmaps with entries whose last batch extent is
    neither 1 nor the extent of the first grid axis, the latter not 1,
    [variance_reg_losses] raises [RuntimeError]. *)
Theorem variance_reg_losses_batch_raises (bs gs : list nat) (B : nat) (h : tensor)
  (sigma_t : R) :
  shape h = bs ++ B :: gs -> (0 < numel h)%nat -> (1 <= length gs)%nat ->
  B <> 1%nat -> nth 0 gs 0%nat <> 1%nat -> B <> nth 0 gs 0%nat ->
  variance_reg_losses h sigma_t (length gs) = Raise RuntimeError.
Proof.
  intros Hs Hnum Hn HB HL HBL.
  unfold variance_reg_losses. rewrite range_neg.
  destruct (length gs) as [|n] eqn:En; [lia |].
  cbn [seq map]. rewrite mapM_head_raises with (e := RuntimeError); [reflexivity |].
  rewrite <- En.
  replace (- Z.of_nat (length gs) + Z.of_nat 0)%Z
    with (Z.of_nat 0 - Z.of_nat (length gs))%Z by lia.
  apply (coord_variance_raises bs gs B h 0); try assumption. lia.
Qed.

Lemma variance_reg_losses_batch_raises_witness :
  variance_reg_losses (mkT [3%nat; 2%nat] [0; 1; 1; 0; 1; 0]) 1 (length [2%nat])
  = Raise RuntimeError.
Proof.
  apply (variance_reg_losses_batch_raises [] [2%nat] 3 (mkT [3%nat; 2%nat] [0; 1; 1; 0; 1; 0]) 1);
    [reflexivity | unfold numel; simpl; lia | simpl; lia | lia | simpl; lia | simpl; lia].
Defined.

(** X12: for heatmaps with entries whose last batch extent is
    neither 1 nor the extent of the coordinate axis, the latter not 1,
    [_coord_variance] raises [RuntimeError]: the axis and the means cannot
    be broadcast together. *)
Theorem coord_variance_batch_raises (bs gs : list nat) (B : nat) (h : tensor) (d : nat) :
  shape h = bs ++ B :: gs -> (0 < numel h)%nat -> (d < length gs)%nat ->
  B <> 1%nat -> nth d gs 0%nat <> 1%nat -> B <> nth d gs 0%nat ->
  _coord_variance h (Z.of_nat d - Z.of_nat (length gs)) (length gs)
  = Raise RuntimeError.
Proof. apply coord_variance_raises. Qed.

Lemma coord_variance_batch_raises_witness :
  _coord_variance (mkT [3%nat; 2%nat] [0; 1; 1; 0; 1; 0])
    (Z.of_nat 0 - Z.of_nat (length [2%nat])) (length [2%nat])
  = Raise RuntimeError.
Proof.
  apply (coord_variance_batch_raises [] [2%nat] 3 (mkT [3%nat; 2%nat] [0; 1; 1; 0; 1; 0]) 0);
    [reflexivity | unfold numel; simpl; lia | simpl; lia | lia | simpl; lia | simpl; lia].
Defined.

(** X11: for heatmaps with one batch axis whose extent is that of
    the coordinate axis, [_coord_variance] returns for sample [b] the sum
    of [h[b, g] * (x[g_d] - mu[g_d])^2], where [mu[j]] is the mean of
    sample [j]: the deviation of coordinate [j] is taken from the mean of
    sample [j], not from that of sample [b]. *)
Theorem coord_variance_square (gs : list nat) (h : tensor) (d : nat) :
  shape h = nth d gs 0%nat :: gs -> (0 < prod gs)%nat -> (d < length gs)%nat ->
  exists v,
    _coord_variance h (Z.of_nat d - Z.of_nat (length gs)) (length gs) = Ok v /\
    shape v = [nth d gs 0%nat] /\
    forall b, (b < nth d gs 0)%nat ->
      item v [b]
      = expect gs d (fun g => item h (b :: g))
          (fun j => (cell_coord (nth d gs 0%nat) j
                     - coord_mean gs d (fun g => item h (j :: g))) ^ 2).
Proof.
  intros Hs Hg Hd. set (L := nth d gs 0%nat) in *.
  assert (HL : (1 <= L)%nat) by (apply extent_pos; assumption).
  assert (Hs' : shape h = [L] ++ gs) by exact Hs.
  assert (Hb : (0 < prod [L])%nat) by (simpl; lia).
  destruct (coord_expectation_expect [L] gs h d None (normalized_axis L) Hs' Hb Hg Hd)
    as (mu & Hmu & Hsmu & Hwmu & Himu).
  { intros axis Hax. fold L in Hax. rewrite normalized_linspace_tensor in Hax by assumption.
    symmetry. exact Hax. }
  { reflexivity. }
  cbn [out_shape] in Hsmu.
  destruct (map2b_same_shape Rminus (normalized_axis L) mu Hsmu)
    as (D & HD & HsD & HwD & HiD).
  cbn [normalized_axis shape] in HsD, HiD.
  destruct (coord_expectation_expect [L] gs h d
              (Some (fun x => d0 <- sub x mu ;; Ok (pow2 d0))) (pow2 D) Hs' Hb Hg Hd)
    as (v & Hv & Hsv & _ & Hiv).
  { intros axis Hax. fold L in Hax. rewrite normalized_linspace_tensor in Hax by assumption.
    injection Hax as <-. unfold sub. rewrite HD. reflexivity. }
  { exact HsD. }
  exists v. split.
  { unfold _coord_variance. rewrite Hmu. cbn [bind]. exact Hv. }
  split; [exact Hsv |].
  intros b Hb'.
  assert (Hbr : in_range [L] [b]) by (constructor; [assumption | constructor]).
  specialize (Hiv [b] Hbr). cbn [out_idx app] in Hiv. rewrite Hiv.
  apply expect_ext; [assumption | reflexivity |].
  intros j Hj. fold L in Hj.
  assert (Hjr : in_range [L] [j]) by (constructor; [assumption | constructor]).
  unfold pow2. rewrite item_tmap; [| exact HwD | rewrite HsD; exact Hjr].
  rewrite (HiD [j] Hjr), item_normalized_axis by assumption.
  specialize (Himu [j] Hjr). cbn [out_idx app] in Himu. rewrite Himu.
  f_equal. f_equal. unfold coord_mean. fold L.
  apply expect_ext; [assumption | reflexivity |].
  intros i Hi. apply item_normalized_axis. assumption.
Qed.

Lemma coord_variance_square_witness :
  exists v,
    _coord_variance swapped_pair (Z.of_nat 0 - Z.of_nat (length [2%nat])) (length [2%nat])
    = Ok v /\
    shape v = [nth 0 [2%nat] 0%nat] /\
    forall b, (b < nth 0 [2%nat] 0)%nat ->
      item v [b]
      = expect [2%nat] 0 (fun g => item swapped_pair (b :: g))
          (fun j => (cell_coord (nth 0 [2%nat] 0%nat) j
                     - coord_mean [2%nat] 0 (fun g => item swapped_pair (j :: g))) ^ 2).
Proof.
  apply (coord_variance_square [2%nat] swapped_pair 0);
    [reflexivity | simpl; lia | simpl; lia].
Defined.

(** ** When [dsnt] returns *)

Lemma bind_ok_inv {A B : Type} (c : result A) (k : A -> result B) (y : B) :
  bind c k = Ok y -> exists a, c = Ok a /\ k a = Ok y.
Proof. destruct c as [a|e]; simpl; [eauto | discriminate]. Qed.

Lemma mapM_ok_inv {A B : Type} (f : A -> result B) (l : list A) (ys : list B) :
  mapM f l = Ok ys -> forall x, In x l -> exists y, f x = Ok y.
Proof.
  revert ys. induction l as [|a l IH]; intros ys H x Hx; [contradiction |].
  simpl in H. apply bind_ok_inv in H. destruct H as (y & Hy & H).
  apply bind_ok_inv in H. destruct H as (ys' & Hys & _).
  destruct Hx as [<-|Hx]; [eauto | eapply IH; eassumption].
Qed.

Lemma norm_index_out (n : nat) (z : Z) :
  (z < - Z.of_nat n)%Z -> norm_index n z = Raise IndexError.
Proof.
  intros H. unfold norm_index.
  destruct (Z.leb_spec 0 z); [lia |]. cbn [andb].
  destruct (Z.leb_spec (- Z.of_nat n) z); [lia |]. reflexivity.
Qed.

Lemma getitem_neg_inv (l : list nat) (k L : nat) :
  getitem l (-1 - Z.of_nat k) = Ok L ->
  (k < length l)%nat /\ L = nth (length l - 1 - k) l 0%nat.
Proof.
  unfold getitem. intros H.
  destruct (Nat.lt_ge_cases k (length l)) as [Hk|Hk].
  - rewrite norm_index_neg in H by lia. cbn [bind] in H.
    replace (Z.to_nat (-1 - Z.of_nat k + Z.of_nat (length l)))
      with (length l - 1 - k)%nat in H by lia.
    split; [assumption | congruence].
  - rewrite norm_index_out in H by lia. discriminate.
Qed.

Lemma coord_expectation_ok_inv (h : tensor) (dim : Z) (ndims : nat)
  (transform : option (tensor -> result tensor)) (y : tensor) :
  _coord_expectation h dim ndims transform = Ok y ->
  exists L, getitem (shape h) dim = Ok L /\ L <> 0%nat.
Proof.
  unfold _coord_expectation. intros H.
  apply bind_ok_inv in H. destruct H as (L & HL & H).
  exists L. split; [exact HL |].
  apply bind_ok_inv in H. destruct H as (axis & Hax & _).
  intros ->. unfold _normalized_linspace in Hax. discriminate.
Qed.

Lemma prod_pos_nth (s : list nat) :
  (forall i, (i < length s)%nat -> (1 <= nth i s 0)%nat) -> (0 < prod s)%nat.
Proof.
  induction s as [|x s IH]; intros H; simpl; [lia |].
  assert (1 <= x)%nat by (apply (H 0%nat); simpl; lia).
  assert (0 < prod s)%nat by (apply IH; intros i Hi; apply (H (S i)); simpl; lia).
  nia.
Qed.

Lemma coord_expectation_empty_batch (bs gs : list nat) (h : tensor) (d : nat)
  (transform : option (tensor -> result tensor)) :
  shape h = bs ++ gs -> prod bs = 0%nat -> (0 < prod gs)%nat -> (d < length gs)%nat ->
  (exists oc, match transform with
              | Some f => f (normalized_axis (nth d gs 0%nat))
              | None => Ok (normalized_axis (nth d gs 0%nat))
              end = Ok oc) ->
  _coord_expectation h (Z.of_nat d - Z.of_nat (length gs)) (length gs) transform
  = Raise RuntimeError.
Proof.
  intros Hs Hb Hg Hd [oc Hoc].
  set (n := length gs). set (L := nth d gs 0%nat) in *.
  assert (Hn : (0 < n)%nat) by (unfold n; lia).
  assert (HL : (1 <= L)%nat) by (apply extent_pos; assumption).
  unfold _coord_expectation.
  rewrite Hs, getitem_app_r by assumption. cbn [bind]. fold L.
  rewrite normalized_linspace_tensor by assumption. cbn [bind].
  rewrite Hoc. cbn [bind].
  unfold n. rewrite slice_from_neg_app by assumption.
  rewrite (view_head h bs gs Hs Hg). cbn [bind]. fold n. rewrite Hb.
  set (t0 := mkT (0%nat :: gs) (data h)).
  rewrite range_neg.
  destruct (coord_loop [0%nat] gs (fun p g => item t0 (p ++ g)) d Hd n 0%nat t0)
    as (t1 & Hloop & Hs1 & _).
  { reflexivity. }
  { rewrite (flags_ext _ (fun _ => false)) by reflexivity.
    rewrite flags_false. split.
    - rewrite rshape_all_false. reflexivity.
    - intros p idx Hp Hi. rewrite rshape_all_false in Hi.
      rewrite psum_all_false by (apply in_range_length; assumption). reflexivity. }
  fold n in Hloop. rewrite Hloop. cbn [bind].
  rewrite Hs1. simpl app.
  unfold getitem. cbn [length]. rewrite norm_index_0. cbn [bind nth].
  reflexivity.
Qed.

Lemma shape_split (s : list nat) (n : nat) :
  (n <= length s)%nat ->
  s = firstn (length s - n) s ++ skipn (length s - n) s /\
  length (skipn (length s - n) s) = n.
Proof.
  intros H. split; [symmetry; apply firstn_skipn |].
  rewrite length_skipn. lia.
Qed.

Lemma nth_skipn_nat (s : list nat) (a i : nat) :
  nth i (skipn a s) 0%nat = nth (a + i) s 0%nat.
Proof.
  revert s. induction a as [|a IH]; intros s; [reflexivity |].
  destruct s as [|x s]; simpl; [destruct i; reflexivity | apply IH].
Qed.

(** X3: [dsnt] returns a result exactly when
    [1 <= ndims <= number of axes] and the tensor has entries (no axis of
    extent 0); otherwise it raises. *)
Theorem dsnt_returns_iff (h : tensor) (ndims : nat) :
  (exists r, dsnt h ndims = Ok r) <->
  (1 <= ndims <= length (shape h))%nat /\ (0 < numel h)%nat.
Proof.
  split.
  - intros [r Hr]. unfold dsnt in Hr.
    apply bind_ok_inv in Hr. destruct Hr as (mus & Hmus & Hstack).
    rewrite range_down_neg, mapM_map in Hmus.
    assert (Hcall : forall k, (k < ndims)%nat ->
              exists y, _coord_expectation h (-1 - Z.of_nat k) ndims None = Ok y).
    { intros k Hk. apply (mapM_ok_inv _ _ _ Hmus k). apply in_seq. lia. }
    assert (Hext : forall k, (k < ndims)%nat ->
              (k < length (shape h))%nat /\
              (1 <= nth (length (shape h) - 1 - k) (shape h) 0)%nat).
    { intros k Hk. destruct (Hcall k Hk) as [y Hy].
      destruct (coord_expectation_ok_inv _ _ _ _ _ Hy) as (L & HL & HL0).
      apply getitem_neg_inv in HL. destruct HL as [Hlt ->]. split; [assumption | lia]. }
    assert (H1 : (1 <= ndims)%nat).
    { destruct ndims as [|n]; [| lia]. simpl in Hmus. injection Hmus as <-.
      simpl in Hstack. discriminate. }
    assert (H2 : (ndims <= length (shape h))%nat).
    { destruct (Hext (ndims - 1)%nat) as [Hlt _]; lia. }
    split; [lia |].
    destruct (shape_split (shape h) ndims H2) as [Hs Hlg].
    set (bs := firstn (length (shape h) - ndims) (shape h)) in *.
    set (gs := skipn (length (shape h) - ndims) (shape h)) in *.
    assert (Hg : (0 < prod gs)%nat).
    { apply prod_pos_nth. intros i Hi. rewrite Hlg in Hi.
      unfold gs. rewrite nth_skipn_nat.
      destruct (Hext (ndims - 1 - i)%nat) as [_ He]; [lia |].
      replace (length (shape h) - ndims + i)%nat
        with (length (shape h) - 1 - (ndims - 1 - i))%nat by lia.
      exact He. }
    unfold numel. rewrite Hs, prod_app.
    destruct (Nat.eq_dec (prod bs) 0) as [Hb|Hb]; [| nia].
    exfalso. destruct (Hcall 0%nat) as [y Hy]; [lia |].
    rewrite <- Hlg in Hy.
    replace (-1 - Z.of_nat 0)%Z
      with (Z.of_nat (ndims - 1) - Z.of_nat (length gs))%Z in Hy by lia.
    rewrite (coord_expectation_empty_batch bs gs h (ndims - 1) None Hs Hb Hg) in Hy.
    + discriminate.
    + lia.
    + eexists. reflexivity.
  - intros [[H1 H2] Hnum].
    destruct (shape_split (shape h) ndims H2) as [Hs Hlg].
    set (bs := firstn (length (shape h) - ndims) (shape h)) in *.
    set (gs := skipn (length (shape h) - ndims) (shape h)) in *.
    unfold numel in Hnum. rewrite Hs, prod_app in Hnum.
    destruct (dsnt_spec bs gs h Hs) as (r & Hr & _); [nia | nia | lia |].
    exists r. rewrite <- Hlg. exact Hr.
Qed.

(** ** The flat softmax in closed form *)

(** X5: entry [g] of sample [p] of the result of [flat_softmax] is
    [exp x[p,g]] over the sum of [exp x[p,g']] over the grid of the sample,
    and the order of the activations of a sample is kept. *)
Theorem flat_softmax_formula (bs gs : list nat) (inp : tensor) :
  shape inp = bs ++ gs -> (1 <= length gs)%nat -> (0 < prod gs)%nat ->
  exists out,
    flat_softmax inp (length gs) = Ok out /\
    shape out = bs ++ gs /\
    (forall p g, in_range bs p -> in_range gs g ->
       item out (p ++ g)
       = exp (item inp (p ++ g)) / msum gs (fun g' => exp (item inp (p ++ g')))) /\
    (forall p g1 g2, in_range bs p -> in_range gs g1 -> in_range gs g2 ->
       item inp (p ++ g1) <= item inp (p ++ g2) ->
       item out (p ++ g1) <= item out (p ++ g2)).
Proof.
  intros Hs Hn Hg.
  destruct (flat_softmax_spec bs gs inp Hs Hn Hg) as (out & Hout & Hso & _ & _ & _ & Hf).
  exists out. split; [exact Hout |]. split; [congruence |]. split; [exact Hf |].
  intros p g1 g2 Hp H1 H2 Hle.
  rewrite (Hf p g1 Hp H1), (Hf p g2 Hp H2).
  assert (HS : 0 < msum gs (fun g' => exp (item inp (p ++ g')))).
  { apply msum_pos; [assumption |]. intros idx _. apply exp_pos. }
  unfold Rdiv. apply Rmult_le_compat_r.
  - apply Rlt_le, Rinv_0_lt_compat. exact HS.
  - destruct Hle as [Hlt|Heq]; [apply Rlt_le, exp_increasing; exact Hlt | rewrite Heq; lra].
Qed.

Lemma flat_softmax_formula_witness :
  exists out,
    flat_softmax (mkT [2%nat; 2%nat] [1; 2; 3; 4]) (length [2%nat]) = Ok out /\
    shape out = [2%nat] ++ [2%nat] /\
    (forall p g, in_range [2%nat] p -> in_range [2%nat] g ->
       item out (p ++ g)
       = exp (item (mkT [2%nat; 2%nat] [1; 2; 3; 4]) (p ++ g))
         / msum [2%nat] (fun g' => exp (item (mkT [2%nat; 2%nat] [1; 2; 3; 4]) (p ++ g')))) /\
    (forall p g1 g2, in_range [2%nat] p -> in_range [2%nat] g1 -> in_range [2%nat] g2 ->
       item (mkT [2%nat; 2%nat] [1; 2; 3; 4]) (p ++ g1)
       <= item (mkT [2%nat; 2%nat] [1; 2; 3; 4]) (p ++ g2) ->
       item out (p ++ g1) <= item out (p ++ g2)).
Proof.
  apply (flat_softmax_formula [2%nat] [2%nat] (mkT [2%nat; 2%nat] [1; 2; 3; 4]));
    [reflexivity | simpl; lia | simpl; lia].
Defined.

Lemma in_range_app_split (s1 s2 idx : list nat) :
  in_range (s1 ++ s2) idx ->
  exists p g, idx = p ++ g /\ in_range s1 p /\ in_range s2 g.
Proof.
  intros H. exists (firstn (length s1) idx), (skipn (length s1) idx).
  split; [symmetry; apply firstn_skipn |].
  pose proof (in_range_firstn _ _ (length s1) H) as H1.
  pose proof (in_range_skipn _ _ (length s1) H) as H2.
  rewrite firstn_app, Nat.sub_diag, firstn_all in H1. simpl in H1.
  rewrite app_nil_r in H1.
  rewrite skipn_app, Nat.sub_diag, skipn_all in H2. simpl in H2.
  split; assumption.
Qed.

(** X6: adding one number to every activation does not change the
    result of [flat_softmax]. *)
Theorem flat_softmax_shift (bs gs : list nat) (inp : tensor) (c : R) :
  shape inp = bs ++ gs -> wf inp -> (1 <= length gs)%nat -> (0 < prod gs)%nat ->
  flat_softmax (add_scalar inp c) (length gs) = flat_softmax inp (length gs).
Proof.
  intros Hs Hw Hn Hg.
  destruct (flat_softmax_spec bs gs inp Hs Hn Hg) as (o1 & Ho1 & Hs1 & Hw1 & _ & _ & Hf1).
  assert (Hs' : shape (add_scalar inp c) = bs ++ gs) by exact Hs.
  destruct (flat_softmax_spec bs gs (add_scalar inp c) Hs' Hn Hg)
    as (o2 & Ho2 & Hs2 & Hw2 & _ & _ & Hf2).
  rewrite Ho1, Ho2. f_equal.
  apply tensor_ext; try assumption.
  { rewrite Hs1, Hs2. reflexivity. }
  intros idx Hi. rewrite Hs2, Hs' in Hi.
  destruct (in_range_app_split _ _ _ Hi) as (p & g & -> & Hp & Hgr).
  rewrite (Hf1 p g Hp Hgr), (Hf2 p g Hp Hgr).
  assert (Hadd : forall g', in_range gs g' ->
            item (add_scalar inp c) (p ++ g') = item inp (p ++ g') + c).
  { intros g' Hg'. unfold add_scalar. apply item_tmap; [assumption |].
    rewrite Hs. apply in_range_app; assumption. }
  rewrite (msum_ext gs _ (fun g' => exp (item inp (p ++ g')) * exp c)).
  2:{ intros g' Hg'. rewrite Hadd by assumption. apply exp_plus. }
  rewrite msum_scale_r, Hadd, exp_plus by assumption.
  assert (HS : 0 < msum gs (fun g' => exp (item inp (p ++ g')))).
  { apply msum_pos; [assumption |]. intros j _. apply exp_pos. }
  pose proof (exp_pos c). field. split; lra.
Qed.

Lemma flat_softmax_shift_witness :
  flat_softmax (add_scalar (mkT [2%nat; 2%nat] [1; 2; 3; 4]) 10) (length [2%nat])
  = flat_softmax (mkT [2%nat; 2%nat] [1; 2; 3; 4]) (length [2%nat]).
Proof.
  apply (flat_softmax_shift [2%nat] [2%nat] (mkT [2%nat; 2%nat] [1; 2; 3; 4]) 10);
    [reflexivity | reflexivity | simpl; lia | simpl; lia].
Defined.

Lemma slice_from_neg_all {A : Type} (n : nat) (l : list A) :
  n = 0%nat \/ (length l <= n)%nat -> slice_from_neg n l = l.
Proof.
  intros H. unfold slice_from_neg. destruct n as [|n]; [reflexivity |].
  destruct H as [H|H]; [discriminate |].
  replace (length l - S n)%nat with 0%nat by lia. reflexivity.
Qed.

(** X7: with [ndims = 0], as with [ndims] at least the number of
    axes, [flat_softmax] normalizes over the whole tensor: the result is
    that for [ndims] the number of axes, and its entries are positive and
    sum to 1 over all axes together. *)
Theorem flat_softmax_all_axes (inp : tensor) (ndims : nat) :
  ndims = 0%nat \/ (length (shape inp) <= ndims)%nat ->
  (1 <= length (shape inp))%nat -> (0 < numel inp)%nat ->
  exists out,
    flat_softmax inp ndims = Ok out /\
    flat_softmax inp (length (shape inp)) = Ok out /\
    shape out = shape inp /\
    (forall g, in_range (shape inp) g -> 0 < item out g) /\
    msum (shape inp) (fun g => item out g) = 1.
Proof.
  intros H Hn Hnum.
  destruct (flat_softmax_spec [] (shape inp) inp eq_refl Hn Hnum)
    as (out & Hout & Hso & _ & Hpos & Hsum & _).
  exists out. split.
  { rewrite <- Hout. unfold flat_softmax.
    rewrite (slice_from_neg_all ndims) by assumption.
    rewrite (slice_from_neg_all (length (shape inp))) by (right; lia).
    reflexivity. }
  split; [exact Hout |]. split; [exact Hso |]. split.
  - intros g Hg. apply (Hpos [] g); [constructor | assumption].
  - apply (Hsum []). constructor.
Qed.

Lemma flat_softmax_all_axes_witness :
  exists out,
    flat_softmax (mkT [2%nat; 2%nat] [1; 2; 3; 4]) 0 = Ok out /\
    flat_softmax (mkT [2%nat; 2%nat] [1; 2; 3; 4])
      (length (shape (mkT [2%nat; 2%nat] [1; 2; 3; 4]))) = Ok out /\
    shape out = shape (mkT [2%nat; 2%nat] [1; 2; 3; 4]) /\
    (forall g, in_range (shape (mkT [2%nat; 2%nat] [1; 2; 3; 4])) g -> 0 < item out g) /\
    msum (shape (mkT [2%nat; 2%nat] [1; 2; 3; 4])) (fun g => item out g) = 1.
Proof.
  apply (flat_softmax_all_axes (mkT [2%nat; 2%nat] [1; 2; 3; 4]) 0);
    [left; reflexivity | simpl; lia | unfold numel; simpl; lia].
Defined.

(** ** From activations to coordinates *)

(** X4: for activations of any values, [flat_softmax] followed by
    [dsnt] returns coordinates whose every component lies between
    [-(l-1)/l] and [(l-1)/l] for the extent [l] of its axis, hence strictly
    between -1 and 1. *)
Theorem dsnt_flat_softmax (bs gs : list nat) (inp : tensor) :
  shape inp = bs ++ gs -> (1 <= length gs)%nat -> (0 < prod bs)%nat -> (0 < prod gs)%nat ->
  exists hm r,
    flat_softmax inp (length gs) = Ok hm /\
    dsnt hm (length gs) = Ok r /\
    shape r = out_shape bs ++ [length gs] /\
    forall p k, in_range bs p -> (k < length gs)%nat ->
      let l := INR (nth (length gs - 1 - k) gs 0%nat) in
      - ((l - 1) / l) <= item r (out_idx bs p ++ [k]) <= (l - 1) / l /\
      -1 < item r (out_idx bs p ++ [k]) < 1.
Proof.
  intros Hs Hn Hb Hg.
  destruct (flat_softmax_spec bs gs inp Hs Hn Hg) as (hm & Hhm & Hshm & _ & Hpos & Hsum & _).
  rewrite Hs in Hshm.
  destruct (dsnt_spec bs gs hm Hshm Hb Hg Hn) as (r & Hr & Hsr & _ & Hitem).
  exists hm, r. split; [exact Hhm |]. split; [exact Hr |]. split; [exact Hsr |].
  intros p k Hp Hk l.
  destruct (Hitem p k Hp Hk) as (axis & Hax & Hval).
  set (d := (length gs - 1 - k)%nat) in *.
  assert (Hd : (d < length gs)%nat) by (unfold d; lia).
  set (L := nth d gs 0%nat) in *.
  assert (HL : (1 <= L)%nat) by (apply extent_pos; assumption).
  assert (Hl : 1 <= l) by (unfold l; change 1 with (INR 1); apply le_INR; lia).
  assert (Hrange : - ((l - 1) / l) <= item r (out_idx bs p ++ [k]) <= (l - 1) / l).
  { rewrite Hval. apply rsum_convex.
    - intros j Hj. apply marginal_nonneg; try assumption.
      intros g Hgr. apply Rlt_le, Hpos; assumption.
    - unfold L. rewrite rsum_marginal by assumption. apply Hsum. assumption.
    - intros j Hj. rewrite (normalized_axis_item L j hm axis HL Hax Hj).
      apply cell_coord_range. assumption. }
  split; [exact Hrange |].
  assert (Hb1 : 0 <= (l - 1) / l < 1).
  { unfold Rdiv. assert (Hinv : 0 < / l) by (apply Rinv_0_lt_compat; lra).
    split; [apply Rmult_le_pos; lra |].
    apply Rmult_lt_reg_r with l; [lra |].
    rewrite Rmult_assoc, Rinv_l by lra. lra. }
  lra.
Qed.

Lemma dsnt_flat_softmax_witness :
  exists hm r,
    flat_softmax (mkT [2%nat; 2%nat] [1; 2; 3; 4]) (length [2%nat]) = Ok hm /\
    dsnt hm (length [2%nat]) = Ok r /\
    shape r = out_shape [2%nat] ++ [length [2%nat]] /\
    forall p k, in_range [2%nat] p -> (k < length [2%nat])%nat ->
      let l := INR (nth (length [2%nat] - 1 - k) [2%nat] 0%nat) in
      - ((l - 1) / l) <= item r (out_idx [2%nat] p ++ [k]) <= (l - 1) / l /\
      -1 < item r (out_idx [2%nat] p ++ [k]) < 1.
Proof.
  apply (dsnt_flat_softmax [2%nat] [2%nat] (mkT [2%nat; 2%nat] [1; 2; 3; 4]));
    [reflexivity | simpl; lia | simpl; lia | simpl; lia].
Defined.

(** ** Euclidean losses *)

Lemma bdim_comm (x y : nat) : bdim x y = bdim y x.
Proof.
  unfold bdim.
  destruct (Nat.eqb_spec x y), (Nat.eqb_spec y x), (Nat.eqb_spec x 1), (Nat.eqb_spec y 1);
    try reflexivity; try (f_equal; lia); lia.
Qed.

Lemma zip_bdim_comm (a b : list nat) : zip_bdim a b = zip_bdim b a.
Proof.
  revert b. induction a as [|x a IH]; intros [|y b]; simpl; try reflexivity.
  rewrite bdim_comm, IH. reflexivity.
Qed.

Lemma broadcast_shape_comm (a b : list nat) : broadcast_shape a b = broadcast_shape b a.
Proof. unfold broadcast_shape. rewrite Nat.max_comm. apply zip_bdim_comm. Qed.

Lemma euclidean_losses_comm (actual target : tensor) :
  euclidean_losses actual target = euclidean_losses target actual.
Proof.
  unfold euclidean_losses, sub, map2b.
  rewrite (broadcast_shape_comm (shape actual) (shape target)).
  destruct (broadcast_shape (shape target) (shape actual)) as [s|e]; cbn [bind];
    [| reflexivity].
  match goal with
  | |- bind (sum_dim ?x _ _) _ = bind (sum_dim ?y _ _) _ =>
      replace x with y; [reflexivity |]
  end.
  unfold pow2, tmap, tabulate. cbn [shape data]. f_equal.
  rewrite !map_map. apply map_ext. intros n. ring.
Qed.

Lemma euclidean_losses_spec (a t : tensor) (s : list nat) (n : nat) :
  shape a = s ++ [n] -> shape t = s ++ [n] ->
  exists r,
    euclidean_losses a t = Ok r /\ shape r = s /\ wf r /\
    forall q, in_range s q ->
      item r q = sqrt (rsum n (fun k => (item a (q ++ [k]) - item t (q ++ [k])) ^ 2)).
Proof.
  intros Ha Ht. unfold euclidean_losses.
  destruct (map2b_same_shape Rminus a t) as (d & Hd & Hsd & Hwd & Hid); [congruence |].
  unfold sub. rewrite Hd. cbn [bind].
  rewrite (sum_dim_last (pow2 d) s n) by (unfold pow2, tmap; cbn [shape]; congruence).
  cbn [bind]. eexists. split; [reflexivity |].
  split; [reflexivity |]. split; [apply wf_tmap, wf_tabulate |].
  intros q Hq. unfold tsqrt.
  rewrite item_tmap; [| apply wf_tabulate | exact Hq].
  rewrite item_tabulate by assumption. f_equal.
  apply rsum_ext. intros k Hk.
  assert (Hi : in_range (shape a) (q ++ [k])).
  { rewrite Ha. apply in_range_app; [assumption |]. constructor; [assumption | constructor]. }
  unfold pow2. rewrite item_tmap; [| assumption | rewrite Hsd; assumption].
  rewrite Hid by assumption. reflexivity.
Qed.

Lemma rsum_sq_zero (n : nat) (f : nat -> R) :
  rsum n (fun k => f k ^ 2) = 0 <-> forall k, (k < n)%nat -> f k = 0.
Proof.
  induction n as [|n IH]; cbn [rsum].
  - split; [intros _ k Hk; lia | reflexivity].
  - assert (H0 : 0 <= rsum n (fun k => f k ^ 2)).
    { apply rsum_nonneg. intros k _. apply pow2_ge_0. }
    pose proof (pow2_ge_0 (f n)) as Hn.
    split.
    + intros H k Hk.
      assert (H1 : rsum n (fun k => f k ^ 2) = 0) by lra.
      assert (H2 : f n ^ 2 = 0) by lra.
      destruct (Nat.eq_dec k n) as [->|Hne].
      * apply Rsqr_0_uniq. rewrite Rsqr_pow2. exact H2.
      * apply IH; [assumption | lia].
    + intros H. rewrite (proj2 IH) by (intros k Hk; apply H; lia).
      rewrite (H n) by lia. ring.
Qed.

(** X17: for tensors of one shape [s ++ [n]], [euclidean_losses]
    returns a tensor of shape [s] whose entry [q] is the square root of the
    sum over [k] of [(actual[q,k] - target[q,k])^2]; it is the same with
    the two arguments exchanged, it is at least 0, and it is 0 exactly
    when the two points are equal. *)
Theorem euclidean_losses_distance (a t : tensor) (s : list nat) (n : nat) :
  shape a = s ++ [n] -> shape t = s ++ [n] ->
  exists r,
    euclidean_losses a t = Ok r /\ euclidean_losses t a = Ok r /\ shape r = s /\
    forall q, in_range s q ->
      item r q = sqrt (rsum n (fun k => (item a (q ++ [k]) - item t (q ++ [k])) ^ 2)) /\
      0 <= item r q /\
      (item r q = 0 <-> forall k, (k < n)%nat -> item a (q ++ [k]) = item t (q ++ [k])).
Proof.
  intros Ha Ht.
  destruct (euclidean_losses_spec a t s n Ha Ht) as (r & Hr & Hsr & _ & Hir).
  exists r. split; [exact Hr |].
  split; [rewrite <- (euclidean_losses_comm a t); exact Hr |].
  split; [exact Hsr |].
  intros q Hq. rewrite (Hir q Hq).
  split; [reflexivity |]. split; [apply sqrt_pos |].
  assert (H0 : 0 <= rsum n (fun k => (item a (q ++ [k]) - item t (q ++ [k])) ^ 2)).
  { apply rsum_nonneg. intros k _. apply pow2_ge_0. }
  split.
  - intros H. apply sqrt_eq_0 in H; [| exact H0].
    intros k Hk.
    pose proof (proj1 (rsum_sq_zero n (fun k => item a (q ++ [k]) - item t (q ++ [k]))) H k Hk).
    simpl in H1. lra.
  - intros H.
    rewrite (proj2 (rsum_sq_zero n (fun k => item a (q ++ [k]) - item t (q ++ [k])))).
    + apply sqrt_0.
    + intros k Hk. rewrite (H k Hk). ring.
Qed.

Lemma euclidean_losses_distance_witness :
  exists r,
    euclidean_losses (mkT [2%nat; 2%nat] [1; 2; 3; 4]) (mkT [2%nat; 2%nat] [4; 6; 3; 4])
    = Ok r /\
    euclidean_losses (mkT [2%nat; 2%nat] [4; 6; 3; 4]) (mkT [2%nat; 2%nat] [1; 2; 3; 4])
    = Ok r /\ shape r = [2%nat] /\
    forall q, in_range [2%nat] q ->
      item r q
      = sqrt (rsum 2 (fun k => (item (mkT [2%nat; 2%nat] [1; 2; 3; 4]) (q ++ [k])
                                - item (mkT [2%nat; 2%nat] [4; 6; 3; 4]) (q ++ [k])) ^ 2)) /\
      0 <= item r q /\
      (item r q = 0 <->
       forall k, (k < 2)%nat ->
         item (mkT [2%nat; 2%nat] [1; 2; 3; 4]) (q ++ [k])
         = item (mkT [2%nat; 2%nat] [4; 6; 3; 4]) (q ++ [k])).
Proof.
  apply (euclidean_losses_distance (mkT [2%nat; 2%nat] [1; 2; 3; 4])
           (mkT [2%nat; 2%nat] [4; 6; 3; 4]) [2%nat] 2);
    reflexivity.
Defined.

Lemma rsum_cauchy_schwarz (n : nat) (x y : nat -> R) :
  rsum n (fun k => x k * y k) ^ 2 <= rsum n (fun k => x k ^ 2) * rsum n (fun k => y k ^ 2).
Proof.
  induction n as [|n IH]; cbn [rsum]; [simpl; lra |].
  set (A := rsum n (fun k => x k ^ 2)) in *.
  set (C := rsum n (fun k => y k ^ 2)) in *.
  set (B := rsum n (fun k => x k * y k)) in *.
  assert (HA : 0 <= A) by (apply rsum_nonneg; intros k _; apply pow2_ge_0).
  assert (HC : 0 <= C) by (apply rsum_nonneg; intros k _; apply pow2_ge_0).
  set (a := x n). set (b := y n).
  assert (Hv : 0 <= A * b ^ 2 + a ^ 2 * C).
  { pose proof (pow2_ge_0 a). pose proof (pow2_ge_0 b). nra. }
  assert (Hsq : (2 * B * a * b) ^ 2 <= (A * b ^ 2 + a ^ 2 * C) ^ 2).
  { assert (H1 : (2 * B * a * b) ^ 2 = 4 * B ^ 2 * (a ^ 2 * b ^ 2)) by ring.
    assert (H2 : 0 <= a ^ 2 * b ^ 2).
    { apply Rmult_le_pos; apply pow2_ge_0. }
    assert (H3 : 4 * B ^ 2 * (a ^ 2 * b ^ 2) <= 4 * (A * C) * (a ^ 2 * b ^ 2)).
    { apply Rmult_le_compat_r; [exact H2 | lra]. }
    assert (H4 : (A * b ^ 2 + a ^ 2 * C) ^ 2 - 4 * (A * C) * (a ^ 2 * b ^ 2)
                 = (A * b ^ 2 - a ^ 2 * C) ^ 2) by ring.
    pose proof (pow2_ge_0 (A * b ^ 2 - a ^ 2 * C)). lra. }
  assert (Hle : 2 * B * a * b <= A * b ^ 2 + a ^ 2 * C).
  { destruct (Rle_lt_dec (2 * B * a * b) (A * b ^ 2 + a ^ 2 * C)) as [H|H]; [exact H |].
    exfalso. assert ((A * b ^ 2 + a ^ 2 * C) ^ 2 < (2 * B * a * b) ^ 2) by nra. lra. }
  replace ((B + a * b) ^ 2) with (B ^ 2 + 2 * B * a * b + a ^ 2 * b ^ 2) by ring.
  replace ((A + a ^ 2) * (C + b ^ 2))
    with (A * C + (A * b ^ 2 + a ^ 2 * C) + a ^ 2 * b ^ 2) by ring.
  lra.
Qed.

Lemma rsum_minkowski (n : nat) (x y : nat -> R) :
  sqrt (rsum n (fun k => (x k + y k) ^ 2))
  <= sqrt (rsum n (fun k => x k ^ 2)) + sqrt (rsum n (fun k => y k ^ 2)).
Proof.
  set (A := rsum n (fun k => x k ^ 2)).
  set (C := rsum n (fun k => y k ^ 2)).
  set (B := rsum n (fun k => x k * y k)).
  assert (HA : 0 <= A) by (apply rsum_nonneg; intros k _; apply pow2_ge_0).
  assert (HC : 0 <= C) by (apply rsum_nonneg; intros k _; apply pow2_ge_0).
  assert (Hsum : rsum n (fun k => (x k + y k) ^ 2) = A + 2 * B + C).
  { unfold A, B, C.
    rewrite (rsum_ext n _ (fun k => x k ^ 2 + (x k * y k * 2 + y k ^ 2)))
      by (intros k _; ring).
    rewrite rsum_plus, rsum_plus, rsum_scale_r. ring. }
  pose proof (rsum_cauchy_schwarz n x y) as Hcs. fold A B C in Hcs.
  pose proof (sqrt_pos A) as HsA. pose proof (sqrt_pos C) as HsC.
  pose proof (sqrt_sqrt A HA) as HAA. pose proof (sqrt_sqrt C HC) as HCC.
  assert (HB : B <= sqrt A * sqrt C).
  { destruct (Rle_lt_dec B (sqrt A * sqrt C)) as [H|H]; [exact H |].
    exfalso.
    assert (0 <= sqrt A * sqrt C) by (apply Rmult_le_pos; assumption).
    assert (H2 : (sqrt A * sqrt C) ^ 2 = A * C).
    { replace ((sqrt A * sqrt C) ^ 2) with ((sqrt A * sqrt A) * (sqrt C * sqrt C)) by ring.
      rewrite HAA, HCC. reflexivity. }
    assert ((sqrt A * sqrt C) ^ 2 < B ^ 2) by nra. lra. }
  rewrite Hsum.
  rewrite <- (sqrt_square (sqrt A + sqrt C)) by lra.
  apply sqrt_le_1_alt. nra.
Qed.

(** X18: for tensors of one shape, the losses of [a] and [c] are at
    most those of [a] and [b] plus those of [b] and [c], entry by entry. *)
Theorem euclidean_losses_triangle (a b c : tensor) (s : list nat) (n : nat) :
  shape a = s ++ [n] -> shape b = s ++ [n] -> shape c = s ++ [n] ->
  exists rab rbc rac,
    euclidean_losses a b = Ok rab /\ euclidean_losses b c = Ok rbc /\
    euclidean_losses a c = Ok rac /\
    forall q, in_range s q -> item rac q <= item rab q + item rbc q.
Proof.
  intros Ha Hb Hc.
  destruct (euclidean_losses_spec a b s n Ha Hb) as (rab & Hab & _ & _ & Hiab).
  destruct (euclidean_losses_spec b c s n Hb Hc) as (rbc & Hbc & _ & _ & Hibc).
  destruct (euclidean_losses_spec a c s n Ha Hc) as (rac & Hac & _ & _ & Hiac).
  exists rab, rbc, rac. repeat (split; [assumption |]).
  intros q Hq. rewrite (Hiab q Hq), (Hibc q Hq), (Hiac q Hq).
  rewrite (rsum_ext n (fun k => (item a (q ++ [k]) - item c (q ++ [k])) ^ 2)
             (fun k => ((item a (q ++ [k]) - item b (q ++ [k]))
                        + (item b (q ++ [k]) - item c (q ++ [k]))) ^ 2))
    by (intros k _; ring).
  apply (rsum_minkowski n (fun k => item a (q ++ [k]) - item b (q ++ [k]))
           (fun k => item b (q ++ [k]) - item c (q ++ [k]))).
Qed.

Lemma euclidean_losses_triangle_witness :
  exists rab rbc rac,
    euclidean_losses (mkT [1%nat; 2%nat] [0; 0]) (mkT [1%nat; 2%nat] [3; 0]) = Ok rab /\
    euclidean_losses (mkT [1%nat; 2%nat] [3; 0]) (mkT [1%nat; 2%nat] [3; 4]) = Ok rbc /\
    euclidean_losses (mkT [1%nat; 2%nat] [0; 0]) (mkT [1%nat; 2%nat] [3; 4]) = Ok rac /\
    forall q, in_range [1%nat] q -> item rac q <= item rab q + item rbc q.
Proof.
  apply (euclidean_losses_triangle (mkT [1%nat; 2%nat] [0; 0]) (mkT [1%nat; 2%nat] [3; 0])
           (mkT [1%nat; 2%nat] [3; 4]) [1%nat] 2);
    reflexivity.
Defined.

(** ** Summing the last axes away *)

Lemma msum_app (s1 s2 : list nat) (f : list nat -> R) :
  msum (s1 ++ s2) f = msum s1 (fun a => msum s2 (fun b => f (a ++ b))).
Proof.
  revert f. induction s1 as [|n s1 IH]; intros f; simpl.
  - reflexivity.
  - apply rsum_ext. intros k Hk. apply (IH (fun idx => f (k :: idx))).
Qed.

Lemma sum_last_loop (gs : list nat) :
  forall (l : list Z) (bs : list nat) (t : tensor),
    length l = length gs -> shape t = bs ++ gs ->
    exists r,
      reduce_init (fun t _ => sum_dim t (-1) false) l t = Ok r /\
      shape r = bs /\ (wf t -> wf r) /\
      forall p, in_range bs p -> item r p = msum gs (fun g => item t (p ++ g)).
Proof.
  induction gs as [|n gs IH] using rev_ind; intros l bs t Hl Hs.
  - destruct l; [| discriminate]. exists t. split; [reflexivity |].
    split; [rewrite Hs; apply app_nil_r |]. split; [auto |].
    intros p Hp. simpl. rewrite app_nil_r. reflexivity.
  - rewrite length_app in Hl. cbn [length] in Hl.
    destruct l as [|x l]; [simpl in Hl; lia |].
    cbn [reduce_init]. rewrite app_assoc in Hs.
    rewrite (sum_dim_last t (bs ++ gs) n Hs). cbn [bind].
    set (t' := tabulate (bs ++ gs) _).
    destruct (IH l bs t') as (r & Hr & Hsr & _ & Hir); [simpl in Hl; lia | reflexivity |].
    exists r. split; [exact Hr |]. split; [exact Hsr |].
    split.
    { intros _.
      destruct (IH l bs t') as (r' & Hr' & _ & Hw & _); [simpl in Hl; lia | reflexivity |].
      rewrite Hr in Hr'. injection Hr' as <-. apply Hw. apply wf_tabulate. }
    intros p Hp. rewrite (Hir p Hp), msum_app.
    apply msum_ext. intros g Hg. unfold t'.
    rewrite item_tabulate by (apply in_range_app; assumption).
    simpl. apply rsum_ext. intros j Hj. rewrite <- app_assoc. reflexivity.
Qed.

Lemma length_range (n : nat) : length (range 0 (Z.of_nat n)) = n.
Proof.
  unfold range. rewrite length_map, length_seq. lia.
Qed.

(** ** The divergences *)

Lemma kl_spec (bs gs : list nat) (p q : tensor) (eps : R) :
  shape p = bs ++ gs -> shape q = bs ++ gs -> wf p -> wf q ->
  exists r,
    _kl p q (length gs) eps = Ok r /\ shape r = bs /\ wf r /\
    forall i, in_range bs i ->
      item r i
      = msum gs (fun g => item p (i ++ g)
                          * (ln (item p (i ++ g) + eps) - ln (item q (i ++ g) + eps))).
Proof.
  intros Hp Hq Hwp Hwq. unfold _kl.
  set (lp := tlog (add_scalar p eps)). set (lq := tlog (add_scalar q eps)).
  assert (Hlp : forall idx, in_range (shape p) idx -> item lp idx = ln (item p idx + eps)).
  { intros idx Hi. unfold lp, tlog, add_scalar.
    rewrite item_tmap; [| apply wf_tmap; assumption | exact Hi].
    rewrite item_tmap by assumption. reflexivity. }
  assert (Hlq : forall idx, in_range (shape p) idx -> item lq idx = ln (item q idx + eps)).
  { intros idx Hi. unfold lq, tlog, add_scalar. rewrite Hp, <- Hq in Hi.
    rewrite item_tmap; [| apply wf_tmap; assumption | exact Hi].
    rewrite item_tmap by assumption. reflexivity. }
  destruct (map2b_same_shape Rminus lp lq) as (d & Hd & Hsd & Hwd & Hid).
  { unfold lp, lq, tlog, add_scalar, tmap. cbn [shape]. congruence. }
  unfold sub. rewrite Hd. cbn [bind].
  assert (Hsd' : shape d = shape p) by exact Hsd.
  destruct (map2b_same_shape Rmult p d Hsd') as (u & Hu & Hsu & Hwu & Hiu).
  unfold mul. rewrite Hu. cbn [bind].
  destruct (sum_last_loop gs (range 0 (Z.of_nat (length gs))) bs u)
    as (r & Hr & Hsr & Hwr & Hir).
  { apply length_range. }
  { congruence. }
  exists r. split; [exact Hr |]. split; [exact Hsr |]. split; [auto |].
  intros i Hi. rewrite (Hir i Hi). apply msum_ext. intros g Hg.
  assert (Hidx : in_range (shape p) (i ++ g)).
  { rewrite Hp. apply in_range_app; assumption. }
  rewrite (Hiu _ Hidx), (Hid _ Hidx), (Hlp _ Hidx), (Hlq _ Hidx). reflexivity.
Qed.

Lemma item_mul_scalar (t : tensor) (k : R) (idx : list nat) :
  wf t -> in_range (shape t) idx -> item (mul_scalar t k) idx = item t idx * k.
Proof. intros Hw Hi. unfold mul_scalar. apply item_tmap; assumption. Qed.

Lemma js_spec (bs gs : list nat) (p q : tensor) (eps : R) :
  shape p = bs ++ gs -> shape q = bs ++ gs -> wf p -> wf q ->
  exists r,
    _js p q (length gs) eps = Ok r /\ shape r = bs /\ wf r /\
    forall i, in_range bs i ->
      item r i
      = msum gs (fun g =>
          item p (i ++ g)
          * (ln (item p (i ++ g) + eps)
             - ln ((item p (i ++ g) + item q (i ++ g)) * 0.5 + eps))) * 0.5
        + msum gs (fun g =>
          item q (i ++ g)
          * (ln (item q (i ++ g) + eps)
             - ln ((item p (i ++ g) + item q (i ++ g)) * 0.5 + eps))) * 0.5.
Proof.
  intros Hp Hq Hwp Hwq. unfold _js.
  destruct (map2b_same_shape Rplus p q) as (pq & Hpq & Hspq & Hwpq & Hipq); [congruence |].
  unfold add at 1. rewrite Hpq. cbn [bind].
  set (m := mul_scalar pq 0.5).
  assert (Hsm : shape m = bs ++ gs) by (unfold m, mul_scalar, tmap; cbn [shape]; congruence).
  assert (Hwm : wf m) by (apply wf_tmap; assumption).
  assert (Him : forall idx, in_range (bs ++ gs) idx ->
            item m idx = (item p idx + item q idx) * 0.5).
  { intros idx Hi. unfold m. rewrite item_mul_scalar; [| assumption | congruence].
    rewrite Hipq by congruence. reflexivity. }
  destruct (kl_spec bs gs p m eps Hp Hsm Hwp Hwm) as (a & Ha & Hsa & Hwa & Hia).
  destruct (kl_spec bs gs q m eps Hq Hsm Hwq Hwm) as (b & Hb & Hsb & Hwb & Hib).
  rewrite Ha. cbn [bind]. rewrite Hb. cbn [bind].
  destruct (map2b_same_shape Rplus (mul_scalar a 0.5) (mul_scalar b 0.5))
    as (r & Hr & Hsr & Hwr & Hir).
  { unfold mul_scalar, tmap. cbn [shape]. congruence. }
  unfold add. rewrite Hr.
  exists r. split; [reflexivity |].
  split; [rewrite Hsr; exact Hsa |]. split; [exact Hwr |].
  intros i Hi.
  rewrite Hir by (unfold mul_scalar, tmap; cbn [shape]; rewrite Hsa; exact Hi).
  rewrite !item_mul_scalar by (try assumption; congruence).
  rewrite (Hia i Hi), (Hib i Hi).
  f_equal; f_equal; apply msum_ext; intros g Hg;
    rewrite Him by (apply in_range_app; assumption); reflexivity.
Qed.

Lemma ln_le_minus_1 (y : R) : 0 < y -> ln y <= y - 1.
Proof.
  intros Hy. pose proof (exp_ineq1_le (ln y)) as H.
  rewrite exp_ln in H by assumption. lra.
Qed.

Lemma ln_diff_ge (P M : R) : 0 < P -> 0 < M -> 1 - M / P <= ln P - ln M.
Proof.
  intros HP HM.
  assert (H : 0 < M / P) by (apply Rdiv_lt_0_compat; assumption).
  pose proof (ln_le_minus_1 (M / P) H) as Hl.
  unfold Rdiv in Hl at 1.
  rewrite ln_mult, ln_Rinv in Hl
    by (try assumption; apply Rinv_0_lt_compat; assumption).
  lra.
Qed.

Lemma js_term_nonneg (p q eps : R) :
  0 <= p -> 0 <= q -> 0 < eps ->
  0 <= p * (ln (p + eps) - ln ((p + q) * 0.5 + eps)) * 0.5
       + q * (ln (q + eps) - ln ((p + q) * 0.5 + eps)) * 0.5.
Proof.
  intros Hp Hq He.
  set (P := p + eps). set (Q := q + eps). set (M := (p + q) * 0.5 + eps).
  assert (HP : 0 < P) by (unfold P; lra).
  assert (HQ : 0 < Q) by (unfold Q; lra).
  assert (HM : 0 < M) by (unfold M; lra).
  pose proof (ln_diff_ge P M HP HM) as H1.
  pose proof (ln_diff_ge Q M HQ HM) as H2.
  assert (H3 : p * (1 - M / P) <= p * (ln P - ln M))
    by (apply Rmult_le_compat_l; assumption).
  assert (H4 : q * (1 - M / Q) <= q * (ln Q - ln M))
    by (apply Rmult_le_compat_l; assumption).
  assert (H5 : p * (1 - M / P) + q * (1 - M / Q) = eps * (p - q) ^ 2 / (2 * (P * Q))).
  { assert (E : 0.5 = / 2) by lra.
    unfold M, P, Q. rewrite E. field. lra. }
  assert (H6 : 0 <= eps * (p - q) ^ 2 / (2 * (P * Q))).
  { apply Rmult_le_pos.
    - apply Rmult_le_pos; [lra | apply pow2_ge_0].
    - apply Rlt_le, Rinv_0_lt_compat.
      assert (0 < P * Q) by (apply Rmult_lt_0_compat; assumption). lra. }
  lra.
Qed.

(** X22: for nonnegative tensors of one shape [bs ++ gs] and
    [eps > 0], [_kl] returns a tensor of shape [bs] whose entry [i] is the
    sum over the grid cells of [p * (log (p + eps) - log (q + eps))], and
    it is 0 where the two samples are equal. *)
Theorem kl_terms (bs gs : list nat) (p q : tensor) (eps : R) :
  shape p = bs ++ gs -> shape q = bs ++ gs -> wf p -> wf q -> 0 < eps ->
  (forall idx, in_range (bs ++ gs) idx -> 0 <= item p idx) ->
  (forall idx, in_range (bs ++ gs) idx -> 0 <= item q idx) ->
  exists r,
    _kl p q (length gs) eps = Ok r /\ shape r = bs /\
    forall i, in_range bs i ->
      item r i
      = msum gs (fun g => item p (i ++ g)
                          * (ln (item p (i ++ g) + eps) - ln (item q (i ++ g) + eps))) /\
      ((forall g, in_range gs g -> item p (i ++ g) = item q (i ++ g)) -> item r i = 0).
Proof.
  intros Hp Hq Hwp Hwq _ _ _.
  destruct (kl_spec bs gs p q eps Hp Hq Hwp Hwq) as (r & Hr & Hsr & _ & Hir).
  exists r. split; [exact Hr |]. split; [exact Hsr |].
  intros i Hi. split; [apply Hir; assumption |].
  intros Heq. rewrite (Hir i Hi).
  rewrite (msum_ext gs _ (fun _ => 0)); [apply msum_zero |].
  intros g Hg. rewrite (Heq g Hg). ring.
Qed.

Lemma js_sym (bs gs : list nat) (p q : tensor) (eps : R) :
  shape p = bs ++ gs -> shape q = bs ++ gs -> wf p -> wf q ->
  _js p q (length gs) eps = _js q p (length gs) eps.
Proof.
  intros Hp Hq Hwp Hwq.
  destruct (js_spec bs gs p q eps Hp Hq Hwp Hwq) as (r1 & Hr1 & Hs1 & Hw1 & Hi1).
  destruct (js_spec bs gs q p eps Hq Hp Hwq Hwp) as (r2 & Hr2 & Hs2 & Hw2 & Hi2).
  rewrite Hr1, Hr2. f_equal.
  apply tensor_ext; try assumption; [congruence |].
  intros i Hi. rewrite Hs1 in Hi. rewrite (Hi1 i Hi), (Hi2 i Hi).
  rewrite Rplus_comm. f_equal; f_equal; apply msum_ext; intros g Hg;
    rewrite (Rplus_comm (item q (i ++ g)) (item p (i ++ g))); reflexivity.
Qed.

Lemma js_nonneg_items (bs gs : list nat) (p q : tensor) (eps : R) (r : tensor) :
  shape p = bs ++ gs -> shape q = bs ++ gs -> wf p -> wf q -> 0 < eps ->
  _js p q (length gs) eps = Ok r ->
  forall i, in_range bs i ->
    (forall g, in_range gs g -> 0 <= item p (i ++ g)) ->
    (forall g, in_range gs g -> 0 <= item q (i ++ g)) ->
    0 <= item r i.
Proof.
  intros Hp Hq Hwp Hwq He Hr i Hi Hpn Hqn.
  destruct (js_spec bs gs p q eps Hp Hq Hwp Hwq) as (r' & Hr' & _ & _ & Hir).
  rewrite Hr in Hr'. injection Hr' as <-.
  rewrite (Hir i Hi), <- !msum_scale_r, <- msum_plus.
  apply msum_nonneg. intros g Hg.
  apply js_term_nonneg; auto.
Qed.

(** X23: for nonnegative tensors of one shape and [eps > 0], [_js]
    is symmetric in its two arguments, every entry of its result is at
    least 0 (whether or not the tensors are normalized), and it is 0 where
    the two samples are equal. *)
Theorem js_divergence (bs gs : list nat) (p q : tensor) (eps : R) :
  shape p = bs ++ gs -> shape q = bs ++ gs -> wf p -> wf q -> 0 < eps ->
  (forall idx, in_range (bs ++ gs) idx -> 0 <= item p idx) ->
  (forall idx, in_range (bs ++ gs) idx -> 0 <= item q idx) ->
  exists r,
    _js p q (length gs) eps = Ok r /\ _js q p (length gs) eps = Ok r /\ shape r = bs /\
    forall i, in_range bs i ->
      0 <= item r i /\
      ((forall g, in_range gs g -> item p (i ++ g) = item q (i ++ g)) -> item r i = 0).
Proof.
  intros Hp Hq Hwp Hwq He Hpn Hqn.
  destruct (js_spec bs gs p q eps Hp Hq Hwp Hwq) as (r & Hr & Hsr & _ & Hir).
  exists r. split; [exact Hr |].
  split; [rewrite <- (js_sym bs gs p q eps Hp Hq Hwp Hwq); exact Hr |].
  split; [exact Hsr |].
  intros i Hi. split.
  - apply (js_nonneg_items bs gs p q eps r); try assumption.
    + intros g Hg. apply Hpn. apply in_range_app; assumption.
    + intros g Hg. apply Hqn. apply in_range_app; assumption.
  - intros Heq. rewrite (Hir i Hi).
    rewrite (msum_ext gs _ (fun _ => 0)).
    + rewrite (msum_ext gs (fun g => item q (i ++ g) * _) (fun _ => 0)).
      * rewrite msum_zero. ring.
      * intros g Hg. rewrite (Heq g Hg).
        replace ((item q (i ++ g) + item q (i ++ g)) * 0.5) with (item q (i ++ g)) by lra.
        ring.
    + intros g Hg. rewrite (Heq g Hg).
      replace ((item q (i ++ g) + item q (i ++ g)) * 0.5) with (item q (i ++ g)) by lra.
      ring.
Qed.

(** ** The entries of [make_gauss] *)

Lemma map_to_nat_of_nat (gs : list nat) : map Z.to_nat (map Z.of_nat gs) = gs.
Proof.
  rewrite map_map. rewrite <- (map_id gs) at 2. apply map_ext. apply Nat2Z.id.
Qed.

Lemma size_of_extents (gs : list nat) :
  (0 < prod gs)%nat -> forall s, In s (map Z.of_nat gs) -> (1 <= s)%Z.
Proof.
  intros Hg s Hs. apply in_map_iff in Hs. destruct Hs as (x & <- & Hx).
  destruct (In_nth gs x 0%nat Hx) as (i & Hi & <-).
  pose proof (extent_pos gs i Hg Hi). lia.
Qed.

Lemma prod_extents_pos (size : list Z) :
  (forall s, In s size -> (1 <= s)%Z) -> (0 < prod (map Z.to_nat size))%nat.
Proof.
  induction size as [|s size IH]; intros H; simpl; [lia |].
  assert (1 <= s)%Z by (apply H; left; reflexivity).
  assert (0 < prod (map Z.to_nat size))%nat
    by (apply IH; intros x Hx; apply H; right; assumption).
  nia.
Qed.

Lemma make_gauss_entries (bs : list nat) (means : tensor) (size : list Z) (sigma : R) :
  shape means = bs ++ [length size] -> (1 <= length size)%nat ->
  (forall s, In s size -> (1 <= s)%Z) -> sigma <> 0 ->
  exists gauss out,
    make_gauss means size sigma false = Ok gauss /\
    make_gauss means size sigma true = Ok out /\
    shape gauss = bs ++ map Z.to_nat size /\
    shape out = bs ++ map Z.to_nat size /\ wf out /\
    forall p g, in_range bs p -> in_range (map Z.to_nat size) g ->
      item gauss (p ++ g) = gauss_density means sigma (map Z.to_nat size) p g /\
      item out (p ++ g) = gauss_normalized means sigma (map Z.to_nat size) p g.
Proof.
  intros Hs Hn Hsize Hsig.
  destruct (make_gauss_gauss bs means size sigma Hs Hn Hsize Hsig)
    as (gauss & Hsg & Hig & Hmk).
  set (gs := map Z.to_nat size) in *.
  assert (Hgl : length gs = length size) by (unfold gs; apply length_map).
  destruct (normalize_gauss bs gs gauss Hsg) as (out & Hout & Hso & Hwo & Hio); [lia |].
  exists gauss, out.
  split; [rewrite (Hmk false); reflexivity |].
  split; [rewrite (Hmk true); cbn [negb]; rewrite <- Hgl; exact Hout |].
  split; [exact Hsg |]. split; [exact Hso |]. split; [exact Hwo |].
  intros p g Hp Hg. split; [apply Hig; assumption |].
  rewrite (Hio p g Hp Hg), (Hig p g Hp Hg). unfold gauss_normalized. f_equal. f_equal.
  apply msum_ext. intros g' Hg'. apply Hig; assumption.
Qed.

Lemma gauss_normalized_bounds (bs : list nat) (means : tensor) (size : list Z)
  (sigma : R) (p g : list nat) :
  shape means = bs ++ [length size] ->
  (forall s, In s size -> (1 <= s)%Z) -> sigma <> 0 ->
  in_range (map Z.to_nat size) g ->
  0 < gauss_normalized means sigma (map Z.to_nat size) p g < 1.
Proof.
  intros Hs Hsize Hsig Hg. unfold gauss_normalized.
  set (gs := map Z.to_nat size) in *.
  assert (Hd : forall g', in_range gs g' -> 0 < gauss_density means sigma gs p g').
  { intros g' Hg'. apply gauss_density_bounds; assumption. }
  assert (Hle : gauss_density means sigma gs p g <= msum gs (gauss_density means sigma gs p)).
  { apply (msum_ge_term gs g); [| assumption].
    intros idx Hi. apply Rlt_le, Hd. assumption. }
  pose proof (Hd g Hg) as Hpos. pose proof eps24_pos as He.
  split.
  - apply Rdiv_lt_0_compat; lra.
  - apply Rmult_lt_reg_r with (msum gs (gauss_density means sigma gs p) + eps24); [lra |].
    unfold Rdiv. rewrite Rmult_assoc, Rinv_l by lra. lra.
Qed.

(** ** The regularization losses *)

Lemma getitem_last (bs : list nat) (n : nat) : getitem (bs ++ [n]) (-1) = Ok n.
Proof. apply (getitem_app_r bs [n] 0). simpl. lia. Qed.

Lemma reg_losses_gauss (bs gs : list nat) (h mu : tensor) (sigma : R) :
  shape h = bs ++ gs -> shape mu = bs ++ [length gs] ->
  (1 <= length gs)%nat -> (0 < prod gs)%nat -> sigma <> 0 ->
  exists gauss,
    make_gauss mu (map Z.of_nat gs) sigma true = Ok gauss /\
    shape gauss = bs ++ gs /\ wf gauss /\
    (forall p g, in_range bs p -> in_range gs g ->
       item gauss (p ++ g) = gauss_normalized mu sigma gs p g /\
       0 < gauss_normalized mu sigma gs p g < 1) /\
    kl_reg_losses h mu sigma = _kl h gauss (length gs) eps24 /\
    js_reg_losses h mu sigma = _js h gauss (length gs) eps24.
Proof.
  intros Hh Hmu Hn Hg Hsig.
  pose proof (size_of_extents gs Hg) as Hsize.
  assert (Hmu' : shape mu = bs ++ [length (map Z.of_nat gs)])
    by (rewrite length_map; exact Hmu).
  destruct (make_gauss_entries bs mu (map Z.of_nat gs) sigma Hmu')
    as (g0 & out & _ & Hout & _ & Hso & Hwo & Hio);
    [rewrite length_map; assumption | assumption | assumption |].
  rewrite map_to_nat_of_nat in Hso, Hio.
  exists out. split; [exact Hout |]. split; [exact Hso |]. split; [exact Hwo |].
  split.
  { intros p g Hp Hgr. split; [apply Hio; assumption |].
    pose proof (gauss_normalized_bounds bs mu (map Z.of_nat gs) sigma p g Hmu' Hsize Hsig)
      as Hb.
    rewrite map_to_nat_of_nat in Hb. apply Hb. assumption. }
  unfold kl_reg_losses, js_reg_losses.
  rewrite Hmu, getitem_last. cbn [bind].
  rewrite Hh, slice_from_neg_app by lia.
  rewrite Hout. cbn [bind]. split; reflexivity.
Qed.

(** X25: for nonnegative heatmaps of shape [bs ++ gs] and means of
    shape [bs ++ [ndims]], [kl_reg_losses] returns a tensor of shape [bs]
    whose entry [i] is the sum over the grid cells of
    [h * (log (h + 1e-24) - log (G + 1e-24))] for the normalized
    Gaussian [G] of [make_gauss] at the means of the sample. *)
Theorem kl_reg_losses_terms (bs gs : list nat) (h mu : tensor) (sigma : R) :
  shape h = bs ++ gs -> shape mu = bs ++ [length gs] -> wf h ->
  (1 <= length gs)%nat -> (0 < prod gs)%nat -> sigma <> 0 ->
  (forall idx, in_range (bs ++ gs) idx -> 0 <= item h idx) ->
  exists r,
    kl_reg_losses h mu sigma = Ok r /\ shape r = bs /\
    forall i, in_range bs i ->
      item r i
      = msum gs (fun g => item h (i ++ g)
                          * (ln (item h (i ++ g) + eps24)
                             - ln (gauss_normalized mu sigma gs i g + eps24))).
Proof.
  intros Hh Hmu Hw Hn Hg Hsig _.
  destruct (reg_losses_gauss bs gs h mu sigma Hh Hmu Hn Hg Hsig)
    as (gauss & _ & Hsg & Hwg & Hig & Hkl & _).
  destruct (kl_spec bs gs h gauss eps24 Hh Hsg Hw Hwg) as (r & Hr & Hsr & _ & Hir).
  exists r. split; [rewrite Hkl; exact Hr |]. split; [exact Hsr |].
  intros i Hi. rewrite (Hir i Hi). apply msum_ext. intros g Hgr.
  rewrite (proj1 (Hig i g Hi Hgr)). reflexivity.
Qed.

(** X27: for nonnegative heatmaps, every entry of [js_reg_losses]
    is at least 0. *)
Theorem js_reg_losses_nonneg (bs gs : list nat) (h mu : tensor) (sigma : R) :
  shape h = bs ++ gs -> shape mu = bs ++ [length gs] -> wf h ->
  (1 <= length gs)%nat -> (0 < prod gs)%nat -> sigma <> 0 ->
  (forall idx, in_range (bs ++ gs) idx -> 0 <= item h idx) ->
  exists r,
    js_reg_losses h mu sigma = Ok r /\ shape r = bs /\
    forall i, in_range bs i -> 0 <= item r i.
Proof.
  intros Hh Hmu Hw Hn Hg Hsig Hnn.
  destruct (reg_losses_gauss bs gs h mu sigma Hh Hmu Hn Hg Hsig)
    as (gauss & _ & Hsg & Hwg & Hig & _ & Hjs).
  destruct (js_spec bs gs h gauss eps24 Hh Hsg Hw Hwg) as (r & Hr & Hsr & _ & _).
  exists r. split; [rewrite Hjs; exact Hr |]. split; [exact Hsr |].
  intros i Hi.
  apply (js_nonneg_items bs gs h gauss eps24 r); try assumption.
  - apply eps24_pos.
  - intros g Hgr. apply Hnn. apply in_range_app; assumption.
  - intros g Hgr. destruct (Hig i g Hi Hgr) as [-> Hb]. lra.
Qed.

(** X28: the losses [kl_reg_losses] and [js_reg_losses] of the
    target itself, the normalized Gaussian of [make_gauss] at the same
    means and [sigma], are 0. *)
Theorem reg_losses_of_target (bs gs : list nat) (mu : tensor) (sigma : R) :
  shape mu = bs ++ [length gs] ->
  (1 <= length gs)%nat -> (0 < prod gs)%nat -> sigma <> 0 ->
  exists target kl js,
    make_gauss mu (map Z.of_nat gs) sigma true = Ok target /\
    kl_reg_losses target mu sigma = Ok kl /\
    js_reg_losses target mu sigma = Ok js /\
    shape kl = bs /\ shape js = bs /\
    forall i, in_range bs i -> item kl i = 0 /\ item js i = 0.
Proof.
  intros Hmu Hn Hg Hsig.
  pose proof (size_of_extents gs Hg) as Hsize.
  assert (Hmu' : shape mu = bs ++ [length (map Z.of_nat gs)])
    by (rewrite length_map; exact Hmu).
  destruct (make_gauss_entries bs mu (map Z.of_nat gs) sigma Hmu')
    as (g0 & t & _ & Ht & _ & Hst & Hwt & _);
    [rewrite length_map; assumption | assumption | assumption |].
  rewrite map_to_nat_of_nat in Hst.
  destruct (reg_losses_gauss bs gs t mu sigma Hst Hmu Hn Hg Hsig)
    as (gauss & Hgauss & Hsg & Hwg & Hig & Hkl & Hjs).
  rewrite Ht in Hgauss. injection Hgauss as <-.
  destruct (kl_spec bs gs t t eps24 Hst Hst Hwt Hwt) as (kl & Hrk & Hsk & _ & Hik).
  destruct (js_spec bs gs t t eps24 Hst Hst Hwt Hwt) as (js & Hrj & Hsj & _ & Hij).
  exists t, kl, js. split; [exact Ht |].
  split; [rewrite Hkl; exact Hrk |]. split; [rewrite Hjs; exact Hrj |].
  split; [exact Hsk |]. split; [exact Hsj |].
  intros i Hi. split.
  - rewrite (Hik i Hi). rewrite (msum_ext gs _ (fun _ => 0)); [apply msum_zero |].
    intros g _. ring.
  - rewrite (Hij i Hi).
    rewrite (msum_ext gs _ (fun _ => 0)); [rewrite msum_zero; ring |].
    intros g _.
    replace ((item t (i ++ g) + item t (i ++ g)) * 0.5) with (item t (i ++ g)) by lra.
    ring.
Qed.

(** X24: for a nonzero [sigma] and extents of at least 1, entry
    [g] of sample [p] of [make_gauss] without normalization is the product
    over the mean components [k] of
    [exp (-(x[g_d] - mean[p,k])^2 / (2 * (2 * sigma / L_d)^2))] for the
    grid axis [d = ndims-1-k]; with normalization it is that over the sum
    over the grid plus [1e-24], strictly between 0 and 1. *)
Theorem make_gauss_closed_form (bs : list nat) (means : tensor) (size : list Z)
  (sigma : R) :
  shape means = bs ++ [length size] -> (1 <= length size)%nat ->
  (forall s, In s size -> (1 <= s)%Z) -> sigma <> 0 ->
  exists gauss out,
    make_gauss means size sigma false = Ok gauss /\
    make_gauss means size sigma true = Ok out /\
    shape gauss = bs ++ map Z.to_nat size /\
    shape out = bs ++ map Z.to_nat size /\
    forall p g, in_range bs p -> in_range (map Z.to_nat size) g ->
      item gauss (p ++ g) = gauss_density means sigma (map Z.to_nat size) p g /\
      item out (p ++ g) = gauss_normalized means sigma (map Z.to_nat size) p g /\
      0 < item out (p ++ g) < 1.
Proof.
  intros Hs Hn Hsize Hsig.
  destruct (make_gauss_entries bs means size sigma Hs Hn Hsize Hsig)
    as (gauss & out & Hg & Ho & Hsg & Hso & _ & Hi).
  exists gauss, out. repeat (split; [assumption |]).
  intros p g Hp Hgr. destruct (Hi p g Hp Hgr) as [H1 H2].
  split; [exact H1 |]. split; [exact H2 |].
  rewrite H2. apply (gauss_normalized_bounds bs); assumption.
Qed.

(** ** Averages *)

Lemma fold_right_nth (l : list R) :
  fold_right Rplus 0 l = rsum (length l) (fun n => nth n l 0).
Proof.
  rewrite <- fold_right_map_seq. f_equal.
  induction l as [|x l IH]; [reflexivity |].
  cbn [length seq map nth]. f_equal.
  rewrite <- seq_shift, map_map. exact IH.
Qed.

Lemma sum_all_msum (t : tensor) :
  wf t -> sum_all t = msum (shape t) (fun idx => item t idx).
Proof.
  intros Hw. unfold sum_all. rewrite fold_right_nth, Hw.
  symmetry. apply (msum_ravel (shape t) (fun n => nth n (data t) 0)).
Qed.

Lemma msum_const (s : list nat) (c : R) : msum s (fun _ => c) = INR (prod s) * c.
Proof.
  induction s as [|n s IH]; simpl; [lra |].
  rewrite (rsum_ext n _ (fun _ => INR (prod s) * c)) by (intros; apply IH).
  rewrite rsum_const, mult_INR. ring.
Qed.

Lemma msum_zero_iff (s : list nat) (f : list nat -> R) :
  (forall idx, in_range s idx -> 0 <= f idx) ->
  (msum s f = 0 <-> forall idx, in_range s idx -> f idx = 0).
Proof.
  intros Hnn. split.
  - intros H0 idx Hi.
    pose proof (msum_ge_term s idx f Hnn Hi) as Hle.
    pose proof (Hnn idx Hi). lra.
  - intros H. rewrite (msum_ext s f (fun _ => 0)) by assumption. apply msum_zero.
Qed.

Lemma average_loss_masked_msum (losses m : tensor) :
  wf losses -> wf m -> shape m = shape losses ->
  average_loss losses (Some m)
  = Ok (msum (shape losses) (fun idx => item losses idx * item m idx)
        / Rmax (msum (shape losses) (fun idx => item m idx)) 1).
Proof.
  intros Hwl Hwm Hs. unfold average_loss.
  destruct (map2b_same_shape Rmult losses m Hs) as (c & Hc & Hsc & Hwc & Hic).
  unfold mul. rewrite Hc. cbn [bind].
  rewrite (sum_all_msum c Hwc), (sum_all_msum m Hwm), Hsc, Hs.
  f_equal. f_equal. apply msum_ext. intros idx Hi. apply Hic. assumption.
Qed.

Lemma average_loss_unmasked_msum (losses : tensor) :
  wf losses -> (1 <= numel losses)%nat ->
  average_loss losses None
  = Ok (msum (shape losses) (fun idx => item losses idx) / INR (numel losses)).
Proof.
  intros Hw Hn. unfold average_loss.
  rewrite Z.max_l by lia. rewrite <- INR_IZR_INZ, (sum_all_msum losses Hw). reflexivity.
Qed.

(** X20: when every loss lies between [lo] and [hi], so does
    [average_loss]: without a mask, and with a mask of the shape of the
    losses whose entries are at least 0 and sum to at least 1. *)
Theorem average_loss_bounds (losses : tensor) (mask : option tensor) (lo hi : R) :
  wf losses -> (1 <= numel losses)%nat ->
  (forall idx, in_range (shape losses) idx -> lo <= item losses idx <= hi) ->
  match mask with
  | None => True
  | Some m => wf m /\ shape m = shape losses /\
              (forall idx, in_range (shape losses) idx -> 0 <= item m idx) /\
              1 <= sum_all m
  end ->
  exists r, average_loss losses mask = Ok r /\ lo <= r <= hi.
Proof.
  intros Hw Hn Hb Hm. destruct mask as [m|].
  - destruct Hm as (Hwm & Hs & Hmn & H1).
    rewrite average_loss_masked_msum by assumption.
    eexists. split; [reflexivity |].
    rewrite (sum_all_msum m Hwm), Hs in H1.
    set (S := msum (shape losses) (fun idx => item m idx)) in *.
    rewrite Rmax_left by lra.
    assert (Hlo : lo * S <= msum (shape losses) (fun idx => item losses idx * item m idx)).
    { unfold S. rewrite <- msum_scale_l. apply msum_le. intros idx Hi.
      apply Rmult_le_compat_r; [apply Hmn; assumption | apply Hb; assumption]. }
    assert (Hhi : msum (shape losses) (fun idx => item losses idx * item m idx) <= hi * S).
    { unfold S. rewrite <- msum_scale_l. apply msum_le. intros idx Hi.
      apply Rmult_le_compat_r; [apply Hmn; assumption | apply Hb; assumption]. }
    assert (Hinv : 0 < / S) by (apply Rinv_0_lt_compat; lra).
    unfold Rdiv. split.
    + replace lo with (lo * S * / S) by (field; lra).
      apply Rmult_le_compat_r; lra.
    + replace hi with (hi * S * / S) by (field; lra).
      apply Rmult_le_compat_r; lra.
  - rewrite average_loss_unmasked_msum by assumption.
    eexists. split; [reflexivity |].
    assert (HN : 1 <= INR (numel losses)) by (change 1 with (INR 1); apply le_INR; lia).
    set (N := INR (numel losses)) in *.
    assert (Hlo : lo * N <= msum (shape losses) (fun idx => item losses idx)).
    { rewrite Rmult_comm. unfold N, numel. rewrite <- msum_const.
      apply msum_le. intros idx Hi. apply Hb. assumption. }
    assert (Hhi : msum (shape losses) (fun idx => item losses idx) <= hi * N).
    { rewrite Rmult_comm. unfold N, numel. rewrite <- msum_const.
      apply msum_le. intros idx Hi. apply Hb. assumption. }
    assert (Hinv : 0 < / N) by (apply Rinv_0_lt_compat; lra).
    unfold Rdiv. split.
    + replace lo with (lo * N * / N) by (field; lra).
      apply Rmult_le_compat_r; lra.
    + replace hi with (hi * N * / N) by (field; lra).
      apply Rmult_le_compat_r; lra.
Qed.

(** X19: [average_loss] of [euclidean_losses] without a mask is at
    least 0, and it is 0 exactly when the predictions equal the targets
    everywhere. *)
Theorem average_euclidean_loss (a t : tensor) (s : list nat) (n : nat) :
  shape a = s ++ [n] -> shape t = s ++ [n] -> (1 <= prod s)%nat ->
  exists d r,
    euclidean_losses a t = Ok d /\ average_loss d None = Ok r /\
    0 <= r /\
    (r = 0 <-> forall q k, in_range s q -> (k < n)%nat ->
                 item a (q ++ [k]) = item t (q ++ [k])).
Proof.
  intros Ha Ht Hs.
  destruct (euclidean_losses_spec a t s n Ha Ht) as (d & Hd & Hsd & Hwd & Hid).
  assert (Hn : (1 <= numel d)%nat) by (unfold numel; rewrite Hsd; exact Hs).
  exists d. eexists. split; [exact Hd |].
  split; [apply average_loss_unmasked_msum; assumption |].
  assert (HN : 1 <= INR (numel d)) by (change 1 with (INR 1); apply le_INR; lia).
  assert (Hinv : 0 < / INR (numel d)) by (apply Rinv_0_lt_compat; lra).
  assert (Hnn : forall idx, in_range (shape d) idx -> 0 <= item d idx).
  { intros idx Hi. rewrite Hsd in Hi. rewrite (Hid idx Hi). apply sqrt_pos. }
  pose proof (msum_nonneg (shape d) (fun idx => item d idx) Hnn) as HS.
  split; [unfold Rdiv; apply Rmult_le_pos; lra |].
  assert (Hz : msum (shape d) (fun idx => item d idx) / INR (numel d) = 0
               <-> msum (shape d) (fun idx => item d idx) = 0).
  { split; intros H.
    - unfold Rdiv in H. apply Rmult_integral in H. destruct H; lra.
    - rewrite H. unfold Rdiv. ring. }
  rewrite Hz, (msum_zero_iff _ _ Hnn), Hsd.
  split.
  - intros H q k Hq Hk. specialize (H q Hq). rewrite (Hid q Hq) in H.
    apply sqrt_eq_0 in H; [| apply rsum_nonneg; intros j _; apply pow2_ge_0].
    pose proof (proj1 (rsum_sq_zero n (fun k => item a (q ++ [k]) - item t (q ++ [k]))) H k Hk)
      as H1.
    simpl in H1. lra.
  - intros H q Hq. rewrite (Hid q Hq).
    rewrite (proj2 (rsum_sq_zero n (fun k => item a (q ++ [k]) - item t (q ++ [k])))).
    + apply sqrt_0.
    + intros k Hk. rewrite (H q k Hq Hk). ring.
Qed.

(** ** The theorems at concrete tensors *)

Lemma in_range_2 (n m : nat) (idx : list nat) :
  in_range [n; m] idx -> exists i j, idx = [i; j] /\ (i < n)%nat /\ (j < m)%nat.
Proof.
  intros H. inversion H as [|i n' idx' s' Hi Hr]; subst.
  destruct (in_range_1 _ _ Hr) as (j & -> & Hj). eauto.
Qed.

Lemma swapped_pair_nonneg (idx : list nat) :
  in_range ([2%nat] ++ [2%nat]) idx -> 0 <= item swapped_pair idx.
Proof.
  intros H. destruct (in_range_2 _ _ _ H) as (i & j & -> & Hi & Hj).
  destruct i as [|[|i]], j as [|[|j]]; try lia; cbv; lra.
Qed.

Lemma uniform_pair_nonneg (idx : list nat) :
  in_range ([2%nat] ++ [2%nat]) idx ->
  0 <= item (mkT [2%nat; 2%nat] [/ 2; / 2; / 2; / 2]) idx.
Proof.
  intros H. destruct (in_range_2 _ _ _ H) as (i & j & -> & Hi & Hj).
  destruct i as [|[|i]], j as [|[|j]]; try lia; cbv; lra.
Qed.

Lemma js_divergence_witness :
  exists r,
    _js swapped_pair (mkT [2%nat; 2%nat] [/ 2; / 2; / 2; / 2]) (length [2%nat]) eps24 = Ok r /\
    _js (mkT [2%nat; 2%nat] [/ 2; / 2; / 2; / 2]) swapped_pair (length [2%nat]) eps24 = Ok r /\
    shape r = [2%nat] /\
    forall i, in_range [2%nat] i ->
      0 <= item r i /\
      ((forall g, in_range [2%nat] g ->
          item swapped_pair (i ++ g)
          = item (mkT [2%nat; 2%nat] [/ 2; / 2; / 2; / 2]) (i ++ g)) -> item r i = 0).
Proof.
  apply (js_divergence [2%nat] [2%nat] swapped_pair
           (mkT [2%nat; 2%nat] [/ 2; / 2; / 2; / 2]) eps24);
    [reflexivity | reflexivity | reflexivity | reflexivity | unfold eps24; lra
    | exact swapped_pair_nonneg | exact uniform_pair_nonneg].
Defined.

Lemma kl_reg_losses_terms_witness :
  exists r,
    kl_reg_losses swapped_pair (mkT [2%nat; 1%nat] [0; 0]) 1 = Ok r /\ shape r = [2%nat] /\
    forall i, in_range [2%nat] i ->
      item r i
      = msum [2%nat] (fun g =>
          item swapped_pair (i ++ g)
          * (ln (item swapped_pair (i ++ g) + eps24)
             - ln (gauss_normalized (mkT [2%nat; 1%nat] [0; 0]) 1 [2%nat] i g + eps24))).
Proof.
  apply (kl_reg_losses_terms [2%nat] [2%nat] swapped_pair (mkT [2%nat; 1%nat] [0; 0]) 1);
    [reflexivity | reflexivity | reflexivity | simpl; lia | simpl; lia | lra
    | exact swapped_pair_nonneg].
Defined.

Lemma kl_terms_witness :
  exists r,
    _kl swapped_pair (mkT [2%nat; 2%nat] [/ 2; / 2; / 2; / 2]) (length [2%nat]) eps24 = Ok r /\
    shape r = [2%nat] /\
    forall i, in_range [2%nat] i ->
      item r i
      = msum [2%nat] (fun g =>
          item swapped_pair (i ++ g)
          * (ln (item swapped_pair (i ++ g) + eps24)
             - ln (item (mkT [2%nat; 2%nat] [/ 2; / 2; / 2; / 2]) (i ++ g) + eps24))) /\
      ((forall g, in_range [2%nat] g ->
          item swapped_pair (i ++ g)
          = item (mkT [2%nat; 2%nat] [/ 2; / 2; / 2; / 2]) (i ++ g)) -> item r i = 0).
Proof.
  apply (kl_terms [2%nat] [2%nat] swapped_pair (mkT [2%nat; 2%nat] [/ 2; / 2; / 2; / 2]) eps24);
    [reflexivity | reflexivity | reflexivity | reflexivity | unfold eps24; lra
    | exact swapped_pair_nonneg | exact uniform_pair_nonneg].
Defined.

Lemma js_reg_losses_nonneg_witness :
  exists r,
    js_reg_losses swapped_pair (mkT [2%nat; 1%nat] [0; 0]) 1 = Ok r /\ shape r = [2%nat] /\
    forall i, in_range [2%nat] i -> 0 <= item r i.
Proof.
  apply (js_reg_losses_nonneg [2%nat] [2%nat] swapped_pair (mkT [2%nat; 1%nat] [0; 0]) 1);
    [reflexivity | reflexivity | reflexivity | simpl; lia | simpl; lia | lra
    | exact swapped_pair_nonneg].
Defined.

Lemma reg_losses_of_target_witness :
  exists target kl js,
    make_gauss (mkT [2%nat; 1%nat] [0; 0]) (map Z.of_nat [2%nat]) 1 true = Ok target /\
    kl_reg_losses target (mkT [2%nat; 1%nat] [0; 0]) 1 = Ok kl /\
    js_reg_losses target (mkT [2%nat; 1%nat] [0; 0]) 1 = Ok js /\
    shape kl = [2%nat] /\ shape js = [2%nat] /\
    forall i, in_range [2%nat] i -> item kl i = 0 /\ item js i = 0.
Proof.
  apply (reg_losses_of_target [2%nat] [2%nat] (mkT [2%nat; 1%nat] [0; 0]) 1);
    [reflexivity | simpl; lia | simpl; lia | lra].
Defined.

Lemma size_two_ok (s : Z) : In s [2%Z] -> (1 <= s)%Z.
Proof. intros [<-|[]]. lia. Qed.

Lemma make_gauss_closed_form_witness :
  exists gauss out,
    make_gauss (mkT [2%nat; 1%nat] [0; 0]) [2%Z] 1 false = Ok gauss /\
    make_gauss (mkT [2%nat; 1%nat] [0; 0]) [2%Z] 1 true = Ok out /\
    shape gauss = [2%nat] ++ map Z.to_nat [2%Z] /\
    shape out = [2%nat] ++ map Z.to_nat [2%Z] /\
    forall p g, in_range [2%nat] p -> in_range (map Z.to_nat [2%Z]) g ->
      item gauss (p ++ g)
      = gauss_density (mkT [2%nat; 1%nat] [0; 0]) 1 (map Z.to_nat [2%Z]) p g /\
      item out (p ++ g)
      = gauss_normalized (mkT [2%nat; 1%nat] [0; 0]) 1 (map Z.to_nat [2%Z]) p g /\
      0 < item out (p ++ g) < 1.
Proof.
  apply (make_gauss_closed_form [2%nat] (mkT [2%nat; 1%nat] [0; 0]) [2%Z] 1);
    [reflexivity | simpl; lia | exact size_two_ok | lra].
Defined.

Lemma ones_pair_bounds (idx : list nat) :
  in_range (shape (mkT [2%nat; 2%nat] [1; 2; 3; 4])) idx ->
  1 <= item (mkT [2%nat; 2%nat] [1; 2; 3; 4]) idx <= 4.
Proof.
  intros H. destruct (in_range_2 _ _ _ H) as (i & j & -> & Hi & Hj).
  destruct i as [|[|i]], j as [|[|j]]; try lia; cbv; lra.
Qed.

Lemma swapped_pair_mask_ok :
  wf swapped_pair /\ shape swapped_pair = shape (mkT [2%nat; 2%nat] [1; 2; 3; 4]) /\
  (forall idx, in_range (shape (mkT [2%nat; 2%nat] [1; 2; 3; 4])) idx ->
     0 <= item swapped_pair idx) /\
  1 <= sum_all swapped_pair.
Proof.
  split; [reflexivity |]. split; [reflexivity |].
  split; [exact swapped_pair_nonneg |]. cbv. lra.
Qed.

Lemma average_loss_bounds_witness :
  exists r,
    average_loss (mkT [2%nat; 2%nat] [1; 2; 3; 4]) (Some swapped_pair) = Ok r /\
    1 <= r <= 4.
Proof.
  apply (average_loss_bounds (mkT [2%nat; 2%nat] [1; 2; 3; 4]) (Some swapped_pair) 1 4);
    [reflexivity | unfold numel; simpl; lia | exact ones_pair_bounds
    | exact swapped_pair_mask_ok].
Defined.

Lemma average_euclidean_loss_witness :
  exists d r,
    euclidean_losses (mkT [2%nat; 2%nat] [1; 2; 3; 4]) (mkT [2%nat; 2%nat] [4; 6; 3; 4])
    = Ok d /\
    average_loss d None = Ok r /\ 0 <= r /\
    (r = 0 <-> forall q k, in_range [2%nat] q -> (k < 2)%nat ->
                 item (mkT [2%nat; 2%nat] [1; 2; 3; 4]) (q ++ [k])
                 = item (mkT [2%nat; 2%nat] [4; 6; 3; 4]) (q ++ [k])).
Proof.
  apply (average_euclidean_loss (mkT [2%nat; 2%nat] [1; 2; 3; 4])
           (mkT [2%nat; 2%nat] [4; 6; 3; 4]) [2%nat] 2);
    [reflexivity | reflexivity | simpl; lia].
Defined.

(** ** A transform with one row of coordinates per sample *)

Lemma coord_expectation_rows (bs cs gs : list nat) (h : tensor) (d : nat)
  (f : tensor -> result tensor) (oc : tensor) :
  shape h = bs ++ gs -> (0 < prod bs)%nat -> (0 < prod gs)%nat ->
  (d < length gs)%nat ->
  f (normalized_axis (nth d gs 0%nat)) = Ok oc ->
  shape oc = cs ++ [nth d gs 0%nat] -> prod cs = prod bs ->
  exists r,
    _coord_expectation h (Z.of_nat d - Z.of_nat (length gs)) (length gs) (Some f) = Ok r /\
    shape r = out_shape bs /\ wf r /\
    forall p, in_range bs p ->
      item r (out_idx bs p) =
      rsum (nth d gs 0%nat)
        (fun j => marginal gs d (fun g => item h (p ++ g)) j
                  * nth (ravel bs p * nth d gs 0%nat + j) (data oc) 0).
Proof.
  intros Hs Hb Hg Hd Hf Hoc Hcs.
  set (n := length gs). set (L := nth d gs 0%nat) in *. set (B := prod bs) in *.
  assert (Hn : (0 < n)%nat) by (unfold n; lia).
  assert (HL : (1 <= L)%nat) by (apply extent_pos; assumption).
  unfold _coord_expectation.
  rewrite Hs, getitem_app_r by assumption. cbn [bind]. fold L.
  rewrite normalized_linspace_tensor by assumption. cbn [bind].
  rewrite Hf. cbn [bind].
  unfold n. rewrite slice_to_neg_app, slice_from_neg_app by assumption.
  rewrite (view_head h bs gs Hs Hg). cbn [bind]. fold B. fold n.
  set (t0 := mkT (B :: gs) (data h)).
  rewrite range_neg.
  destruct (coord_loop [B] gs (fun p g => item t0 (p ++ g)) d Hd n 0%nat t0)
    as (t1 & Hloop & Hs1 & Hit1).
  { reflexivity. }
  { rewrite (flags_ext _ (fun _ => false)) by reflexivity.
    rewrite flags_false. split.
    - rewrite rshape_all_false. reflexivity.
    - intros p idx Hp Hi. rewrite rshape_all_false in Hi.
      rewrite psum_all_false by (apply in_range_length; assumption). reflexivity. }
  fold n in Hloop. rewrite Hloop. cbn [bind].
  fold n in Hs1, Hit1.
  rewrite Hs1. simpl app.
  unfold getitem at 1. cbn [length]. rewrite norm_index_0. cbn [bind nth].
  assert (Hnum : numel t1 = (L * B)%nat).
  { unfold numel. rewrite Hs1. simpl. unfold n. rewrite prod_rshape_all_but by assumption.
    fold L. lia. }
  rewrite view_last; [| unfold B; lia | rewrite Hnum; apply Nat.Div0.mod_mul].
  cbn [bind]. rewrite Hnum, Nat.div_mul by (unfold B; lia).
  rewrite Hoc, getitem_last. cbn [bind].
  change [(-1)%Z; Z.of_nat L] with ((-1)%Z :: map Z.of_nat [L]).
  rewrite (view_head oc cs [L] Hoc) by (simpl; lia). cbn [bind]. rewrite Hcs.
  set (summed := mkT [B; L] (data t1)). set (coords := mkT [B; L] (data oc)).
  destruct (map2b_same_shape Rmult summed coords eq_refl) as (w & Hw & Hsw & Hww & Hiw).
  unfold mul. rewrite Hw. cbn [bind].
  rewrite (sum_dim_last w [B] L Hsw). cbn [bind].
  set (expectations := tabulate [B] _).
  assert (Hdata : forall p, in_range bs p ->
     nth (ravel bs p) (data expectations) 0 =
      rsum L (fun j => marginal gs d (fun g => item h (p ++ g)) j
                       * nth (ravel bs p * L + j) (data oc) 0)).
  { intros p Hp. pose proof (ravel_lt bs p Hp) as Hlt. fold B in Hlt.
    transitivity (item expectations [ravel bs p]).
    { unfold item. cbn [shape expectations tabulate ravel]. f_equal. simpl. lia. }
    unfold expectations. rewrite item_tabulate by (constructor; [assumption | constructor]).
    apply rsum_ext. intros j Hj.
    assert (Hij : in_range [B; L] [ravel bs p; j])
      by (constructor; [assumption | constructor; [assumption | constructor]]).
    change ([ravel bs p] ++ [j]) with [ravel bs p; j].
    rewrite (Hiw _ Hij).
    f_equal.
    - transitivity (item t1 ([ravel bs p] ++ unit_idx d n j)).
      + unfold item. cbn [shape data summed]. f_equal. rewrite Hs1.
        cbn [app ravel]. unfold n. rewrite ravel_unit_idx by assumption.
        rewrite prod_rshape_all_but by assumption. fold L. simpl. lia.
      + rewrite Hit1.
        * unfold n. rewrite psum_all_but by assumption.
          apply marginal_ext. intros x. unfold item, t0. cbn [shape data].
          rewrite Hs. f_equal. rewrite ravel_app by (apply in_range_length; assumption).
          simpl. reflexivity.
        * constructor; [assumption | constructor].
        * unfold n. apply in_range_unit_idx; assumption.
    - unfold item, coords. cbn [shape data ravel]. f_equal. simpl. lia. }
  assert (Hlen : length (data expectations) = B).
  { unfold expectations, tabulate. cbn [data]. rewrite length_map, length_seq. simpl. lia. }
  assert (Hres : forall r, shape r = out_shape bs -> data r = data expectations ->
            wf r /\ forall p, in_range bs p ->
              item r (out_idx bs p) =
              rsum L (fun j => marginal gs d (fun g => item h (p ++ g)) j
                               * nth (ravel bs p * L + j) (data oc) 0)).
  { intros r Hsr Hdr. split.
    - unfold wf. rewrite Hdr, Hlen, Hsr. unfold B. destruct bs; simpl; lia.
    - intros p Hp. rewrite item_out_idx by assumption. rewrite Hdr. apply Hdata. assumption. }
  destruct bs as [|b0 bs'] eqn:Ebs.
  - simpl length. cbn [Nat.ltb Nat.leb].
    eexists. split; [reflexivity |]. split; [reflexivity |].
    apply Hres; reflexivity.
  - rewrite <- Ebs in *. replace (0 <? length bs) with true
      by (rewrite Ebs; reflexivity).
    unfold view. rewrite view_shape_exact.
    + cbn [bind]. eexists. split; [reflexivity |].
      split; [cbn [shape]; rewrite Ebs; reflexivity |].
      apply Hres; [cbn [shape]; rewrite Ebs; reflexivity | reflexivity].
    + change (prod bs = B * 1)%nat. rewrite Nat.mul_1_r. unfold B. rewrite ?Ebs. reflexivity.
Qed.

(** ** The coordinate variance with a last batch axis of extent 1 *)

Lemma out_shape_snoc (bs : list nat) (x : nat) : out_shape (bs ++ [x]) = bs ++ [x].
Proof. destruct bs; reflexivity. Qed.

Lemma out_idx_snoc (bs : list nat) (x : nat) (q : list nat) : out_idx (bs ++ [x]) q = q.
Proof. destruct bs; reflexivity. Qed.

Lemma coord_variance_unit_expect (bs gs : list nat) (h : tensor) (d : nat) :
  shape h = bs ++ 1%nat :: gs -> (0 < prod bs)%nat -> (0 < prod gs)%nat ->
  (d < length gs)%nat ->
  exists v,
    _coord_variance h (Z.of_nat d - Z.of_nat (length gs)) (length gs) = Ok v /\
    shape v = bs ++ [1%nat] /\
    forall p, in_range bs p ->
      item v (p ++ [0%nat]) = coord_var gs d (fun g => item h (p ++ 0%nat :: g)).
Proof.
  intros Hs Hb Hg Hd.
  assert (Hs' : shape h = (bs ++ [1%nat]) ++ gs) by (rewrite <- app_assoc; exact Hs).
  assert (Hb1 : (0 < prod (bs ++ [1%nat]))%nat) by (rewrite prod_app; simpl; lia).
  set (L := nth d gs 0%nat).
  assert (HL : (1 <= L)%nat) by (apply extent_pos; assumption).
  assert (Hp1 : forall p, in_range bs p -> in_range (bs ++ [1%nat]) (p ++ [0%nat])).
  { intros p Hp. apply in_range_app; [assumption |]. constructor; [lia | constructor]. }
  destruct (coord_expectation_expect (bs ++ [1%nat]) gs h d None (normalized_axis L)
              Hs' Hb1 Hg Hd)
    as (mu & Hmu & Hsmu & Hwmu & Himu).
  { intros axis Hax. fold L in Hax. rewrite normalized_linspace_tensor in Hax by assumption.
    symmetry. exact Hax. }
  { reflexivity. }
  rewrite out_shape_snoc in Hsmu.
  destruct (sub_axis_mean bs (normalized_axis L) mu L eq_refl Hsmu)
    as (D & HD & HsD & HwD & HiD).
  destruct (coord_expectation_rows (bs ++ [1%nat]) bs gs h d
              (fun x => d0 <- sub x mu ;; Ok (pow2 d0)) (pow2 D) Hs' Hb1 Hg Hd)
    as (v & Hv & Hsv & _ & Hiv).
  { fold L. rewrite HD. reflexivity. }
  { exact HsD. }
  { rewrite prod_app. simpl. lia. }
  rewrite out_shape_snoc in Hsv.
  exists v. split.
  { unfold _coord_variance. rewrite Hmu. cbn [bind]. exact Hv. }
  split; [exact Hsv |].
  intros p Hp.
  specialize (Hiv (p ++ [0%nat]) (Hp1 p Hp)). rewrite out_idx_snoc in Hiv.
  rewrite Hiv. fold L.
  rewrite (rsum_ext L _
    (fun j => marginal gs d (fun g => item h ((p ++ [0%nat]) ++ g)) j
              * (cell_coord L j
                 - coord_mean gs d (fun g => item h (p ++ 0%nat :: g))) ^ 2)).
  - transitivity (expect gs d (fun g => item h ((p ++ [0%nat]) ++ g))
                    (fun j => (cell_coord L j
                               - coord_mean gs d (fun g => item h (p ++ 0%nat :: g))) ^ 2)).
    { apply (rsum_marginal_expect gs d (fun g => item h ((p ++ [0%nat]) ++ g))
               (fun j => (cell_coord L j
                          - coord_mean gs d (fun g => item h (p ++ 0%nat :: g))) ^ 2) Hd). }
    unfold coord_var. fold L.
    apply expect_ext; [assumption | | reflexivity].
    intros g _. rewrite <- app_assoc. reflexivity.
  - intros j Hj. f_equal.
    transitivity (item (pow2 D) (p ++ [j])).
    { unfold item. f_equal. cbn [shape pow2 tmap]. rewrite HsD.
      rewrite !ravel_app by (apply in_range_length; assumption).
      simpl. lia. }
    unfold pow2. rewrite item_tmap;
      [| exact HwD
       | rewrite HsD; apply in_range_app; [assumption | constructor; [assumption | constructor]]].
    rewrite (HiD p j Hp Hj), item_normalized_axis by assumption.
    specialize (Himu (p ++ [0%nat]) (Hp1 p Hp)). rewrite out_idx_snoc in Himu.
    rewrite Himu. f_equal. f_equal. unfold coord_mean. fold L.
    apply expect_ext; [assumption | |].
    + intros g _. rewrite <- app_assoc. reflexivity.
    + intros i Hi. apply item_normalized_axis. assumption.
Qed.

(** X15: for heatmaps whose last batch axis has extent 1,
    [variance_reg_losses] returns for every sample the sum over the grid
    axes [k] of [(Var_k * (L_k / 2)^2 - sigma_t^2)^2], with the variances
    of that sample. *)
Theorem variance_reg_losses_unit_batch (bs gs : list nat) (h : tensor) (sigma_t : R) :
  shape h = bs ++ 1%nat :: gs -> (1 <= length gs)%nat -> (0 < numel h)%nat ->
  exists r,
    variance_reg_losses h sigma_t (length gs) = Ok r /\
    shape r = bs ++ [1%nat] /\
    forall p, in_range bs p ->
      item r (p ++ [0%nat])
      = rsum (length gs)
          (fun k => (coord_var gs k (fun g => item h (p ++ 0%nat :: g))
                     * (INR (nth k gs 0%nat) / 2) ^ 2 - sigma_t ^ 2) ^ 2).
Proof.
  intros Hs Hn Hnum.
  unfold numel in Hnum. rewrite Hs, prod_app in Hnum. cbn [prod fold_right] in Hnum.
  fold (prod gs) in Hnum.
  assert (Hb : (0 < prod bs)%nat) by nia.
  assert (Hg : (0 < prod gs)%nat) by nia.
  destruct (variance_reg_losses_from gs (bs ++ [1%nat]) h sigma_t
              (fun k q => coord_var gs k
                            (fun g => item h (firstn (length bs) q ++ 0%nat :: g))))
    as (r & Hr & Hsr & Hir).
  - rewrite Hs.
    replace (bs ++ 1%nat :: gs) with ((bs ++ [1%nat]) ++ gs) by (rewrite <- app_assoc; reflexivity).
    apply slice_from_neg_app. lia.
  - assumption.
  - intros k Hk.
    destruct (coord_variance_unit_expect bs gs h k Hs Hb Hg Hk) as (v & Hv & Hsv & Hiv).
    exists v. split; [exact Hv |]. split; [exact Hsv |].
    intros q Hq.
    destruct (in_range_app_split _ _ _ Hq) as (p & z & -> & Hp & Hz).
    destruct (in_range_1 _ _ Hz) as (i & -> & Hi).
    replace i with 0%nat by lia.
    rewrite <- (in_range_length _ _ Hp), firstn_app, Nat.sub_diag, firstn_all.
    simpl firstn. rewrite app_nil_r. apply Hiv. assumption.
  - exists r. split; [exact Hr |]. split; [exact Hsr |].
    intros p Hp. rewrite Hir.
    + apply rsum_ext. intros k Hk.
      rewrite <- (in_range_length _ _ Hp), firstn_app, Nat.sub_diag, firstn_all.
      simpl firstn. rewrite app_nil_r. reflexivity.
    + apply in_range_app; [assumption |]. constructor; [lia | constructor].
Qed.

Lemma variance_reg_losses_unit_batch_witness :
  exists r,
    variance_reg_losses (mkT [2%nat; 1%nat; 2%nat] [0; 1; 1; 0]) 1 (length [2%nat]) = Ok r /\
    shape r = [2%nat] ++ [1%nat] /\
    forall p, in_range [2%nat] p ->
      item r (p ++ [0%nat])
      = rsum (length [2%nat])
          (fun k => (coord_var [2%nat] k
                       (fun g => item (mkT [2%nat; 1%nat; 2%nat] [0; 1; 1; 0])
                                   (p ++ 0%nat :: g))
                     * (INR (nth k [2%nat] 0%nat) / 2) ^ 2 - 1 ^ 2) ^ 2).
Proof.
  apply (variance_reg_losses_unit_batch [2%nat] [2%nat]
           (mkT [2%nat; 1%nat; 2%nat] [0; 1; 1; 0]) 1);
    [reflexivity | simpl; lia | unfold numel; simpl; lia].
Defined.

(** X10: for heatmaps whose last batch axis has extent 1 (shape
    [bs ++ 1 :: gs]), [_coord_variance] returns for every sample the
    variance of the coordinate of axis [d] under the weights of that
    sample. *)
Theorem coord_variance_unit_batch (bs gs : list nat) (h : tensor) (d : nat) :
  shape h = bs ++ 1%nat :: gs -> (0 < numel h)%nat -> (d < length gs)%nat ->
  exists v,
    _coord_variance h (Z.of_nat d - Z.of_nat (length gs)) (length gs) = Ok v /\
    shape v = bs ++ [1%nat] /\
    forall p, in_range bs p ->
      item v (p ++ [0%nat]) = coord_var gs d (fun g => item h (p ++ 0%nat :: g)).
Proof.
  intros Hs Hnum Hd.
  unfold numel in Hnum. rewrite Hs, prod_app in Hnum. cbn [prod fold_right] in Hnum.
  fold (prod gs) in Hnum.
  apply coord_variance_unit_expect; try assumption; nia.
Qed.

Lemma coord_variance_unit_batch_witness :
  exists v,
    _coord_variance (mkT [2%nat; 1%nat; 2%nat] [0; 1; 1; 0])
      (Z.of_nat 0 - Z.of_nat (length [2%nat])) (length [2%nat]) = Ok v /\
    shape v = [2%nat] ++ [1%nat] /\
    forall p, in_range [2%nat] p ->
      item v (p ++ [0%nat])
      = coord_var [2%nat] 0
          (fun g => item (mkT [2%nat; 1%nat; 2%nat] [0; 1; 1; 0]) (p ++ 0%nat :: g)).
Proof.
  apply (coord_variance_unit_batch [2%nat] [2%nat] (mkT [2%nat; 1%nat; 2%nat] [0; 1; 1; 0]) 0);
    [reflexivity | unfold numel; simpl; lia | simpl; lia].
Defined.

(** ** Mirrored means *)

Lemma rsum_S_l (n : nat) (f : nat -> R) :
  rsum (S n) f = f 0%nat + rsum n (fun j => f (S j)).
Proof.
  induction n as [|n IH]; [simpl; lra |].
  change (rsum (S (S n)) f) with (rsum (S n) f + f (S n)).
  rewrite IH. cbn [rsum]. lra.
Qed.

Lemma rsum_flip (n : nat) (f : nat -> R) :
  rsum n (fun j => f (n - 1 - j)%nat) = rsum n f.
Proof.
  revert f. induction n as [|n IH]; intros f; [reflexivity |].
  rewrite (rsum_S_l n f). cbn [rsum].
  replace (S n - 1 - n)%nat with 0%nat by lia.
  rewrite (rsum_ext n _ (fun j => f (S (n - 1 - j)))).
  2:{ intros j Hj. f_equal. lia. }
  rewrite (IH (fun j => f (S j))). lra.
Qed.

Lemma msum_flip (gs : list nat) (F : list nat -> R) :
  msum gs (fun g => F (flip gs g)) = msum gs F.
Proof.
  revert F. induction gs as [|n gs IH]; intros F; simpl; [reflexivity |].
  rewrite <- (rsum_flip n (fun k => msum gs (fun idx => F (k :: idx)))).
  apply rsum_ext. intros k Hk. apply (IH (fun idx => F ((n - 1 - k)%nat :: idx))).
Qed.

Lemma nth_flip (gs g : list nat) (d : nat) :
  in_range gs g -> (d < length gs)%nat ->
  nth d (flip gs g) 0%nat = (nth d gs 0 - 1 - nth d g 0)%nat.
Proof.
  intros H. revert d. induction H as [|i n g gs Hi H IH]; intros d Hd; simpl in *; [lia |].
  destruct d as [|d]; [reflexivity | apply IH; lia].
Qed.

Lemma in_range_flip (gs g : list nat) : in_range gs g -> in_range gs (flip gs g).
Proof.
  intros H. induction H as [|i n g gs Hi H IH]; simpl; constructor; [lia | assumption].
Qed.

Lemma cell_coord_flip (L j : nat) :
  (j < L)%nat -> cell_coord L (L - 1 - j) = - cell_coord L j.
Proof.
  intros Hj. unfold cell_coord.
  rewrite !minus_INR by lia. simpl INR.
  assert (0 < INR L) by (apply lt_0_INR; lia). field. lra.
Qed.

Lemma rprod_ext (n : nat) (f g : nat -> R) :
  (forall k, (k < n)%nat -> f k = g k) -> rprod n f = rprod n g.
Proof.
  induction n as [|n IH]; intros H; simpl; [reflexivity |].
  rewrite IH by (intros k Hk; apply H; lia). rewrite (H n) by lia. reflexivity.
Qed.

Lemma gauss_density_flip (m1 m2 : tensor) (sigma : R) (gs p g : list nat) :
  (forall k, (k < length gs)%nat -> item m2 (p ++ [k]) = - item m1 (p ++ [k])) ->
  in_range gs g ->
  gauss_density m2 sigma gs p g = gauss_density m1 sigma gs p (flip gs g).
Proof.
  intros Hm Hg. unfold gauss_density. apply rprod_ext. intros k Hk.
  unfold gauss_term. cbv zeta.
  assert (Hd : (length gs - 1 - k < length gs)%nat) by lia.
  rewrite (nth_flip gs g _ Hg Hd), (Hm k Hk).
  rewrite cell_coord_flip by (apply in_range_nth; assumption).
  f_equal. ring.
Qed.

Lemma gauss_normalized_flip (m1 m2 : tensor) (sigma : R) (gs p g : list nat) :
  (forall k, (k < length gs)%nat -> item m2 (p ++ [k]) = - item m1 (p ++ [k])) ->
  in_range gs g ->
  gauss_normalized m2 sigma gs p g = gauss_normalized m1 sigma gs p (flip gs g).
Proof.
  intros Hm Hg. unfold gauss_normalized.
  rewrite (gauss_density_flip m1 m2 sigma gs p g Hm Hg). f_equal. f_equal.
  rewrite <- (msum_flip gs (gauss_density m1 sigma gs p)).
  apply msum_ext. intros g' Hg'. apply gauss_density_flip; assumption.
Qed.

Lemma coord_mean_flip (gs : list nat) (d : nat) (f1 f2 : list nat -> R) :
  (d < length gs)%nat ->
  (forall g, in_range gs g -> f2 g = f1 (flip gs g)) ->
  coord_mean gs d f2 = - coord_mean gs d f1.
Proof.
  intros Hd Hf. unfold coord_mean, expect.
  set (L := nth d gs 0%nat).
  transitivity (msum gs (fun g => -1 * (f1 (flip gs g)
                                        * cell_coord L (nth d (flip gs g) 0%nat)))).
  - apply msum_ext. intros g Hg.
    rewrite (Hf g Hg), (nth_flip gs g d Hg Hd). fold L.
    rewrite cell_coord_flip by (apply in_range_nth; assumption). ring.
  - rewrite msum_scale_l.
    rewrite (msum_flip gs (fun g => f1 g * cell_coord L (nth d g 0%nat))). ring.
Qed.

Lemma dsnt_make_gauss_mirror (bs : list nat) (m1 m2 : tensor) (size : list Z)
  (sigma : R) :
  shape m1 = bs ++ [length size] -> shape m2 = bs ++ [length size] ->
  (1 <= length size)%nat -> (forall s, In s size -> (1 <= s)%Z) -> sigma <> 0 ->
  (0 < prod bs)%nat ->
  (forall p k, in_range bs p -> (k < length size)%nat ->
     item m2 (p ++ [k]) = - item m1 (p ++ [k])) ->
  exists t1 t2 r1 r2,
    make_gauss m1 size sigma true = Ok t1 /\
    make_gauss m2 size sigma true = Ok t2 /\
    dsnt t1 (length size) = Ok r1 /\ dsnt t2 (length size) = Ok r2 /\
    shape r1 = out_shape bs ++ [length size] /\
    shape r2 = out_shape bs ++ [length size] /\
    forall p k, in_range bs p -> (k < length size)%nat ->
      item r2 (out_idx bs p ++ [k]) = - item r1 (out_idx bs p ++ [k]).
Proof.
  intros Hs1 Hs2 Hn Hsize Hsig Hb Hm.
  set (gs := map Z.to_nat size).
  assert (Hgl : length gs = length size) by (unfold gs; apply length_map).
  assert (Hg : (0 < prod gs)%nat) by (apply prod_extents_pos; assumption).
  destruct (make_gauss_entries bs m1 size sigma Hs1 Hn Hsize Hsig)
    as (g1 & t1 & _ & Ht1 & _ & Hst1 & _ & Hi1).
  destruct (make_gauss_entries bs m2 size sigma Hs2 Hn Hsize Hsig)
    as (g2 & t2 & _ & Ht2 & _ & Hst2 & _ & Hi2).
  fold gs in Hst1, Hst2, Hi1, Hi2.
  destruct (dsnt_spec bs gs t1 Hst1 Hb Hg) as (r1 & Hr1 & Hsr1 & _ & _); [lia |].
  destruct (dsnt_spec bs gs t2 Hst2 Hb Hg) as (r2 & Hr2 & Hsr2 & _ & _); [lia |].
  destruct (dsnt_coord_mean bs gs t1 Hst1) as (r1' & Hr1' & _ & Hm1); [lia | assumption | assumption |].
  destruct (dsnt_coord_mean bs gs t2 Hst2) as (r2' & Hr2' & _ & Hm2); [lia | assumption | assumption |].
  rewrite Hr1 in Hr1'. injection Hr1' as <-.
  rewrite Hr2 in Hr2'. injection Hr2' as <-.
  rewrite Hgl in *.
  exists t1, t2, r1, r2. repeat (split; [assumption |]).
  intros p k Hp Hk.
  rewrite (Hm1 p k Hp Hk), (Hm2 p k Hp Hk).
  apply coord_mean_flip; [lia |].
  intros g Hgr.
  rewrite (proj2 (Hi2 p g Hp Hgr)).
  rewrite (proj2 (Hi1 p (flip gs g) Hp (in_range_flip gs g Hgr))).
  apply gauss_normalized_flip; [| assumption].
  intros j Hj. apply Hm; [assumption | lia].
Qed.

(** X29: [dsnt] of the normalized Gaussian at the opposite means is
    the opposite of [dsnt] of the normalized Gaussian at the means; a
    sample whose means are all 0, the centre of the grid, has the
    coordinates 0. *)
Theorem dsnt_make_gauss_opp (bs : list nat) (means : tensor) (size : list Z)
  (sigma : R) :
  shape means = bs ++ [length size] -> wf means ->
  (1 <= length size)%nat -> (forall s, In s size -> (1 <= s)%Z) -> sigma <> 0 ->
  (0 < prod bs)%nat ->
  exists t1 t2 r1 r2,
    make_gauss means size sigma true = Ok t1 /\
    make_gauss (tmap Ropp means) size sigma true = Ok t2 /\
    dsnt t1 (length size) = Ok r1 /\ dsnt t2 (length size) = Ok r2 /\
    forall p k, in_range bs p -> (k < length size)%nat ->
      item r2 (out_idx bs p ++ [k]) = - item r1 (out_idx bs p ++ [k]) /\
      ((forall j, (j < length size)%nat -> item means (p ++ [j]) = 0) ->
       item r1 (out_idx bs p ++ [k]) = 0).
Proof.
  intros Hs Hw Hn Hsize Hsig Hb.
  assert (Hopp : forall p k, in_range bs p -> (k < length size)%nat ->
            item (tmap Ropp means) (p ++ [k]) = - item means (p ++ [k])).
  { intros p k Hp Hk. apply item_tmap; [assumption |].
    rewrite Hs. apply in_range_app; [assumption |]. constructor; [assumption | constructor]. }
  destruct (dsnt_make_gauss_mirror bs means (tmap Ropp means) size sigma Hs Hs Hn Hsize
              Hsig Hb Hopp)
    as (t1 & t2 & r1 & r2 & Ht1 & Ht2 & Hr1 & Hr2 & _ & _ & Hi).
  exists t1, t2, r1, r2. repeat (split; [assumption |]).
  intros p k Hp Hk. split; [apply Hi; assumption |].
  intros Hz.
  set (gs := map Z.to_nat size).
  assert (Hgl : length gs = length size) by (unfold gs; apply length_map).
  assert (Hg : (0 < prod gs)%nat) by (apply prod_extents_pos; assumption).
  destruct (make_gauss_entries bs means size sigma Hs Hn Hsize Hsig)
    as (g1 & t1' & _ & Ht1' & _ & Hst1 & _ & Hi1).
  rewrite Ht1 in Ht1'. injection Ht1' as <-. fold gs in Hst1, Hi1.
  destruct (dsnt_coord_mean bs gs t1 Hst1) as (r1' & Hr1' & _ & Hm1);
    [lia | assumption | assumption |].
  rewrite Hgl in *. rewrite Hr1 in Hr1'. injection Hr1' as <-.
  rewrite (Hm1 p k Hp Hk).
  assert (Hd : (length size - 1 - k < length gs)%nat) by lia.
  pose proof (coord_mean_flip gs (length size - 1 - k)
                (fun g => item t1 (p ++ g)) (fun g => item t1 (p ++ g)) Hd) as Hflip.
  cbv beta in Hflip.
  assert (Hsym : forall g, in_range gs g -> item t1 (p ++ g) = item t1 (p ++ flip gs g)).
  { intros g Hgr.
    rewrite (proj2 (Hi1 p g Hp Hgr)).
    rewrite (proj2 (Hi1 p (flip gs g) Hp (in_range_flip gs g Hgr))).
    apply gauss_normalized_flip; [| assumption].
    intros j Hj. rewrite Hz by lia. lra. }
  specialize (Hflip Hsym). lra.
Qed.

Lemma origin_means_wf : wf (mkT [2%nat; 1%nat] [0; 0]).
Proof. reflexivity. Qed.

Lemma dsnt_make_gauss_opp_witness :
  exists t1 t2 r1 r2,
    make_gauss (mkT [2%nat; 1%nat] [0; 0]) [2%Z] 1 true = Ok t1 /\
    make_gauss (tmap Ropp (mkT [2%nat; 1%nat] [0; 0])) [2%Z] 1 true = Ok t2 /\
    dsnt t1 (length [2%Z]) = Ok r1 /\ dsnt t2 (length [2%Z]) = Ok r2 /\
    forall p k, in_range [2%nat] p -> (k < length [2%Z])%nat ->
      item r2 (out_idx [2%nat] p ++ [k]) = - item r1 (out_idx [2%nat] p ++ [k]) /\
      ((forall j, (j < length [2%Z])%nat -> item (mkT [2%nat; 1%nat] [0; 0]) (p ++ [j]) = 0) ->
       item r1 (out_idx [2%nat] p ++ [k]) = 0).
Proof.
  apply (dsnt_make_gauss_opp [2%nat] (mkT [2%nat; 1%nat] [0; 0]) [2%Z] 1);
    [reflexivity | exact origin_means_wf | simpl; lia | exact size_two_ok | lra | simpl; lia].
Defined.

(** ** A mask of one row *)

Lemma msum_row (s : list nat) (n : nat) (F : list nat -> R) :
  msum (s ++ [n]) F = msum s (fun q => rsum n (fun k => F (q ++ [k]))).
Proof. rewrite msum_app. reflexivity. Qed.

(** X21: a mask of shape [[n]] on losses of shape [s ++ [n]] is
    applied to every row but counted once: the sum of the masked losses of
    all rows is divided by [max(sum(mask), 1)], so that a mask of ones
    gives the sum of all losses over [n], not over their number. *)
Theorem average_loss_row_mask (losses m : tensor) (s : list nat) (n : nat) :
  shape losses = s ++ [n] -> shape m = [n] -> wf losses -> wf m ->
  average_loss losses (Some m)
  = Ok (msum s (fun q => rsum n (fun k => item losses (q ++ [k]) * item m [k]))
        / Rmax (rsum n (fun k => item m [k])) 1) /\
  ((1 <= n)%nat -> (forall k, (k < n)%nat -> item m [k] = 1) ->
   average_loss losses (Some m)
   = Ok (msum s (fun q => rsum n (fun k => item losses (q ++ [k]))) / INR n)).
Proof.
  intros Hl Hm Hwl Hwm.
  assert (Hform : average_loss losses (Some m)
    = Ok (msum s (fun q => rsum n (fun k => item losses (q ++ [k]) * item m [k]))
          / Rmax (rsum n (fun k => item m [k])) 1)).
  { unfold average_loss.
    destruct (map2b_row Rmult losses m s n Hl Hm) as (c & Hc & Hsc & Hwc & Hic).
    unfold mul. rewrite Hc. cbn [bind].
    rewrite (sum_all_msum c Hwc), (sum_all_msum m Hwm), Hsc, Hm, msum_row.
    f_equal. f_equal.
    apply msum_ext. intros q Hq. apply rsum_ext. intros k Hk. apply Hic; assumption. }
  split; [exact Hform |].
  intros Hn Hones. rewrite Hform. f_equal.
  rewrite (rsum_ext n (fun k => item m [k]) (fun _ => 1)) by assumption.
  rewrite rsum_const, Rmult_1_r.
  assert (HN : 1 <= INR n) by (change 1 with (INR 1); apply le_INR; lia).
  rewrite Rmax_left by lra. f_equal.
  apply msum_ext. intros q Hq. apply rsum_ext. intros k Hk.
  rewrite (Hones k Hk). ring.
Qed.

Lemma average_loss_row_mask_witness :
  average_loss (mkT [2%nat; 2%nat] [1; 2; 3; 4]) (Some (mkT [2%nat] [1; 1]))
  = Ok (msum [2%nat]
          (fun q => rsum 2 (fun k => item (mkT [2%nat; 2%nat] [1; 2; 3; 4]) (q ++ [k])
                                     * item (mkT [2%nat] [1; 1]) [k]))
        / Rmax (rsum 2 (fun k => item (mkT [2%nat] [1; 1]) [k])) 1) /\
  ((1 <= 2)%nat -> (forall k, (k < 2)%nat -> item (mkT [2%nat] [1; 1]) [k] = 1) ->
   average_loss (mkT [2%nat; 2%nat] [1; 2; 3; 4]) (Some (mkT [2%nat] [1; 1]))
   = Ok (msum [2%nat]
           (fun q => rsum 2 (fun k => item (mkT [2%nat; 2%nat] [1; 2; 3; 4]) (q ++ [k])))
         / INR 2)).
Proof.
  apply (average_loss_row_mask (mkT [2%nat; 2%nat] [1; 2; 3; 4]) (mkT [2%nat] [1; 1])
           [2%nat] 2);
    reflexivity.
Defined.

(** ** More mean coordinates than grid axes *)

Lemma mapM_length {A B : Type} (f : A -> result B) (l : list A) (ys : list B) :
  mapM f l = Ok ys -> length ys = length l.
Proof.
  revert ys. induction l as [|x l IH]; intros ys H; simpl in H.
  - injection H as <-. reflexivity.
  - apply bind_ok_inv in H. destruct H as (y & _ & H).
    apply bind_ok_inv in H. destruct H as (ys' & Hys & H).
    injection H as <-. simpl. f_equal. apply IH. exact Hys.
Qed.

Lemma firstn_seq_le (n m : nat) : (n <= m)%nat -> firstn n (seq 0 m) = seq 0 n.
Proof.
  revert m. generalize 0%nat. induction n as [|n IH]; intros s m H; [reflexivity |].
  destruct m as [|m]; [lia |]. simpl. f_equal. apply IH. lia.
Qed.

(** X30: [make_gauss] does not check the number of mean
    coordinates: when the means have more coordinates than the grid has
    axes, the result is that for the first [len(size)] coordinates, the
    others being ignored. *)
Theorem make_gauss_extra_means (bs : list nat) (means : tensor) (size : list Z)
  (sigma : R) (normalize : bool) (m : nat) :
  shape means = bs ++ [m] -> (length size <= m)%nat ->
  make_gauss means size sigma normalize
  = make_gauss (narrow_last bs (length size) means) size sigma normalize.
Proof.
  intros Hs Hm. rewrite !make_gauss_parts.
  change (mapM (fun s => _normalized_linspace s (narrow_last bs (length size) means))
            (rev size))
    with (mapM (fun s => _normalized_linspace s means) (rev size)).
  destruct (mapM (fun s => _normalized_linspace s means) (rev size))
    as [coords_list|e] eqn:Ec; cbn [bind]; [| reflexivity].
  rewrite (split1_last bs m means Hs).
  rewrite (split1_last bs (length size) (narrow_last bs (length size) means) eq_refl).
  cbn [bind].
  assert (Hlen : length coords_list = length size).
  { rewrite (mapM_length _ _ _ Ec). apply length_rev. }
  match goal with
  | |- bind (mapM _ (combine _ ?l1)) _ = bind (mapM _ (combine _ ?l2)) _ =>
      replace (combine coords_list l1) with (combine coords_list l2); [reflexivity |]
  end.
  rewrite (combine_firstn_l coords_list (map _ (seq 0 m))).
  rewrite firstn_map, Hlen, firstn_seq_le by assumption.
  f_equal. apply map_ext_in. intros k Hk. apply in_seq in Hk.
  apply tabulate_ext. intros idx Hi.
  unfold narrow_last. apply item_tabulate.
  destruct (in_range_app_split _ _ _ Hi) as (p & z & -> & Hp & Hz).
  destruct (in_range_1 _ _ Hz) as (i & -> & _).
  rewrite <- (in_range_length _ _ Hp).
  replace (length p) with (length p + 0)%nat by lia.
  rewrite set_nth_app_r, set_nth_0.
  apply in_range_app; [assumption |]. constructor; [lia | constructor].
Qed.

Lemma make_gauss_extra_means_witness :
  make_gauss (mkT [1%nat; 2%nat] [0; 5]) [3%Z] 1 true
  = make_gauss (narrow_last [1%nat] (length [3%Z]) (mkT [1%nat; 2%nat] [0; 5])) [3%Z] 1 true.
Proof.
  apply (make_gauss_extra_means [1%nat] (mkT [1%nat; 2%nat] [0; 5]) [3%Z] 1 true 2);
    [reflexivity | simpl; lia].
Defined.

(** ** A lower bound of the Kullback-Leibler loss *)

Lemma kl_term_lower (h G eps : R) :
  0 <= h -> 0 <= G -> 0 < eps ->
  h - G - eps <= h * (ln (h + eps) - ln (G + eps)).
Proof.
  intros Hh HG He.
  assert (HP : 0 < h + eps) by lra. assert (HM : 0 < G + eps) by lra.
  pose proof (ln_diff_ge (h + eps) (G + eps) HP HM) as Hl.
  assert (H1 : h * (1 - (G + eps) / (h + eps)) <= h * (ln (h + eps) - ln (G + eps)))
    by (apply Rmult_le_compat_l; assumption).
  assert (H2 : h * (1 - (G + eps) / (h + eps)) = h - G - eps * ((h - G) / (h + eps)))
    by (field; lra).
  assert (H3 : (h - G) / (h + eps) <= 1).
  { apply Rmult_le_reg_r with (h + eps); [lra |].
    unfold Rdiv. rewrite Rmult_assoc, Rinv_l by lra. lra. }
  assert (H4 : eps * ((h - G) / (h + eps)) <= eps * 1)
    by (apply Rmult_le_compat_l; lra).
  lra.
Qed.

Lemma msum_minus_const (s : list nat) (f g : list nat -> R) (c : R) :
  msum s (fun idx => f idx - g idx - c) = msum s f - msum s g - INR (prod s) * c.
Proof.
  rewrite <- msum_const.
  rewrite (msum_ext s _ (fun idx => f idx + (-1 * g idx + -1 * c))) by (intros; ring).
  rewrite msum_plus, msum_plus, !msum_scale_l. ring.
Qed.

Lemma gauss_normalized_sum (bs : list nat) (means : tensor) (size : list Z)
  (sigma : R) (p : list nat) :
  shape means = bs ++ [length size] ->
  (forall s, In s size -> (1 <= s)%Z) -> sigma <> 0 ->
  msum (map Z.to_nat size) (gauss_normalized means sigma (map Z.to_nat size) p) < 1.
Proof.
  intros Hs Hsize Hsig. set (gs := map Z.to_nat size).
  assert (Hg : (0 < prod gs)%nat) by (apply prod_extents_pos; assumption).
  assert (HS : 0 < msum gs (gauss_density means sigma gs p)).
  { apply msum_pos; [assumption |]. intros g _.
    apply gauss_density_bounds; assumption. }
  unfold gauss_normalized.
  rewrite (msum_ext gs _ (fun g => gauss_density means sigma gs p g
                            * / (msum gs (gauss_density means sigma gs p) + eps24)))
    by (intros; reflexivity).
  rewrite msum_scale_r. pose proof eps24_pos.
  apply Rmult_lt_reg_r with (msum gs (gauss_density means sigma gs p) + eps24); [lra |].
  rewrite Rmult_assoc, Rinv_l by lra. lra.
Qed.

(** X26: for heatmaps that are probability distributions, every entry
    of [kl_reg_losses] is above [- 1e-24 * N] for the number [N] of grid
    cells: the loss is nonnegative up to the stabilizing [eps], which
    enters once per cell. *)
Theorem kl_reg_losses_lower_bound (bs gs : list nat) (h mu : tensor) (sigma : R) :
  shape h = bs ++ gs -> shape mu = bs ++ [length gs] -> wf h ->
  (1 <= length gs)%nat -> sigma <> 0 -> (0 < prod bs)%nat ->
  is_heatmap bs gs h ->
  exists r,
    kl_reg_losses h mu sigma = Ok r /\ shape r = bs /\
    forall i, in_range bs i -> - (INR (prod gs) * eps24) < item r i.
Proof.
  intros Hh Hmu Hw Hn Hsig Hb Hhm.
  assert (Hg : (0 < prod gs)%nat) by (apply (heatmap_prod_pos bs gs h); assumption).
  destruct (reg_losses_gauss bs gs h mu sigma Hh Hmu Hn Hg Hsig)
    as (gauss & _ & Hsg & Hwg & Hig & Hkl & _).
  destruct (kl_spec bs gs h gauss eps24 Hh Hsg Hw Hwg) as (r & Hr & Hsr & _ & Hir).
  exists r. split; [rewrite Hkl; exact Hr |]. split; [exact Hsr |].
  intros i Hi. rewrite (Hir i Hi).
  destruct (Hhm i Hi) as [Hnn Hsum].
  assert (HG : msum gs (gauss_normalized mu sigma gs i) < 1).
  { pose proof (size_of_extents gs Hg) as Hsize.
    assert (Hmu' : shape mu = bs ++ [length (map Z.of_nat gs)])
      by (rewrite length_map; exact Hmu).
    pose proof (gauss_normalized_sum bs mu (map Z.of_nat gs) sigma i Hmu' Hsize Hsig) as H.
    rewrite map_to_nat_of_nat in H. exact H. }
  apply Rlt_le_trans
    with (msum gs (fun g => item h (i ++ g) - gauss_normalized mu sigma gs i g - eps24)).
  - rewrite (msum_minus_const gs (fun g => item h (i ++ g))
               (gauss_normalized mu sigma gs i) eps24), Hsum.
    lra.
  - apply msum_le. intros g Hgr.
    destruct (Hig i g Hi Hgr) as [-> Hbd].
    apply kl_term_lower; [apply Hnn; assumption | lra | apply eps24_pos].
Qed.

Lemma kl_reg_losses_lower_bound_witness :
  is_heatmap [2%nat] [2%nat] swapped_pair /\
  exists r,
    kl_reg_losses swapped_pair (mkT [2%nat; 1%nat] [0; 0]) 1 = Ok r /\ shape r = [2%nat] /\
    forall i, in_range [2%nat] i -> - (INR (prod [2%nat]) * eps24) < item r i.
Proof.
  split; [exact swapped_pair_is_heatmap |].
  apply (kl_reg_losses_lower_bound [2%nat] [2%nat] swapped_pair (mkT [2%nat; 1%nat] [0; 0]) 1);
    [reflexivity | reflexivity | reflexivity | simpl; lia | lra | simpl; lia
    | exact swapped_pair_is_heatmap].
Defined.
